(** * Brick ontology compiler (generate_brick.py): a shallow embedding

    The compiler walks nested Python dictionaries and asserts RDF statements
    into two rdflib graphs, [G] (the ontology) and [shaclGraph] (the tag
    inference rules).  The embedding keeps the program's global state in one
    record that is threaded through every function; a Python exception leaves
    the state as it was at the point of the raise. *)

From Stdlib Require Import List String Ascii Bool Arith ZArith Lia.
From Stdlib Require Import DecimalString DecimalNat DecimalZ.
Import ListNotations.
Open Scope string_scope.
Set Warnings "-register-all".

(* ================================================================== *)
(** ** Python strings *)

Definition hash_char : ascii := "#"%char.
Definition underscore_char : ascii := "_"%char.
Definition space_char : ascii := " "%char.

(** One right-to-left pass: [(seen, tail)] where [seen] tells whether a
    ["#"] occurs and [tail] is what follows the last one. *)
Fixpoint split_hash_scan (s : string) : bool * string :=
  match s with
  | EmptyString => (false, EmptyString)
  | String c rest =>
      let '(seen, tail) := split_hash_scan rest in
      if seen then (true, tail)
      else if Ascii.eqb c hash_char then (true, tail)
      else (false, String c tail)
  end.

(** [s.split("#")[-1]] *)
Definition split_hash_last (s : string) : string := snd (split_hash_scan s).

(** [s.replace("_", " ")] *)
Fixpoint replace_underscores (s : string) : string :=
  match s with
  | EmptyString => EmptyString
  | String c rest =>
      String (if Ascii.eqb c underscore_char then space_char else c)
             (replace_underscores rest)
  end.

(** [str(n)] for a non-negative Python int. *)
Definition str_of_nat (n : nat) : string :=
  NilEmpty.string_of_uint (Nat.to_uint n).

(** [str(z)] for a Python int. *)
Definition str_of_Z (z : Z) : string :=
  NilEmpty.string_of_int (Z.to_int z).

(* ================================================================== *)
(** ** Namespaces

    bricksrc/namespaces.py binds these prefixes; the IRIs are the published
    ones of each vocabulary. *)

Definition BRICK_ns := "https://brickschema.org/schema/Brick#".
Definition BSH_ns := "https://brickschema.org/schema/BrickShape#".
Definition TAG_ns := "https://brickschema.org/schema/BrickTag#".
Definition RDF_ns := "http://www.w3.org/1999/02/22-rdf-syntax-ns#".
Definition RDFS_ns := "http://www.w3.org/2000/01/rdf-schema#".
Definition OWL_ns := "http://www.w3.org/2002/07/owl#".
Definition SH_ns := "http://www.w3.org/ns/shacl#".
Definition SKOS_ns := "http://www.w3.org/2004/02/skos/core#".
Definition QUDT_ns := "http://qudt.org/schema/qudt/".
Definition XSD_ns := "http://www.w3.org/2001/XMLSchema#".

(* ================================================================== *)
(** ** RDF terms, statements and graphs *)

(** [BNode(name)] carries the given identifier; [BNode()] draws a new one.
    The program never reuses a drawn identifier, so drawn identifiers are
    numbered by a counter kept in the state. *)
Inductive bnode_id : Type :=
| Named (name : string)
| Fresh (n : nat).

(** A literal is its lexical form and its datatype IRI, which is how rdflib
    compares literals. *)
Inductive term : Type :=
| URIRef (iri : string)
| BNode (id : bnode_id)
| Literal (lexical : string) (datatype : option string).

(** Values of the Python data that end up in [Literal(...)]. *)
Inductive pyval : Type :=
| PyStr (s : string)
| PyInt (z : Z)
| PyBool (b : bool)
| PyFloat (repr : string).

Definition XSD (local : string) : string := XSD_ns ++ local.

(** [Literal(v)]: rdflib picks the datatype from the Python type. *)
Definition Literal_of (v : pyval) : term :=
  match v with
  | PyStr s => Literal s None
  | PyInt z => Literal (str_of_Z z) (Some (XSD "integer"))
  | PyBool b => Literal (if b then "true" else "false") (Some (XSD "boolean"))
  | PyFloat r => Literal r (Some (XSD "double"))
  end.

Definition Literal_str (s : string) : term := Literal s None.
(** [Literal(n)] and [Literal(n, datatype=XSD.integer)] are the same term. *)
Definition Literal_nat (n : nat) : term :=
  Literal (str_of_nat n) (Some (XSD "integer")).
Definition Literal_True : term := Literal_of (PyBool true).

(** Every rdflib term is a [str]; this is its string value. *)
Definition py_str (t : term) : string :=
  match t with
  | URIRef iri => iri
  | BNode (Named name) => name
  | BNode (Fresh n) => "N" ++ str_of_nat n
  | Literal lexical _ => lexical
  end.

Definition BRICK (local : string) : term := URIRef (BRICK_ns ++ local).
Definition BSH (local : string) : term := URIRef (BSH_ns ++ local).
Definition TAG (local : string) : term := URIRef (TAG_ns ++ local).
Definition RDF (local : string) : term := URIRef (RDF_ns ++ local).
Definition RDFS (local : string) : term := URIRef (RDFS_ns ++ local).
Definition OWL (local : string) : term := URIRef (OWL_ns ++ local).
Definition SH (local : string) : term := URIRef (SH_ns ++ local).
Definition SKOS (local : string) : term := URIRef (SKOS_ns ++ local).
Definition QUDT (local : string) : term := URIRef (QUDT_ns ++ local).

(** [A = RDF.type] *)
Definition A : term := RDF "type".

Arguments BRICK : simpl never.
Arguments BSH : simpl never.
Arguments TAG : simpl never.
Arguments RDF : simpl never.
Arguments RDFS : simpl never.
Arguments OWL : simpl never.
Arguments SH : simpl never.
Arguments SKOS : simpl never.
Arguments QUDT : simpl never.
Arguments A : simpl never.

Definition bnode_id_eq_dec (x y : bnode_id) : {x = y} + {x <> y}.
Proof. decide equality; [apply string_dec | apply Nat.eq_dec]. Defined.

Definition term_eq_dec (x y : term) : {x = y} + {x <> y}.
Proof.
  decide equality;
    try apply string_dec; try apply bnode_id_eq_dec.
  decide equality; apply string_dec.
Defined.

Definition term_eqb (x y : term) : bool :=
  if term_eq_dec x y then true else false.

Definition triple : Type := (term * term * term)%type.

Definition triple_eq_dec (x y : triple) : {x = y} + {x <> y}.
Proof. repeat decide equality; try apply string_dec. Defined.

(** An rdflib graph is a set of statements; it is kept as a list without
    repetition, the most recent statement first. *)
Definition graph : Type := list triple.

Definition graph_mem (t : triple) (g : graph) : bool :=
  if in_dec triple_eq_dec t g then true else false.

(** [g.add(t)] *)
Definition graph_add (t : triple) (g : graph) : graph :=
  if graph_mem t g then g else t :: g.

(** [g.objects(subject=s, predicate=p)] *)
Definition graph_objects (g : graph) (s p : term) : list term :=
  map (fun t => snd t)
      (filter (fun t => term_eqb (fst (fst t)) s && term_eqb (snd (fst t)) p) g).

(** [g.subjects(predicate=p, object=o)] *)
Definition graph_subjects (g : graph) (p o : term) : list term :=
  map (fun t => fst (fst t))
      (filter (fun t => term_eqb (snd (fst t)) p && term_eqb (snd t) o) g).

(** [g.remove((s, p, None))] *)
Definition graph_remove_sp (s p : term) (g : graph) : graph :=
  filter (fun t => negb (term_eqb (fst (fst t)) s && term_eqb (snd (fst t)) p)) g.

(** [g.remove((s, p, o))] *)
Definition graph_remove (t : triple) (g : graph) : graph :=
  filter (fun u => if triple_eq_dec u t then false else true) g.

(** [(s, p, None) in g] *)
Definition graph_has_sp (g : graph) (s p : term) : bool :=
  existsb (fun t => term_eqb (fst (fst t)) s && term_eqb (snd (fst t)) p) g.

(** Number of statements of [g] with predicate [p] and object [o]. *)
Definition count_po (g : graph) (p o : term) : nat :=
  List.length (graph_subjects g p o).

(* ================================================================== *)
(** ** The program's state *)

Record state : Type := mkState {
  G : graph;
  shaclGraph : graph;
  shacl_tag_property_shapes : list (term * term);
  has_exactly_n_tags_shapes : list (nat * term);
  next_bnode : nat
}.

Definition initial_state : state := mkState [] [] [] [] 0.

Inductive exn : Type :=
| AssertionError (msg : string)
| Exception (msg : string)
| KeyError (key : string).

Inductive outcome : Type :=
| Returned
| Raised (e : exn).

(** A statement sequence that may raise. *)
Definition proc : Type := state -> outcome * state.

Definition G_add (t : triple) (st : state) : state :=
  mkState (graph_add t (G st)) (shaclGraph st)
          (shacl_tag_property_shapes st) (has_exactly_n_tags_shapes st)
          (next_bnode st).

Definition shacl_add (t : triple) (st : state) : state :=
  mkState (G st) (graph_add t (shaclGraph st))
          (shacl_tag_property_shapes st) (has_exactly_n_tags_shapes st)
          (next_bnode st).

Definition G_remove_sp (s p : term) (st : state) : state :=
  mkState (graph_remove_sp s p (G st)) (shaclGraph st)
          (shacl_tag_property_shapes st) (has_exactly_n_tags_shapes st)
          (next_bnode st).

Definition set_tag_shape (tag cond : term) (st : state) : state :=
  mkState (G st) (shaclGraph st)
          ((tag, cond) :: shacl_tag_property_shapes st)
          (has_exactly_n_tags_shapes st) (next_bnode st).

Definition set_n_tags_shape (n : nat) (cond : term) (st : state) : state :=
  mkState (G st) (shaclGraph st) (shacl_tag_property_shapes st)
          ((n, cond) :: has_exactly_n_tags_shapes st) (next_bnode st).

(** [d.get(k)] on the two caches. *)
Fixpoint tag_shape_lookup (d : list (term * term)) (tag : term) : option term :=
  match d with
  | [] => None
  | (k, v) :: rest => if term_eqb k tag then Some v else tag_shape_lookup rest tag
  end.

Fixpoint n_tags_lookup (d : list (nat * term)) (n : nat) : option term :=
  match d with
  | [] => None
  | (k, v) :: rest => if Nat.eqb k n then Some v else n_tags_lookup rest n
  end.

(** Statements in program order. *)
Definition block (body : list (state -> state)) (st : state) : state :=
  fold_left (fun s f => f s) body st.

(** [for x in xs: body(x)] *)
Definition for_each {X : Type} (xs : list X) (body : X -> state -> state)
    (st : state) : state :=
  fold_left (fun s x => body x s) xs st.

(** [BNode()]: the node drawn next, and the state after drawing it. *)
Definition fresh_BNode (st : state) : term := BNode (Fresh (next_bnode st)).

Definition drawn (st : state) : state :=
  mkState (G st) (shaclGraph st) (shacl_tag_property_shapes st)
          (has_exactly_n_tags_shapes st) (S (next_bnode st)).

(** [x = BNode(); body(x)] *)
Definition with_BNode (body : term -> state -> state) (st : state) : state :=
  body (fresh_BNode st) (drawn st).

(** [proc] versions, for code that may raise. *)
Definition pure (f : state -> state) : proc := fun st => (Returned, f st).

Definition raise (e : exn) : proc := fun st => (Raised e, st).

Definition andthen (p q : proc) : proc :=
  fun st =>
    match p st with
    | (Returned, st') => q st'
    | (Raised e, st') => (Raised e, st')
    end.

Notation "p ;; q" := (andthen p q) (at level 61, right associativity).

Section ForEachProc.
Variable X : Type.
Variable body : X -> proc.

(** [for x in xs: body(x)], stopping at the first raise. *)
Fixpoint for_each_proc (xs : list X) : proc :=
  match xs with
  | [] => pure (fun st => st)
  | x :: rest => body x ;; for_each_proc rest
  end.
End ForEachProc.
Arguments for_each_proc {X} body xs.

Definition with_BNode_proc (body : term -> proc) : proc :=
  fun st => body (fresh_BNode st) (drawn st).

(* ================================================================== *)
(** ** rdflib's [Collection(G, head, items)]

    Every head the program passes is a blank node drawn just before, with no
    [rdf:rest] of its own, so the end of the list it starts is the head. The
    first item is hung on the head and every further item on a new blank
    node, and the last cell is closed with [rdf:nil]. *)

Definition Collection_item (item : term) (k : term -> state -> state)
    (end_ : term) (st : state) : state :=
  if graph_has_sp (G st) end_ (RDF "first") then
    with_BNode (fun nxt =>
      block [ G_add (end_, RDF "rest", nxt);
              G_add (nxt, RDF "first", item);
              k nxt ]) st
  else
    block [ G_add (end_, RDF "first", item); k end_ ] st.

Fixpoint Collection_extend (items : list term) (end_ : term) : state -> state :=
  match items with
  | [] => G_add (end_, RDF "rest", RDF "nil")
  | item :: rest => Collection_item item (Collection_extend rest) end_
  end.

Definition Collection (head : term) (items : list term) : state -> state :=
  block [ G_remove_sp head (RDF "rest"); Collection_extend items head ].

(* ================================================================== *)
(** ** has_label, add_relationships *)

Definition has_label (concept : term) (st : state) : bool :=
  Nat.ltb 0 (List.length (graph_objects (G st) concept (RDFS "label"))).

(** A value of a pass-through key: a term, a list of terms, or a nested
    dictionary. *)
Inductive propval : Type :=
| PVTerm (t : term)
| PVList (ts : list term)
| PVDict.

Definition add_relationships (item : term) (propdefs : list (term * propval))
    : state -> state :=
  for_each propdefs (fun kv =>
    match snd kv with
    | PVList propval => for_each propval (fun pv => G_add (item, fst kv, pv))
    | PVTerm propval => G_add (item, fst kv, propval)
    | PVDict => fun st => st
    end).

(* ================================================================== *)
(** ** add_tags *)

Definition tag_local (tag : term) : string := split_hash_last (py_str tag).

Definition tag_condition (tag : term) : term :=
  BNode (Named ("has_" ++ tag_local tag ++ "_condition")).
Definition tag_property (tag : term) : term :=
  BNode (Named ("has_" ++ tag_local tag ++ "_tag")).

Definition tag_shape (klass : term) : term :=
  BSH (split_hash_last (py_str klass) ++ "_TagShape").
Definition tag_inference_rule (klass : term) : term :=
  BNode (Named (py_str klass ++ "TagInferenceRule")).

Definition n_tags_condition (num_tags : nat) : term :=
  BSH ("has_exactly_" ++ str_of_nat num_tags ++ "_tags_condition").
Definition n_tags_property (num_tags : nat) : term :=
  BNode (Named ("has_exactly_" ++ str_of_nat num_tags ++ "_tags")).
Definition n_tags_rule (num_tags : nat) : term :=
  BSH ("has_exactly_" ++ str_of_nat num_tags ++ "_tags_rule").
Definition n_tags_body (num_tags : nat) : term :=
  BNode (Named ("has_" ++ str_of_nat num_tags ++ "_tags_body")).

(** The body of [if tag not in shacl_tag_property_shapes:]. *)
Definition new_tag_condition (rule tag : term) : state -> state :=
  let cond := tag_condition tag in
  let prop := tag_property tag in
  with_BNode (fun tagshape =>
    block [ shacl_add (rule, SH "condition", cond);
            shacl_add (cond, SH "property", prop);
            shacl_add (prop, SH "path", BRICK "hasTag");
            shacl_add (prop, SH "qualifiedValueShape", tagshape);
            shacl_add (tagshape, SH "hasValue", tag);
            shacl_add (prop, SH "qualifiedMinCount", Literal_nat 1);
            set_tag_shape tag cond ]).

(** [shaclGraph.add((rule, SH.condition, shacl_tag_property_shapes[tag]))];
    the key is present whenever this runs. *)
Definition attach_tag_condition (rule tag : term) (st : state) : state :=
  match tag_shape_lookup (shacl_tag_property_shapes st) tag with
  | Some cond => shacl_add (rule, SH "condition", cond) st
  | None => st
  end.

(** One turn of the loop [for tag in definition:] under [# conditions]. *)
Definition tag_condition_step (klass rule tag : term) : state -> state :=
  let classrule :=
    BNode (Named ("add_" ++ tag_local tag ++ "_to_" ++ split_hash_last (py_str klass))) in
  block [ G_add (klass, A, SH "NodeShape");
          G_add (klass, SH "rule", classrule);
          G_add (classrule, A, SH "TripleRule");
          G_add (classrule, SH "subject", SH "this");
          G_add (classrule, SH "predicate", BRICK "hasTag");
          G_add (classrule, SH "object", tag);
          (fun st =>
             match tag_shape_lookup (shacl_tag_property_shapes st) tag with
             | None => new_tag_condition rule tag st
             | Some _ => st
             end);
          attach_tag_condition rule tag ].

(** The body of [if len(definition) not in has_exactly_n_tags_shapes:]. *)
Definition new_n_tags_shape (num_tags : nat) : state -> state :=
  let cond := n_tags_condition num_tags in
  let prop := n_tags_property num_tags in
  let rule := n_tags_rule num_tags in
  let body := n_tags_body num_tags in
  block [ shacl_add (cond, A, OWL "Class");
          shacl_add (cond, A, SH "NodeShape");
          shacl_add (cond, SH "property", prop);
          shacl_add (prop, SH "path", BRICK "hasTag");
          shacl_add (prop, SH "minCount", Literal_nat num_tags);
          shacl_add (prop, SH "maxCount", Literal_nat num_tags);
          set_n_tags_shape num_tags cond;
          shacl_add (rule, A, SH "NodeShape");
          shacl_add (rule, SH "targetSubjectsOf", BRICK "hasTag");
          shacl_add (rule, SH "rule", body);
          shacl_add (body, A, SH "TripleRule");
          shacl_add (body, SH "subject", SH "this");
          shacl_add (body, SH "predicate", RDF "type");
          shacl_add (body, SH "object", cond);
          shacl_add (body, SH "condition", cond) ].

(** [shaclGraph.add((sc, SH.targetClass, has_exactly_n_tags_shapes[n]))] *)
Definition bind_target (sc : term) (num_tags : nat) (st : state) : state :=
  match n_tags_lookup (has_exactly_n_tags_shapes st) num_tags with
  | Some cond => shacl_add (sc, SH "targetClass", cond) st
  | None => st
  end.

Definition add_tags (klass : term) (definition : list term) : state -> state :=
  if Nat.eqb (List.length definition) 0 then (fun st => st)
  else
    let sc := tag_shape klass in
    let rule := tag_inference_rule klass in
    let num_tags := List.length definition in
    block [ for_each definition (fun tag =>
              block [ G_add (klass, BRICK "hasAssociatedTag", tag);
                      G_add (tag, A, BRICK "Tag");
                      G_add (tag, RDFS "label", Literal_str (tag_local tag)) ]);
            shacl_add (sc, A, SH "NodeShape");
            shacl_add (sc, SH "rule", rule);
            shacl_add (rule, A, SH "TripleRule");
            shacl_add (rule, SH "subject", SH "this");
            shacl_add (rule, SH "predicate", RDF "type");
            shacl_add (rule, SH "object", klass);
            for_each definition (tag_condition_step klass rule);
            (fun st =>
               match n_tags_lookup (has_exactly_n_tags_shapes st) num_tags with
               | None => new_n_tags_shape num_tags st
               | Some _ => st
               end);
            bind_target sc num_tags ].

(* ================================================================== *)
(** ** define_constraints *)

(** What a constraint allows: a class ([URIRef]), a list of classes, or
    anything else. *)
Inductive allowed : Type :=
| AllowedClass (iri : string)
| AllowedList (classes : list term)
| AllowedOther.

(** [for cls in classes: node = BNode(); G.add((node, SH["class"], cls));
    nodes.append(node)]; returns [nodes]. *)
Fixpoint class_fragments (classes : list term) (st : state) : list term * state :=
  match classes with
  | [] => ([], st)
  | cls :: rest =>
      let node := fresh_BNode st in
      let '(nodes, st') :=
        class_fragments rest (G_add (node, SH "class", cls) (drawn st)) in
      (node :: nodes, st')
  end.

Definition define_constraint (classname : term) (property_name : term)
    (property_values : allowed) : proc :=
  with_BNode_proc (fun pnode =>
  with_BNode_proc (fun onode =>
    pure (block [ G_add (classname, A, SH "NodeShape");
                  G_add (classname, SH "property", pnode);
                  G_add (pnode, SH "path", property_name) ]) ;;
    match property_values with
    | AllowedClass iri => pure (G_add (pnode, SH "class", URIRef iri))
    | AllowedList classes =>
        pure (fun st =>
          let '(possible_values, st') :=
            class_fragments classes (G_add (pnode, SH "or", onode) st) in
          Collection onode possible_values st')
    | AllowedOther =>
        raise (Exception ("Do not know how to handle constraints for "
                          ++ py_str classname))
    end)).

Definition define_constraints (constraints : list (term * allowed))
    (classname : term) : proc :=
  for_each_proc (fun kv => define_constraint classname (fst kv) (snd kv))
                constraints.

(* ================================================================== *)
(** ** define_classes *)

(** A class definition: the keys the compiler knows, and every other
    key-value pair in [others]. *)
Inductive class_defn : Type :=
| ClassDefn (tags : list term)
            (subclasses : list (string * class_defn))
            (parents : list term)
            (constraints : list (term * allowed))
            (others : list (term * propval)).

(** [G.add((item, propname, propval))] for a pass-through pair; rdflib's
    [add] asserts that what it is given is a term. *)
Definition copy_property (item : term) (kv : term * propval) : proc :=
  match snd kv with
  | PVList propval => pure (for_each propval (fun pv => G_add (item, fst kv, pv)))
  | PVTerm propval => pure (G_add (item, fst kv, propval))
  | PVDict => raise (AssertionError "Object must be an rdflib term")
  end.

Fixpoint define_class (name : string) (defn : class_defn) (parent : term)
    (pun_classes : bool) {struct defn} : proc :=
  match defn with
  | ClassDefn taglist subclassdef parents constraints others =>
      let classname := BRICK name in
      let class_label := replace_underscores (split_hash_last (py_str classname)) in
      pure (block
        [ G_add (classname, A, OWL "Class");
          G_add (classname, RDFS "subClassOf", parent);
          (fun st =>
             if negb (has_label classname st)
             then G_add (classname, RDFS "label", Literal_str class_label) st
             else st);
          (fun st => if pun_classes then G_add (classname, A, classname) st else st);
          add_tags classname taglist ]) ;;
      for_each_proc (fun nd => define_class (fst nd) (snd nd) classname false)
                    subclassdef ;;
      pure (for_each parents (fun _parent =>
              G_add (classname, RDFS "subClassOf", _parent))) ;;
      define_constraints constraints classname ;;
      for_each_proc (copy_property classname) others
  end.

Definition define_classes (definitions : list (string * class_defn))
    (parent : term) (pun_classes : bool) : proc :=
  for_each_proc (fun nd => define_class (fst nd) (snd nd) parent pun_classes)
                definitions.

(* ================================================================== *)
(** ** define_relationships *)










(* ================================================================== *)
(** ** define_entity_properties *)

Inductive shapes_value : Type :=
| ShapeOne (shape : term)
| ShapeList (shapes : list term).

(** An entity-property definition.  ["property_of"], [SH.node] and
    [RDFS.label] may be missing; [others] holds the remaining pairs. *)
Inductive entprop_defn : Type :=
| EntPropDefn (property_of : option shapes_value)
              (sh_node : option term)
              (label : option term)
              (subproperties : option (list (term * entprop_defn)))
              (others : list (term * propval)).

Definition entity_property_shape (entprop : term) : term :=
  BSH ("has" ++ split_hash_last (py_str entprop) ++ "Shape").

Fixpoint define_entity_property (entprop : term) (defn : entprop_defn)
    (superprop : option term) {struct defn} : proc :=
  match defn with
  | EntPropDefn property_of sh_node label subproperties others =>
      match property_of, sh_node, label with
      | None, _, _ =>
          raise (AssertionError (py_str entprop ++
            " missing a 'property_of' annotation so Brick doesn't know where this property can be used"))
      | Some _, None, _ =>
          raise (AssertionError (py_str entprop ++
            " missing a SH.node annotation so Brick doesn't know what the values of this property can be"))
      | Some _, Some _, None =>
          raise (AssertionError (py_str entprop ++ " missing a RDFS.label annotation"))
      | Some shapes, Some sh_node, Some label =>
          let pshape := entity_property_shape entprop in
          pure (block
            [ G_add (entprop, A, BRICK "EntityProperty");
              match superprop with
              | Some sp => G_add (entprop, RDFS "subPropertyOf", sp)
              | None => fun st => st
              end ]) ;;
          match subproperties with
          | Some subproperties =>
              for_each_proc (fun nd =>
                define_entity_property (fst nd) (snd nd) (Some entprop))
                subproperties
          | None => pure (fun st => st)
          end ;;
          pure (block
            [ G_add (pshape, A, SH "PropertyShape");
              G_add (pshape, SH "path", entprop);
              G_add (pshape, SH "node", sh_node);
              G_add (pshape, RDFS "label",
                     Literal_str ("has " ++ py_str label ++ " property"));
              match shapes with
              | ShapeList shapes =>
                  for_each shapes (fun shape => G_add (shape, SH "property", pshape))
              | ShapeOne shape => G_add (shape, SH "property", pshape)
              end ]) ;;
          (* what is left in [defn]: the label and the other pairs *)
          for_each_proc (copy_property entprop)
                        ((RDFS "label", PVTerm label) :: others)
      end
  end.

Definition define_entity_properties (definitions : list (term * entprop_defn))
    (superprop : option term) : proc :=
  for_each_proc (fun nd => define_entity_property (fst nd) (snd nd) superprop)
                definitions.

(* ================================================================== *)
(** ** define_shape_property_property *)

(** What a sub-property requirement may declare. *)
Inductive prop_defn : Type :=
| PropDefn (optional : option bool)
           (import_from : option string)
           (datatype : option term)
           (values : option (list pyval))
           (others : list (term * propval)).

(** 1 if the key is in the dictionary. *)
Definition key_count {V : Type} (entry : option V) : nat :=
  match entry with Some _ => 1 | None => 0 end.

(** [len(prop_defn.keys())] *)
Definition prop_defn_len (d : prop_defn) : nat :=
  match d with
  | PropDefn optional import_from datatype values others =>
      key_count optional + key_count import_from
      + key_count datatype + key_count values + List.length others
  end.

(** [prop_defn.get("optional", False)] *)
Definition prop_defn_optional (d : prop_defn) : bool :=
  match d with
  | PropDefn (Some b) _ _ _ _ => b
  | PropDefn None _ _ _ _ => false
  end.

(** The requirements of one shape: the alternatives under ["or"], if any,
    and the sub-property requirements, keyed by the property's IRI. *)
Inductive shape_props : Type :=
| ShapeProps (or_ : option (list shape_props))
             (props : list (string * prop_defn)).

(** The solutions of the pattern of the reuse query,
    [?p sh:property ?p . ?p sh:path <prop_name> .
     FILTER NOT EXISTS { ?p sh:minCount ?mc }
     FILTER NOT EXISTS { ?p sh:maxCount ?mc }]: the bindings of [?p]. *)
Definition prop_exists_solutions (g : graph) (prop_name : term) : list term :=
  nodup term_eq_dec
    (filter (fun p =>
               graph_mem (p, SH "property", p) g
               && graph_mem (p, SH "path", prop_name) g
               && negb (graph_has_sp g p (SH "minCount"))
               && negb (graph_has_sp g p (SH "maxCount")))
            (map (fun t => fst (fst t)) g)).

Section ShapeProperties.

(** The query engine is rdflib's.  The query selects [?x], which its
    pattern never binds, so every row has no value in its only column;
    [unbound_rows_kept] says whether iterating over the result yields such
    rows at all. *)
Variable unbound_rows_kept : bool.

(** [tmpG.parse(fname)]: the statements of the file. *)
Variable parse : string -> graph.

(** [list(G.query(...))]: each row's [?x]. *)
Definition prop_exists_query (g : graph) (prop_name : term) : list (option term) :=
  if unbound_rows_kept
  then map (fun _ => None) (prop_exists_solutions g prop_name)
  else [].

(** From [ps = BNode()] to the end of the loop body. *)
Definition define_property_shape (shape_name prop_name : term) (d : prop_defn)
    : proc :=
  match d with
  | PropDefn optional import_from datatype values others =>
      with_BNode_proc (fun ps =>
        pure (block
          [ G_add (shape_name, SH "property", ps);
            G_add (ps, A, SH "PropertyShape");
            G_add (ps, SH "path", prop_name);
            match import_from with
            | Some fname =>
                for_each (filter (fun t => term_eqb (fst (fst t)) prop_name)
                                 (parse fname))
                         (fun t => G_add (prop_name, snd (fst t), snd t))
            | None => fun st => st
            end;
            match optional with
            | Some true => fun st => st
            | Some false => G_add (ps, SH "minCount", Literal_nat 1)
            | None => G_add (ps, SH "minCount", Literal_nat 1)
            end;
            match datatype, values with
            | Some dtype, _ =>
                block [ G_add (prop_name, A, OWL "DatatypeProperty");
                        if term_eqb dtype (BSH "NumericValue")
                        then G_add (ps, SH "or", BSH "NumericValue")
                        else G_add (ps, SH "datatype", dtype) ]
            | None, Some vals =>
                with_BNode (fun enumeration =>
                  block [ G_add (ps, SH "in", enumeration);
                          G_add (ps, SH "minCount", Literal_nat 1);
                          Collection enumeration (map Literal_of vals);
                          G_add (prop_name, A, OWL "ObjectProperty") ])
            | None, None => G_add (prop_name, A, OWL "ObjectProperty")
            end ]) ;;
        (* add_relationships(ps, prop_defn): ["values"] is still a key when
           ["datatype"] was there too, and it is not a term *)
        match datatype, values with
        | Some _, Some (_ :: _) =>
            raise (AssertionError "Predicate values must be an rdflib term")
        | _, _ => pure (add_relationships ps others)
        end)
  end.

(** One turn of [for prop_name, prop_defn in definitions.items():]. *)
Definition define_shape_property (shape_name : term)
    (kv : string * prop_defn) : proc :=
  let prop_name := URIRef (fst kv) in
  let prop_defn := snd kv in
  fun st =>
    if prop_defn_optional prop_defn && Nat.eqb (prop_defn_len prop_defn) 1 then
      match prop_exists_query (G st) prop_name with
      | Some x :: _ => pure (G_add (shape_name, SH "property", x)) st
      | None :: _ => raise (AssertionError "Object None must be an rdflib term") st
      | [] => define_property_shape shape_name prop_name prop_defn st
      end
    else define_property_shape shape_name prop_name prop_defn st.

(** [for or_node_defn in ...: or_node_shape = BNode(); or_list.append(...);
    define_shape_property_property(or_node_shape, or_node_defn)], with the
    recursive call passed in; returns [or_list]. *)
Fixpoint or_alternatives {D : Type} (lower : term -> D -> proc)
    (alternatives : list D) (st : state) : outcome * list term * state :=
  match alternatives with
  | [] => (Returned, [], st)
  | or_node_defn :: rest =>
      let or_node_shape := fresh_BNode st in
      match lower or_node_shape or_node_defn (drawn st) with
      | (Returned, st') =>
          let '(r, or_list, st'') := or_alternatives lower rest st' in
          (r, or_node_shape :: or_list, st'')
      | (Raised e, st') => (Raised e, [or_node_shape], st')
      end
  end.

Fixpoint define_shape_property_property (shape_name : term)
    (definitions : shape_props) {struct definitions} : proc :=
  match definitions with
  | ShapeProps or_ props =>
      match or_ with
      | Some alternatives =>
          fun st =>
            match or_alternatives
                    (fun shape d => define_shape_property_property shape d)
                    alternatives st with
            | (Returned, or_list, st') =>
                pure (with_BNode (fun or_list_name =>
                  block [ G_add (shape_name, SH "or", or_list_name);
                          Collection or_list_name or_list ])) st'
            | (Raised e, _, st') => (Raised e, st')
            end
      | None => pure (fun st => st)
      end ;;
      for_each_proc (define_shape_property shape_name) props
  end.

End ShapeProperties.

(* ================================================================== *)
(** ** SPARQL property paths *)

(** One round of the search for the subjects of [s p+ target]: the subjects
    of a [p]-statement into [target] or into a node already found, that are
    not yet found. *)
Fixpoint path_round (g : graph) (p target : term) (found : list term)
    : list term :=
  match g with
  | [] => []
  | (s, q, o) :: rest =>
      let fresh := path_round rest p target found in
      if term_eqb q p
         && (term_eqb o target || existsb (term_eqb o) found)
         && negb (existsb (term_eqb s) found)
         && negb (existsb (term_eqb s) fresh)
      then s :: fresh
      else fresh
  end.

Fixpoint path_saturate (rounds : nat) (g : graph) (p target : term)
    (found : list term) : list term :=
  match rounds with
  | O => found
  | S rounds' =>
      match path_round g p target found with
      | [] => found
      | fresh => path_saturate rounds' g p target (fresh ++ found)%list
      end
  end.

(** The bindings of [?s] in [?s p+ target]. *)
Definition path_plus_subjects (g : graph) (p target : term) : list term :=
  path_saturate (S (List.length g)) g p target [].

(** [s p* target] *)
Definition path_star (g : graph) (p s target : term) : bool :=
  term_eqb s target || existsb (term_eqb s) (path_plus_subjects g p target).

(** [s rdf:type/rdfs:subClassOf* target] *)
Definition typed_under (g : graph) (s target : term) : bool :=
  existsb (fun cls => path_star g (RDFS "subClassOf") cls target)
          (graph_objects g s A).

(* ================================================================== *)
(** ** define_concept_hierarchy *)

(** A concept definition.  [narrower] and [related] are the nested
    dictionaries under [SKOS.narrower] and [SKOS.related]; a value under
    those keys that is not a dictionary is a pass-through pair like any
    other and is listed in [others], and so is the label. *)
Inductive concept_defn : Type :=
| ConceptDefn (label : option term)
              (narrower : option (list (string * concept_defn)))
              (related : option (list (string * concept_defn)))
              (parents : list term)
              (others : list (term * propval)).

(** [Literal(label)] *)
Definition Literal_from (label : term) : term :=
  match label with
  | Literal _ _ => label
  | _ => Literal_str (py_str label)
  end.

Fixpoint define_concept (name : string) (defn : concept_defn)
    (typeclasses : list term) (broader related : option term)
    {struct defn} : state -> state :=
  match defn with
  | ConceptDefn label_ narrower_defs related_defs parents others =>
      let concept := BRICK name in
      let label :=
        match label_ with
        | Some l => Literal_from l
        | None =>
            Literal_str (replace_underscores (split_hash_last (py_str concept)))
        end in
      block
        [ for_each typeclasses (fun typeclass => G_add (concept, A, typeclass));
          match broader with
          | Some broader =>
              block [ G_add (concept, SKOS "broader", broader);
                      G_add (broader, SKOS "narrower", concept) ]
          | None => fun st => st
          end;
          match related with
          | Some related =>
              block [ G_add (concept, SKOS "related", related);
                      G_add (related, SKOS "related", concept) ]
          | None => fun st => st
          end;
          (fun st =>
             if negb (has_label concept st)
             then G_add (concept, RDFS "label", label) st
             else st);
          match narrower_defs with
          | Some narrower_defs =>
              for_each narrower_defs (fun nd st =>
                define_concept (fst nd) (snd nd) typeclasses (Some concept) None st)
          | None => fun st => st
          end;
          match related_defs with
          | Some related_defs =>
              for_each related_defs (fun nd st =>
                define_concept (fst nd) (snd nd) typeclasses None (Some concept) st)
          | None => fun st => st
          end;
          for_each parents (fun _parent => G_add (concept, SKOS "broader", _parent));
          add_relationships concept
            (match label_ with
             | Some l => (RDFS "label", PVTerm l) :: others
             | None => others
             end) ]
  end.

Definition define_concept_hierarchy (definitions : list (string * concept_defn))
    (typeclasses : list term) (broader related : option term)
    : state -> state :=
  for_each definitions (fun nd =>
    define_concept (fst nd) (snd nd) typeclasses broader related).

(* ================================================================== *)
(** ** The taxonomy closure queries and the unit passes (module level) *)

(** [CONSTRUCT { ?narrower skos:broader ?broader } WHERE
     { ?broader skos:narrower ?narrower .
       ?narrower rdf:type/rdfs:subClassOf* brick:Entity }] *)
Definition construct_broader (g : graph) : graph :=
  fold_right (fun t acc =>
    let '(broader, p, narrower) := t in
    if term_eqb p (SKOS "narrower") && typed_under g narrower (BRICK "Entity")
    then graph_add (narrower, SKOS "broader", broader) acc
    else acc) [] g.

(** [CONSTRUCT { ?broader skos:narrower ?narrower } WHERE
     { ?narrower skos:broader ?broader .
       ?broader rdf:type/rdfs:subClassOf* brick:Entity }] *)
Definition construct_narrower (g : graph) : graph :=
  fold_right (fun t acc =>
    let '(narrower, p, broader) := t in
    if term_eqb p (SKOS "broader") && typed_under g broader (BRICK "Entity")
    then graph_add (broader, SKOS "narrower", narrower) acc
    else acc) [] g.

(** [G.query(q)] as a statement: the result is computed and dropped. *)
Definition query_and_drop {R : Type} (q : graph -> R) (st : state) : state :=
  let _result := q (G st) in st.

(** Lines 925-942. *)
Definition skos_closure : state -> state :=
  block [ query_and_drop construct_broader;
          query_and_drop construct_narrower ].

(** [SELECT ?quantity ?qudtquant WHERE { ?quantity rdf:type brick:Quantity .
     ?quantity brick:hasQUDTReference ?qudtquant }] *)
Definition quantities_with_reference (g : graph) : list (term * term) :=
  flat_map (fun quantity =>
              map (fun qudtquant => (quantity, qudtquant))
                  (graph_objects g quantity (BRICK "hasQUDTReference")))
           (graph_subjects g A (BRICK "Quantity")).

Definition is_literal (t : term) : bool :=
  match t with Literal _ _ => true | _ => false end.

(** [OPTIONAL { ... }]: the matches, or one row without a value. *)
Definition optional_matches (matches : list term) : list (option term) :=
  match matches with
  | [] => [None]
  | _ => map Some matches
  end.

Definition units_row_eq_dec (x y : term * option term * option term)
    : {x = y} + {x <> y}.
Proof. repeat decide equality; try apply string_dec. Defined.

(** get_units_brick: the rows [(unit, symbol, label)], as a set. *)
Definition get_units_brick (g : graph) (brick_quantity : term)
    : list (term * option term * option term) :=
  nodup units_row_eq_dec
    (flat_map (fun subquant =>
       flat_map (fun unit =>
         flat_map (fun symbol =>
           map (fun label => (unit, symbol, label))
               (optional_matches (graph_objects g unit (RDFS "label"))))
           (optional_matches
              (filter is_literal (graph_objects g unit (QUDT "symbol")))))
         (graph_objects g subquant (QUDT "applicableUnit")))
       (path_plus_subjects g (SKOS "broader") brick_quantity)).

Section Units.

(** bricksrc.quantities.get_units: the units QUDT lists for a quantity
    kind. *)
Variable get_units : term -> list term.

(** Lines 945-965: [res] is the answer to the query on the graph as it is
    then; the two loops run over it. *)
Definition propagate_units (st : state) : state :=
  let res := quantities_with_reference (G st) in
  block
    [ for_each res (fun r =>
        for_each (get_units (snd r)) (fun unit =>
          G_add (fst r, QUDT "applicableUnit", unit)));
      for_each res (fun r st =>
        for_each (get_units_brick (G st) (fst r)) (fun row =>
          G_add (fst r, QUDT "applicableUnit", fst (fst row))) st) ] st.

(** Lines 889-965: the measurable hierarchy, from the declarations of
    Quantity and Substance to the unit passes. *)
Definition define_measurables (substances quantity_definitions
    : list (string * concept_defn)) : state -> state :=
  block
    [ G_add (BRICK "Measurable", RDFS "subClassOf", BRICK "Entity");
      G_add (BRICK "Quantity", RDFS "subClassOf",
             URIRef "http://www.w3.org/ns/sosa/ObservableProperty");
      G_add (BRICK "Quantity", RDFS "subClassOf", QUDT "QuantityKind");
      G_add (URIRef "http://www.w3.org/ns/sosa/ObservableProperty", A, OWL "Class");
      G_add (BRICK "Quantity", RDFS "subClassOf", BRICK "Measurable");
      G_add (BRICK "Quantity", A, OWL "Class");
      G_add (BRICK "Quantity", RDFS "label", Literal_str "Quantity");
      G_add (BRICK "Quantity", RDFS "subClassOf", SKOS "Concept");
      G_add (BRICK "Substance", RDFS "subClassOf",
             URIRef "http://www.w3.org/ns/sosa/FeatureOfInterest");
      G_add (URIRef "http://www.w3.org/ns/sosa/FeatureOfInterest", A, OWL "Class");
      G_add (BRICK "Substance", RDFS "subClassOf", BRICK "Measurable");
      G_add (BRICK "Substance", A, OWL "Class");
      G_add (BRICK "Substance", RDFS "label", Literal_str "Substance");
      define_concept_hierarchy substances [BRICK "Substance"] None None;
      define_concept_hierarchy quantity_definitions [BRICK "Quantity"] None None;
      skos_closure;
      propagate_units ].

End Units.

(* ================================================================== *)
(** ** handle_deprecations *)

(** The value under [RDFS.subClassOf] or [SKOS.narrower]. *)
Inductive edges_value : Type :=
| EdgesNone
| EdgesOne (t : term)
| EdgesList (ts : list term).

Record deprecation : Type := mkDeprecation {
  md_subClassOf : option edges_value;
  md_narrower : option edges_value;
  md_version : option pyval;
  md_mitigation_message : option pyval;
  md_replace_with : option term
}.

Definition add_edges (s p : term) (v : edges_value) : state -> state :=
  match v with
  | EdgesNone => fun st => st
  | EdgesOne t => G_add (s, p, t)
  | EdgesList ts => for_each ts (fun t => G_add (s, p, t))
  end.

(** [md[key]] *)
Definition lookup_or_raise {V : Type} (key : string) (entry : option V)
    (k : V -> proc) : proc :=
  match entry with
  | Some v => k v
  | None => raise (KeyError key)
  end.

Definition handle_deprecation (deprecated_term : term) (md : deprecation) : proc :=
  let label := replace_underscores (split_hash_last (py_str deprecated_term)) in
  pure (block
    [ G_add (deprecated_term, A, OWL "Class");
      G_add (deprecated_term, OWL "deprecated", Literal_True);
      G_add (deprecated_term, RDFS "label", Literal_str label);
      match md_subClassOf md, md_narrower md with
      | Some subclasses, _ => add_edges deprecated_term (RDFS "subClassOf") subclasses
      | None, Some subconcepts => add_edges deprecated_term (SKOS "narrower") subconcepts
      | None, None => fun st => st
      end ]) ;;
  lookup_or_raise "version" (md_version md) (fun version =>
    pure (G_add (deprecated_term, BRICK "deprecatedInVersion", Literal_of version))) ;;
  lookup_or_raise "mitigation_message" (md_mitigation_message md) (fun message =>
    pure (G_add (deprecated_term, BRICK "deprecationMitigationMessage",
                 Literal_of message))) ;;
  lookup_or_raise "replace_with" (md_replace_with md) (fun successor =>
    pure (G_add (deprecated_term, BRICK "isReplacedBy", successor))).

Definition handle_deprecations (deprecations : list (term * deprecation)) : proc :=
  for_each_proc (fun kv => handle_deprecation (fst kv) (snd kv)) deprecations.

(* ================================================================== *)
(** ** Inputs used in the scenarios, and what the properties speak of *)

(** [{"Foo": {"tags": [TAG.T1]}}] *)
Definition Foo_definitions : list (string * class_defn) :=
  [("Foo", ClassDefn [TAG "T1"] [] [] [] [])].

(** One of the three required annotations is missing. *)
Definition lacks_required_metadata (defn : entprop_defn) : Prop :=
  match defn with
  | EntPropDefn property_of sh_node label _ _ =>
      property_of = None \/ sh_node = None \/ label = None
  end.

(** [{"property_of": BRICK.Equipment, SH.node: BSH.AreaShape}] *)
Definition unlabelled_entity_property : entprop_defn :=
  EntPropDefn (Some (ShapeOne (BRICK "Equipment")))
              (Some (BSH "AreaShape")) None None [].

(** Two value shapes that each ask for the same optional property and
    nothing more: [{BRICK.value: {"optional": True}}]. *)
Definition optional_only : prop_defn := PropDefn (Some true) None None None [].

Definition optional_value_shape : shape_props :=
  ShapeProps None [(BRICK_ns ++ "value", optional_only)].

Definition lower_two_shapes (unbound_rows_kept : bool) (parse : string -> graph)
    : proc :=
  define_shape_property_property unbound_rows_kept parse
    (BSH "AShape") optional_value_shape ;;
  define_shape_property_property unbound_rows_kept parse
    (BSH "BShape") optional_value_shape.

(** A quantity linked to another one through ["parents"]:
    [{"Power": {}, "Peak_Power": {"parents": [BRICK.Power]}}]. *)
Definition parents_quantities : list (string * concept_defn) :=
  [ ("Power", ConceptDefn None None None [] []);
    ("Peak_Power", ConceptDefn None None None [BRICK "Power"] []) ].


Definition legacy_deprecation : deprecation :=
  mkDeprecation (Some (EdgesList [BRICK "Thing"])) None
                (Some (PyStr "1.2")) (Some (PyStr "Use New_Thing"))
                (Some (BRICK "New_Thing")).

(** The terms listed under [RDFS.subClassOf] or [SKOS.narrower]. *)
Definition edges_terms (v : edges_value) : list term :=
  match v with
  | EdgesNone => []
  | EdgesOne t => [t]
  | EdgesList ts => ts
  end.

(** The statements [handle_deprecations] asserts for one term whose
    metadata has a version, a message and a successor. *)
Definition deprecation_statements (deprecated_term : term) (md : deprecation)
    (version message : pyval) (successor : term) : list triple :=
  ([ (deprecated_term, A, OWL "Class");
     (deprecated_term, OWL "deprecated", Literal_True);
     (deprecated_term, RDFS "label",
      Literal_str (replace_underscores (split_hash_last (py_str deprecated_term)))) ]
   ++ match md_subClassOf md, md_narrower md with
      | Some subclasses, _ =>
          map (fun c => (deprecated_term, RDFS "subClassOf", c)) (edges_terms subclasses)
      | None, Some subconcepts =>
          map (fun c => (deprecated_term, SKOS "narrower", c)) (edges_terms subconcepts)
      | None, None => []
      end
   ++ [ (deprecated_term, BRICK "deprecatedInVersion", Literal_of version);
        (deprecated_term, BRICK "deprecationMitigationMessage", Literal_of message);
        (deprecated_term, BRICK "isReplacedBy", successor) ])%list.

(** The metadata has the three keys the compiler indexes. *)
Definition complete_deprecation (md : deprecation) : Prop :=
  md_version md <> None /\ md_mitigation_message md <> None
  /\ md_replace_with md <> None.

(* ------------------------------------------------------------------ *)
(** *** How a statement sequence relates the state before and after *)

Section Steps.
Variable R : state -> state -> Prop.

(** [f] takes every state to an [R]-related one. *)
Definition steps (f : state -> state) : Prop := forall st, R st (f st).

(** The same for code that may raise: the state it leaves is related to the
    one it found, however it ends. *)
Definition proc_steps (p : proc) : Prop := forall st, R st (snd (p st)).
End Steps.

(* ------------------------------------------------------------------ *)
(** *** The classes of a definitions dictionary *)



(** Every class of a definition, nested ones included, with its own
    definition. *)
Fixpoint defn_classes (name : string) (d : class_defn)
    : list (term * class_defn) :=
  match d with
  | ClassDefn _ subclasses _ _ _ =>
      (BRICK name, d)
        :: flat_map (fun nd => defn_classes (fst nd) (snd nd)) subclasses
  end.

Definition classes_in (definitions : list (string * class_defn))
    : list (term * class_defn) :=
  flat_map (fun nd => defn_classes (fst nd) (snd nd)) definitions.




(* ------------------------------------------------------------------ *)
(** *** Shared fragments of the rule graph *)

(** The detection condition of [tag] is in the rule graph: a property shape
    on hasTag that wants at least one value equal to [tag]. *)
Definition tag_condition_present (sg : graph) (tag : term) : Prop :=
  In (tag_condition tag, SH "property", tag_property tag) sg
  /\ In (tag_property tag, SH "path", BRICK "hasTag") sg
  /\ In (tag_property tag, SH "qualifiedMinCount", Literal_nat 1) sg
  /\ exists tagshape,
       In (tag_property tag, SH "qualifiedValueShape", tagshape) sg
       /\ In (tagshape, SH "hasValue", tag) sg.

(** One detection condition per cached tag, none for any other tag: the
    value-shape statements [? sh:hasValue tag] are counted. *)
Definition tag_conditions_unique (st : state) : Prop :=
  forall tag,
    match tag_shape_lookup (shacl_tag_property_shapes st) tag with
    | Some cond =>
        cond = tag_condition tag
        /\ count_po (shaclGraph st) (SH "hasValue") tag = 1
        /\ tag_condition_present (shaclGraph st) tag
    | None => count_po (shaclGraph st) (SH "hasValue") tag = 0
    end.

(** The shape for exactly [n] tags and its companion rule are in the rule
    graph. *)
Definition n_tags_shape_present (sg : graph) (n : nat) : Prop :=
  In (n_tags_condition n, A, SH "NodeShape") sg
  /\ In (n_tags_condition n, SH "property", n_tags_property n) sg
  /\ In (n_tags_property n, SH "path", BRICK "hasTag") sg
  /\ In (n_tags_property n, SH "minCount", Literal_nat n) sg
  /\ In (n_tags_property n, SH "maxCount", Literal_nat n) sg
  /\ In (n_tags_rule n, SH "targetSubjectsOf", BRICK "hasTag") sg
  /\ In (n_tags_rule n, SH "rule", n_tags_body n) sg
  /\ In (n_tags_body n, SH "predicate", RDF "type") sg
  /\ In (n_tags_body n, SH "object", n_tags_condition n) sg
  /\ In (n_tags_body n, SH "condition", n_tags_condition n) sg.

(** One exact-cardinality shape and one companion rule per cached count,
    none for any other count: the statements [? sh:minCount n],
    [? sh:maxCount n] and [? sh:condition <shape for n>] are counted. *)
Definition n_tags_shapes_unique (st : state) : Prop :=
  forall n,
    match n_tags_lookup (has_exactly_n_tags_shapes st) n with
    | Some cond =>
        cond = n_tags_condition n
        /\ count_po (shaclGraph st) (SH "minCount") (Literal_nat n) = 1
        /\ count_po (shaclGraph st) (SH "maxCount") (Literal_nat n) = 1
        /\ count_po (shaclGraph st) (SH "condition") (n_tags_condition n) = 1
        /\ n_tags_shape_present (shaclGraph st) n
    | None =>
        count_po (shaclGraph st) (SH "minCount") (Literal_nat n) = 0
        /\ count_po (shaclGraph st) (SH "maxCount") (Literal_nat n) = 0
        /\ count_po (shaclGraph st) (SH "condition") (n_tags_condition n) = 0
    end.

Definition rule_caches_consistent (st : state) : Prop :=
  tag_conditions_unique st /\ n_tags_shapes_unique st.

(** The rule graph and the two caches only grow, and a cached entry keeps
    its value. *)
Definition rules_extend (st st' : state) : Prop :=
  incl (shaclGraph st) (shaclGraph st')
  /\ (forall tag cond,
         tag_shape_lookup (shacl_tag_property_shapes st) tag = Some cond ->
         tag_shape_lookup (shacl_tag_property_shapes st') tag = Some cond)
  /\ (forall n cond,
         n_tags_lookup (has_exactly_n_tags_shapes st) n = Some cond ->
         n_tags_lookup (has_exactly_n_tags_shapes st') n = Some cond).

Definition rule_step (st st' : state) : Prop :=
  (rule_caches_consistent st -> rule_caches_consistent st')
  /\ rules_extend st st'.

(** Nothing of the rule graph or the caches changes. *)
Definition same_rules (st st' : state) : Prop :=
  shaclGraph st' = shaclGraph st
  /\ shacl_tag_property_shapes st' = shacl_tag_property_shapes st
  /\ has_exactly_n_tags_shapes st' = has_exactly_n_tags_shapes st.










(* ------------------------------------------------------------------ *)
(** *** RDF lists and drawn blank nodes *)

(** [items] is the RDF list that starts at [node]: a chain of
    [rdf:first]/[rdf:rest] cells closed by [rdf:nil]. *)
Inductive rdf_list (g : graph) : term -> list term -> Prop :=
| rdf_list_nil : rdf_list g (RDF "nil") []
| rdf_list_cons (node item next : term) (items : list term) :
    In (node, RDF "first", item) g ->
    In (node, RDF "rest", next) g ->
    rdf_list g next items ->
    rdf_list g node (item :: items).

(** What [Collection(G, head, items)] leaves at [head]: the list, or for no
    items the single statement [head rdf:rest rdf:nil]. *)
Definition rdf_collection (g : graph) (head : term) (items : list term) : Prop :=
  match items with
  | [] => In (head, RDF "rest", RDF "nil") g
  | _ => rdf_list g head items
  end.

(** Every drawn blank node that is the subject of a statement of [G] was
    drawn before: the node [BNode()] returns next is the subject of none. *)
Definition subjects_drawn (st : state) : Prop :=
  forall n p o, In (BNode (Fresh n), p, o) (G st) -> n < next_bnode st.

(** The blank nodes drawn from [start] on, [count] of them. *)
Definition drawn_nodes (start count : nat) : list term :=
  map (fun n => BNode (Fresh n)) (seq start count).

(** The node is one that [BNode()] returns. *)
Definition is_drawn_node (t : term) : bool :=
  match t with BNode (Fresh _) => true | _ => false end.







(* ------------------------------------------------------------------ *)
(** *** What class lowering does to labels *)

(** [len(list(g.objects(subject=concept, predicate=RDFS.label))) > 0] *)
Definition graph_has_label (g : graph) (concept : term) : bool :=
  Nat.ltb 0 (List.length (graph_objects g concept (RDFS "label"))).

(** The label [define_classes] derives from a class's name. *)
Definition class_label (classname : term) : term :=
  Literal_str (replace_underscores (split_hash_last (py_str classname))).

(** The two ways class lowering writes a label: the derived label, written
    only when the class has none, and a label statement asserted as it is (a
    tag's label, or a pass-through [RDFS.label] pair). *)
Inductive label_event : Type :=
| LabelIfAbsent (classname : term)
| LabelAdd (subject label : term).

Definition apply_label_event (e : label_event) (g : graph) : graph :=
  match e with
  | LabelIfAbsent classname =>
      if negb (graph_has_label g classname)
      then graph_add (classname, RDFS "label", class_label classname) g
      else g
  | LabelAdd subject label => graph_add (subject, RDFS "label", label) g
  end.

Definition apply_label_events (es : list label_event) (g : graph) : graph :=
  fold_left (fun g e => apply_label_event e g) es g.

(** The label statements a pass-through pair makes. *)
Definition property_label_events (item : term) (kv : term * propval)
    : list label_event :=
  if term_eqb (fst kv) (RDFS "label") then
    match snd kv with
    | PVTerm l => [LabelAdd item l]
    | PVList ls => map (LabelAdd item) ls
    | PVDict => []
    end
  else [].

(** The label writes of one class definition, in program order. *)
Fixpoint class_label_events (name : string) (d : class_defn)
    : list label_event :=
  match d with
  | ClassDefn tags subclasses _ _ others =>
      (LabelIfAbsent (BRICK name)
         :: map (fun tag => LabelAdd tag (Literal_str (tag_local tag))) tags)
      ++ flat_map (fun nd => class_label_events (fst nd) (snd nd)) subclasses
      ++ flat_map (property_label_events (BRICK name)) others
  end.

Definition label_events (definitions : list (string * class_defn))
    : list label_event :=
  flat_map (fun nd => class_label_events (fst nd) (snd nd)) definitions.

(** The definitions assert a label statement for [c] outright: they list it
    as a tag or pass an [RDFS.label] pair through for it. *)
Definition label_passed_to (definitions : list (string * class_defn))
    (c : term) : Prop :=
  exists l, In (LabelAdd c l) (label_events definitions).

(** Two graphs have the same label statements. *)
Definition same_labels (g g' : graph) : Prop :=
  forall s l, In (s, RDFS "label", l) g <-> In (s, RDFS "label", l) g'.

(** The event has nothing left to write. *)
Definition label_event_settled (g : graph) (e : label_event) : Prop :=
  match e with
  | LabelIfAbsent classname => graph_has_label g classname = true
  | LabelAdd subject label => In (subject, RDFS "label", label) g
  end.

(** [f] makes the label writes [es], and no other change to the labels. *)
Definition performs (f : state -> state) (es : list label_event) : Prop :=
  forall st g, same_labels g (G st) ->
               same_labels (apply_label_events es g) (G (f st)).

(** [p] makes the label writes [es], or a first part of them if it
    raises, and no other change to the labels. *)
Definition traces (p : proc) (es : list label_event) : Prop :=
  forall st g, same_labels g (G st) ->
    exists done rest,
      es = (done ++ rest)%list
      /\ (fst (p st) = Returned -> rest = [])
      /\ same_labels (apply_label_events done g) (G (snd (p st))).

(** [{"Foo": {RDFS.label: Literal("Foo thing")}}] *)
Definition labelled_Foo : list (string * class_defn) :=
  [("Foo", ClassDefn [] [] [] [] [(RDFS "label", PVTerm (Literal_str "Foo thing"))])].

(** A step that leaves the label statements as they are. *)
Definition label_neutral (st st' : state) : Prop := same_labels (G st) (G st').

(* ------------------------------------------------------------------ *)
(** *** Paths and units *)

(** [s p+ o]: one or more [p]-statements lead from [s] to [o]. *)
Inductive path_plus (g : graph) (p : term) : term -> term -> Prop :=
| path_plus_one (s o : term) : In (s, p, o) g -> path_plus g p s o
| path_plus_step (s m o : term) :
    In (s, p, m) g -> path_plus g p m o -> path_plus g p s o.

(** No further subject has a [p]-statement into [target] or into [found]. *)
Definition path_closed (g : graph) (p target : term) (found : list term) : Prop :=
  forall s o, In (s, p, o) g -> o = target \/ In o found -> In s found.

(** The quantity is one of those the unit passes run over: it is typed
    brick:Quantity and has a QUDT reference. *)
Definition referenced_quantity (g : graph) (q : term) : Prop :=
  In (q, A, BRICK "Quantity") g
  /\ exists qudtquant, In (q, BRICK "hasQUDTReference", qudtquant) g.

(** The unit is declared for the concept before units are inherited: by a
    statement of the graph, or by QUDT for a reference of the concept. *)
Definition unit_declared (get_units : term -> list term) (g : graph)
    (x u : term) : Prop :=
  In (x, QUDT "applicableUnit", u) g
  \/ exists qudtquant,
       In (x, qudtquant) (quantities_with_reference g)
       /\ In u (get_units qudtquant).



(** The first pass over [res] (lines 957-960). *)
Definition units_from_qudt (get_units : term -> list term)
    (res : list (term * term)) : state -> state :=
  for_each res (fun r =>
    for_each (get_units (snd r)) (fun unit =>
      G_add (fst r, QUDT "applicableUnit", unit))).

(** The second pass over [res] (lines 961-965). *)
Definition units_from_narrower (res : list (term * term)) : state -> state :=
  for_each res (fun r st =>
    for_each (get_units_brick (G st) (fst r)) (fun row =>
      G_add (fst r, QUDT "applicableUnit", fst (fst row))) st).

(** [g] is [g1] and units that [g1] lets a concept inherit. *)
Definition inherited_over (g1 g : graph) : Prop :=
  (forall t, In t g1 -> In t g)
  /\ (forall t, In t g ->
        In t g1
        \/ exists q s u, t = (q, QUDT "applicableUnit", u)
             /\ path_plus g1 (SKOS "broader") s q
             /\ In (s, QUDT "applicableUnit", u) g1).

(* ------------------------------------------------------------------ *)
(** *** Further properties: what they speak of *)


(** Only the graph [G] changes, and only by additions. *)
Definition grows_G (st st' : state) : Prop :=
  incl (G st) (G st') /\ same_rules st st' /\ next_bnode st' = next_bnode st.

(** The key whose lookup [md[key]] fails first, if any. *)
Definition first_missing_key (md : deprecation) : option string :=
  match md_version md, md_mitigation_message md, md_replace_with md with
  | None, _, _ => Some "version"
  | Some _, None, _ => Some "mitigation_message"
  | Some _, Some _, None => Some "replace_with"
  | Some _, Some _, Some _ => None
  end.

(** [{"version": "1.2", "replace_with": BRICK.New_Thing}] *)
Definition unexplained_deprecation : deprecation :=
  mkDeprecation None None (Some (PyStr "1.2")) None (Some (BRICK "New_Thing")).



(* ================================================================== *)
(** ** The point classes are made disjoint (module level) *)

Definition pointclasses : list string :=
  ["Alarm"; "Status"; "Command"; "Setpoint"; "Sensor"; "Parameter"].

(** [for pc in classes: for o in filter(lambda x: x != pc, classes):
       G.add((BRICK[pc], OWL.disjointWith, BRICK[o]))] *)
Definition disjoint_classes (classes : list string) : state -> state :=
  for_each classes (fun pc =>
    for_each (filter (fun x => negb (String.eqb x pc)) classes) (fun o =>
      G_add (BRICK pc, OWL "disjointWith", BRICK o))).

(** Lines 870-874. *)
Definition make_points_disjoint : state -> state :=
  disjoint_classes pointclasses.






(** Every drawn blank node that has an [rdf:first] or an [rdf:rest] was
    drawn before: the node [BNode()] returns next starts no list cell. *)
Definition list_cells_drawn (st : state) : Prop :=
  forall n p o, In (BNode (Fresh n), p, o) (G st) ->
    p = RDF "first" \/ p = RDF "rest" -> n < next_bnode st.

(** A step that, on such a graph, keeps it such, removes nothing from [G]
    and does not take the counter back. *)
Definition keeps_lists (st st' : state) : Prop :=
  list_cells_drawn st ->
  list_cells_drawn st' /\ incl (G st) (G st')
  /\ next_bnode st <= next_bnode st'.







(** The statements of a pass-through pair are in the graph. *)
Definition pass_through_made (g : graph) (item : term) (kv : term * propval)
    : Prop :=
  match snd kv with
  | PVTerm v => In (item, fst kv, v) g
  | PVList vs => forall v, In v vs -> In (item, fst kv, v) g
  | PVDict => False
  end.





(** The statements of a pair that [add_relationships] is given are in the
    graph; a nested dictionary makes none. *)
Definition relationship_made (g : graph) (item : term) (kv : term * propval)
    : Prop :=
  match snd kv with
  | PVTerm v => In (item, fst kv, v) g
  | PVList vs => forall v, In v vs -> In (item, fst kv, v) g
  | PVDict => True
  end.



(** The definition has the three required annotations, so have the
    subproperties nested in it, and no remaining pair has a dictionary for
    its value. *)
Fixpoint entprop_complete (d : entprop_defn) : Prop :=
  match d with
  | EntPropDefn (Some _) (Some _) (Some _) subproperties others =>
      match subproperties with
      | Some ds => fold_right (fun nd acc => entprop_complete (snd nd) /\ acc)
                              True ds
      | None => True
      end
      /\ Forall (fun kv => snd kv <> PVDict) others
  | EntPropDefn _ _ _ _ _ => False
  end.

(** Every entity property of a definition, nested ones included, with the
    property it is defined under and its own definition. *)
Fixpoint entprop_links (entprop : term) (d : entprop_defn)
    (superprop : option term) : list (term * option term * entprop_defn) :=
  match d with
  | EntPropDefn _ _ _ subproperties _ =>
      (entprop, superprop, d)
        :: match subproperties with
           | Some ds =>
               flat_map (fun nd => entprop_links (fst nd) (snd nd) (Some entprop))
                        ds
           | None => []
           end
  end.

Definition entity_properties_under (definitions : list (term * entprop_defn))
    (superprop : option term) : list (term * option term * entprop_defn) :=
  flat_map (fun nd => entprop_links (fst nd) (snd nd) superprop) definitions.

Definition shapes_list (shapes : shapes_value) : list term :=
  match shapes with
  | ShapeOne shape => [shape]
  | ShapeList shapes => shapes
  end.

(** What the graph says of an entity property once it is defined. *)
Definition entity_property_declared (g : graph)
    (x : term * option term * entprop_defn) : Prop :=
  let entprop := fst (fst x) in
  let pshape := entity_property_shape entprop in
  match snd x with
  | EntPropDefn (Some shapes) (Some sh_node) (Some label) _ others =>
      In (entprop, A, BRICK "EntityProperty") g
      /\ (forall sp, snd (fst x) = Some sp ->
            In (entprop, RDFS "subPropertyOf", sp) g)
      /\ In (pshape, A, SH "PropertyShape") g
      /\ In (pshape, SH "path", entprop) g
      /\ In (pshape, SH "node", sh_node) g
      /\ In (pshape, RDFS "label",
             Literal_str ("has " ++ py_str label ++ " property")) g
      /\ (forall shape, In shape (shapes_list shapes) ->
            In (shape, SH "property", pshape) g)
      /\ In (entprop, RDFS "label", label) g
      /\ forall kv, In kv others -> pass_through_made g entprop kv
  | EntPropDefn _ _ _ _ _ => False
  end.

(** [{BRICK.area: {"property_of": [BRICK.Location, BRICK.Equipment],
       SH.node: BSH.AreaShape, RDFS.label: Literal("Area"),
       "subproperties": {BRICK.grossArea: {"property_of": BRICK.Location,
           SH.node: BSH.AreaShape, RDFS.label: Literal("Gross area")}},
       SKOS.definition: Literal("Entity has 2-dimensional area")}}] *)
Definition area_properties : list (term * entprop_defn) :=
  [(BRICK "area",
    EntPropDefn (Some (ShapeList [BRICK "Location"; BRICK "Equipment"]))
      (Some (BSH "AreaShape")) (Some (Literal_str "Area"))
      (Some [(BRICK "grossArea",
              EntPropDefn (Some (ShapeOne (BRICK "Location")))
                (Some (BSH "AreaShape")) (Some (Literal_str "Gross area"))
                None [])])
      [(SKOS "definition",
        PVTerm (Literal_str "Entity has 2-dimensional area"))])].

(* ================================================================== *)
(** ** add_definitions: the text of a Limit's definition

    The embedding covers the computation of [limit_def] from the name of
    the parameter (lines 676-706). *)

(** [s.split(sep)] for a separator of one character. *)
Fixpoint split_on (sep : ascii) (s : string) : list string :=
  match s with
  | EmptyString => [EmptyString]
  | String c rest =>
      if Ascii.eqb c sep then EmptyString :: split_on sep rest
      else match split_on sep rest with
           | [] => [String c EmptyString]
           | w :: ws => String c w :: ws
           end
  end.

(** [sep.join(words)] *)
Fixpoint join (sep : string) (words : list string) : string :=
  match words with
  | [] => EmptyString
  | [w] => w
  | w :: rest => w ++ sep ++ join sep rest
  end.

(** [words[0]] when it is ["Min"] or ["Max"], else [None]. *)
Definition limit_prefix (words : list string) : option string :=
  let prefix := hd EmptyString words in
  if String.eqb prefix "Min" then Some prefix
  else if String.eqb prefix "Max" then Some prefix
  else None.

Definition limit_direction (local : string) : string :=
  let prefix := hd EmptyString (split_on underscore_char local) in
  if String.eqb prefix "Min" then "a lower"
  else if String.eqb prefix "Max" then "an upper"
  else "a lower or upper".

Definition limit_setpoint (local : string) : string :=
  let words := split_on underscore_char local in
  let setpoint :=
    if existsb (String.eqb local) ["Max_Limit"; "Min_Limit"; "Limit"]
    then "Setpoint"
    else
      match limit_prefix words with
      | Some _ => join "_" (removelast (tl words))
      | None => join "_" (removelast words)
      end in
  if negb (String.eqb (last (split_on underscore_char setpoint) EmptyString)
                      "Setpoint")
  then setpoint ++ "_Setpoint"
  else setpoint.

(** [limit_def_template.format(direction=direction, setpoint=setpoint)] for
    the parameter [param]. *)
Definition limit_def (param : term) : string :=
  let local := split_hash_last (py_str param) in
  "A parameter that places " ++ limit_direction local
  ++ " bound on the range of permitted values of a " ++ limit_setpoint local
  ++ ".".

(** The setpoint a Limit's definition names for the words between the
    prefix and ["Limit"]: the words themselves when the last one is
    ["Setpoint"], else the words followed by ["Setpoint"]. *)
Definition named_setpoint (middle : string) : string :=
  if String.eqb (last (split_on underscore_char middle) EmptyString) "Setpoint"
  then middle
  else middle ++ "_Setpoint".

(** The string has no ["#"]. *)
Definition hash_free (s : string) : Prop :=
  forall c, In c (list_ascii_of_string s) -> c <> hash_char.

(** The requirement declares both a datatype and a non-empty list of
    values. *)
Definition datatype_and_values (d : prop_defn) : Prop :=
  match d with
  | PropDefn _ _ (Some _) (Some (_ :: _)) _ => True
  | PropDefn _ _ _ _ _ => False
  end.

(** What the graph says of the property shape [ps] that lowers the
    requirement [d] of [shape_name] on [prop_name]. *)
Definition property_shape_lowered (parse : string -> graph) (g : graph)
    (shape_name prop_name ps : term) (d : prop_defn) : Prop :=
  In (shape_name, SH "property", ps) g
  /\ In (ps, A, SH "PropertyShape") g
  /\ In (ps, SH "path", prop_name) g
  /\ match d with
     | PropDefn optional import_from datatype values _ =>
         (optional <> Some true -> In (ps, SH "minCount", Literal_nat 1) g)
         /\ (forall fname p o, import_from = Some fname ->
               In (prop_name, p, o) (parse fname) -> In (prop_name, p, o) g)
         /\ match datatype, values with
            | Some dtype, _ =>
                In (prop_name, A, OWL "DatatypeProperty") g
                /\ (if term_eqb dtype (BSH "NumericValue")
                    then In (ps, SH "or", BSH "NumericValue") g
                    else In (ps, SH "datatype", dtype) g)
            | None, Some vals =>
                In (ps, SH "minCount", Literal_nat 1) g
                /\ In (prop_name, A, OWL "ObjectProperty") g
                /\ exists enumeration,
                     In (ps, SH "in", enumeration) g
                     /\ rdf_collection g enumeration (map Literal_of vals)
            | None, None => In (prop_name, A, OWL "ObjectProperty") g
            end
     end.

(** [{"optional": True, "values": ["on", "off"]}] *)
Definition optional_enumeration : prop_defn :=
  PropDefn (Some true) None None (Some [PyStr "on"; PyStr "off"]) [].

(* ================================================================== *)
(** * Properties *)

(** ** Minimal class *)

(** C6. Compiling [{"Foo": {"tags": [T1]}}] under parent Entity returns
    normally and leaves in [G] the statements Foo subClassOf Entity, Foo
    hasAssociatedTag T1 and T1 type Tag; in [shaclGraph] the tag shape of Foo
    carries the rule that asserts type Foo, the rule's only condition is the
    detection condition of T1 (at least one hasTag value equal to T1), and the
    shape's only target is the shape for exactly 1 tag (hasTag with minCount
    and maxCount 1). *)
Theorem minimal_class_scenario :
  let r := define_classes Foo_definitions (BRICK "Entity") false initial_state in
  let g := G (snd r) in
  let sg := shaclGraph (snd r) in
  let Foo := BRICK "Foo" in
  let T1 := TAG "T1" in
  let rule := tag_inference_rule Foo in
  fst r = Returned
  /\ graph_mem (Foo, RDFS "subClassOf", BRICK "Entity") g = true
  /\ graph_mem (Foo, BRICK "hasAssociatedTag", T1) g = true
  /\ graph_mem (T1, A, BRICK "Tag") g = true
  /\ graph_objects sg (tag_shape Foo) (SH "rule") = [rule]
  /\ graph_objects sg rule (SH "predicate") = [RDF "type"]
  /\ graph_objects sg rule (SH "object") = [Foo]
  /\ graph_objects sg rule (SH "condition") = [tag_condition T1]
  /\ graph_objects sg (tag_condition T1) (SH "property") = [tag_property T1]
  /\ graph_objects sg (tag_property T1) (SH "path") = [BRICK "hasTag"]
  /\ graph_objects sg (tag_property T1) (SH "qualifiedMinCount") = [Literal_nat 1]
  /\ graph_objects sg (tag_property T1) (SH "qualifiedValueShape") = [BNode (Fresh 0)]
  /\ graph_objects sg (BNode (Fresh 0)) (SH "hasValue") = [T1]
  /\ graph_objects sg (tag_shape Foo) (SH "targetClass") = [n_tags_condition 1]
  /\ graph_objects sg (n_tags_condition 1) (SH "property") = [n_tags_property 1]
  /\ graph_objects sg (n_tags_property 1) (SH "path") = [BRICK "hasTag"]
  /\ graph_objects sg (n_tags_property 1) (SH "minCount") = [Literal_nat 1]
  /\ graph_objects sg (n_tags_property 1) (SH "maxCount") = [Literal_nat 1].
Proof. vm_compute. repeat split; reflexivity. Qed.

(** ** Required metadata of an entity property *)

Lemma for_each_proc_cons {X : Type} (body : X -> proc) (x : X) (xs : list X)
    (st : state) :
  for_each_proc body (x :: xs) st
  = match body x st with
    | (Returned, st') => for_each_proc body xs st'
    | (Raised e, st') => (Raised e, st')
    end.
Proof. reflexivity. Qed.

Lemma for_each_proc_app {X : Type} (body : X -> proc) (xs ys : list X)
    (st : state) :
  for_each_proc body (xs ++ ys)%list st
  = match for_each_proc body xs st with
    | (Returned, st') => for_each_proc body ys st'
    | (Raised e, st') => (Raised e, st')
    end.
Proof.
  revert st. induction xs as [|x xs IH]; intro st; simpl.
  - reflexivity.
  - unfold andthen. destruct (body x st) as [[|e] st']; [apply IH | reflexivity].
Qed.

(** C10. An entity-property definition that lacks ["property_of"], [SH.node]
    or [RDFS.label] makes the lowering raise an assertion error with the
    state exactly as it was when the definition was reached: no statement of
    that property is emitted.  A missing label alone is enough, and the run
    of [define_entity_properties] stops there. *)
Theorem entity_property_requires_label_too :
  forall (entprop : term) (defn : entprop_defn) (superprop : option term)
         (st : state),
    lacks_required_metadata defn ->
    (exists msg,
        define_entity_property entprop defn superprop st
        = (Raised (AssertionError msg), st))
    /\ (forall before after st0,
           for_each_proc (fun nd => define_entity_property (fst nd) (snd nd) superprop)
                         before st0 = (Returned, st) ->
           exists msg,
             define_entity_properties (before ++ (entprop, defn) :: after)%list
                                      superprop st0
             = (Raised (AssertionError msg), st))
    /\ (forall shapes node subproperties others,
           defn = EntPropDefn (Some shapes) (Some node) None subproperties others ->
           define_entity_property entprop defn superprop st
           = (Raised (AssertionError
                        (py_str entprop ++ " missing a RDFS.label annotation")), st)).
Proof.
  intros entprop defn superprop st Hlack.
  assert (Hone : exists msg,
             define_entity_property entprop defn superprop st
             = (Raised (AssertionError msg), st)).
  { destruct defn as [po node lbl subs others]. simpl in Hlack.
    destruct po as [shapes|]; [|eexists; reflexivity].
    destruct node as [node|]; [|eexists; reflexivity].
    destruct lbl as [lbl|]; [|eexists; reflexivity].
    destruct Hlack as [H|[H|H]]; discriminate. }
  split; [exact Hone|]. split.
  - intros before after st0 Hbefore.
    destruct Hone as [msg Hmsg]. exists msg.
    unfold define_entity_properties.
    rewrite for_each_proc_app, Hbefore, for_each_proc_cons. simpl.
    rewrite Hmsg. reflexivity.
  - intros shapes node subs others ->. reflexivity.
Qed.

Lemma entity_property_requires_label_too_witness :
  define_entity_property (BRICK "area") unlabelled_entity_property None initial_state
  = (Raised (AssertionError
       ("https://brickschema.org/schema/Brick#area" ++
        " missing a RDFS.label annotation")), initial_state).
Proof.
  apply (proj2 (proj2 (entity_property_requires_label_too
           (BRICK "area") unlabelled_entity_property None initial_state
           (or_intror (or_intror eq_refl))))
           (ShapeOne (BRICK "Equipment")) (BSH "AreaShape") None []).
  reflexivity.
Defined.

(* ------------------------------------------------------------------ *)
(** ** Terms and graphs *)

Lemma term_eqb_eq (x y : term) : term_eqb x y = true <-> x = y.
Proof. unfold term_eqb. destruct (term_eq_dec x y); split; congruence. Qed.

Lemma term_eqb_neq (x y : term) : term_eqb x y = false <-> x <> y.
Proof. unfold term_eqb. destruct (term_eq_dec x y); split; congruence. Qed.

Lemma term_eqb_refl (x : term) : term_eqb x x = true.
Proof. apply term_eqb_eq. reflexivity. Qed.

Lemma graph_mem_In (t : triple) (g : graph) : graph_mem t g = true <-> In t g.
Proof. unfold graph_mem. destruct (in_dec triple_eq_dec t g); split; congruence. Qed.


Lemma graph_add_In (t u : triple) (g : graph) :
  In t (graph_add u g) <-> u = t \/ In t g.
Proof.
  unfold graph_add. destruct (graph_mem u g) eqn:Hu.
  - apply graph_mem_In in Hu. split; [auto | intros [<-|H]; assumption].
  - simpl. tauto.
Qed.

Lemma graph_add_incl (u : triple) (g : graph) : incl g (graph_add u g).
Proof. intros t Ht. apply graph_add_In. auto. Qed.

Lemma graph_objects_In (g : graph) (s p o : term) :
  In o (graph_objects g s p) <-> In (s, p, o) g.
Proof.
  unfold graph_objects. rewrite in_map_iff. split.
  - intros [[[s' p'] o'] [Ho Hin]]. apply filter_In in Hin. simpl in *.
    destruct Hin as [Hin Hsp]. apply andb_true_iff in Hsp.
    destruct Hsp as [Hs Hp]. apply term_eqb_eq in Hs, Hp. subst. assumption.
  - intro Hin. exists (s, p, o). split; [reflexivity|].
    apply filter_In. split; [assumption|]. simpl. now rewrite !term_eqb_refl.
Qed.

Lemma graph_subjects_In (g : graph) (s p o : term) :
  In s (graph_subjects g p o) <-> In (s, p, o) g.
Proof.
  unfold graph_subjects. rewrite in_map_iff. split.
  - intros [[[s' p'] o'] [Ho Hin]]. apply filter_In in Hin. simpl in *.
    destruct Hin as [Hin Hsp]. apply andb_true_iff in Hsp.
    destruct Hsp as [Hs Hp]. apply term_eqb_eq in Hs, Hp. subst. assumption.
  - intro Hin. exists (s, p, o). split; [reflexivity|].
    apply filter_In. split; [assumption|]. simpl. now rewrite !term_eqb_refl.
Qed.

Lemma graph_has_sp_true (g : graph) (s p : term) :
  graph_has_sp g s p = true <-> exists o, In (s, p, o) g.
Proof.
  unfold graph_has_sp. rewrite existsb_exists. split.
  - intros [[[s' p'] o'] [Hin Hsp]]. simpl in Hsp. apply andb_true_iff in Hsp.
    destruct Hsp as [Hs Hp]. apply term_eqb_eq in Hs, Hp. subst. eauto.
  - intros [o Hin]. exists (s, p, o). split; [assumption|].
    simpl. now rewrite !term_eqb_refl.
Qed.

Lemma has_label_true (concept : term) (st : state) :
  has_label concept st = true <-> exists l, In (concept, RDFS "label", l) (G st).
Proof.
  unfold has_label. rewrite Nat.ltb_lt.
  destruct (graph_objects (G st) concept (RDFS "label")) as [|l ls] eqn:Hobj.
  - simpl. split; [lia|]. intros [l Hl]. apply graph_objects_In in Hl.
    rewrite Hobj in Hl. destruct Hl.
  - simpl. split; [|lia]. intros _. exists l. apply graph_objects_In.
    rewrite Hobj. left. reflexivity.
Qed.

(* ------------------------------------------------------------------ *)
(** ** Statement sequences *)

Lemma block_nil (st : state) : block [] st = st.
Proof. reflexivity. Qed.

Lemma block_cons (f : state -> state) (fs : list (state -> state)) (st : state) :
  block (f :: fs) st = block fs (f st).
Proof. reflexivity. Qed.

Lemma block_app (fs gs : list (state -> state)) (st : state) :
  block (fs ++ gs)%list st = block gs (block fs st).
Proof. unfold block. apply fold_left_app. Qed.

Lemma for_each_nil {X : Type} (body : X -> state -> state) (st : state) :
  for_each [] body st = st.
Proof. reflexivity. Qed.

Lemma for_each_cons {X : Type} (x : X) (xs : list X)
    (body : X -> state -> state) (st : state) :
  for_each (x :: xs) body st = for_each xs body (body x st).
Proof. reflexivity. Qed.

Lemma for_each_app {X : Type} (xs ys : list X) (body : X -> state -> state)
    (st : state) :
  for_each (xs ++ ys)%list body st = for_each ys body (for_each xs body st).
Proof. unfold for_each. apply fold_left_app. Qed.

(** Asserting a list of statements, one [G.add] each. *)
Lemma for_each_G_add_In {X : Type} (xs : list X) (mk : X -> triple)
    (st : state) (t : triple) :
  In t (G (for_each xs (fun x => G_add (mk x)) st))
  <-> In t (G st) \/ In t (map mk xs).
Proof.
  revert st. induction xs as [|x xs IH]; intro st.
  - simpl. tauto.
  - rewrite for_each_cons, IH. simpl. rewrite graph_add_In. intuition auto.
Qed.

Lemma for_each_G_add_frame {X : Type} (xs : list X) (mk : X -> triple)
    (st : state) :
  shaclGraph (for_each xs (fun x => G_add (mk x)) st) = shaclGraph st
  /\ shacl_tag_property_shapes (for_each xs (fun x => G_add (mk x)) st)
     = shacl_tag_property_shapes st
  /\ has_exactly_n_tags_shapes (for_each xs (fun x => G_add (mk x)) st)
     = has_exactly_n_tags_shapes st
  /\ next_bnode (for_each xs (fun x => G_add (mk x)) st) = next_bnode st.
Proof.
  revert st. induction xs as [|x xs IH]; intro st.
  - simpl. auto.
  - rewrite for_each_cons. destruct (IH (G_add (mk x) st)) as (H1 & H2 & H3 & H4).
    rewrite H1, H2, H3, H4. simpl. auto.
Qed.

(* ------------------------------------------------------------------ *)
(** ** The taxonomy closure step *)

(** C2. The two closure queries are evaluated and their answers dropped:
    the step returns the state it was given.  For the quantities
    [{"Power": {}, "Peak_Power": {"parents": [BRICK.Power]}}] the compiled
    graph has Peak_Power skos:broader Power with both ends typed under
    brick:Entity, the second query does construct Power skos:narrower
    Peak_Power, and the graph after the step (and after the unit passes)
    does not contain it. *)
Theorem skos_closure_drops_its_answers :
  (forall st : state, skos_closure st = st)
  /\ (forall get_units : term -> list term,
        let st := define_measurables get_units [] parents_quantities initial_state in
        let Power := BRICK "Power" in
        let Peak_Power := BRICK "Peak_Power" in
        graph_mem (Peak_Power, SKOS "broader", Power) (G st) = true
        /\ typed_under (G st) Power (BRICK "Entity") = true
        /\ typed_under (G st) Peak_Power (BRICK "Entity") = true
        /\ graph_mem (Power, SKOS "narrower", Peak_Power)
                     (construct_narrower (G st)) = true
        /\ graph_mem (Power, SKOS "narrower", Peak_Power) (G st) = false).
Proof.
  split.
  - intro st. reflexivity.
  - intro get_units. vm_compute. repeat split; reflexivity.
Qed.

(* ------------------------------------------------------------------ *)
(** ** Reuse of optional property shapes *)

(** C1. Lowering two shapes that each require the same optional,
    otherwise unconstrained property gives each shape a property shape of its
    own (the blank nodes drawn first and second), whatever the query engine
    does with rows that bind nothing; and the pattern of the reuse query only
    ever matches a node that is its own [sh:property]. *)
Theorem optional_property_shapes_are_not_shared :
  forall (unbound_rows_kept : bool) (parse : string -> graph),
    let r := lower_two_shapes unbound_rows_kept parse initial_state in
    fst r = Returned
    /\ graph_objects (G (snd r)) (BSH "AShape") (SH "property") = [BNode (Fresh 0)]
    /\ graph_objects (G (snd r)) (BSH "BShape") (SH "property") = [BNode (Fresh 1)]
    /\ graph_subjects (G (snd r)) (SH "path") (BRICK "value")
       = [BNode (Fresh 1); BNode (Fresh 0)]
    /\ (forall (g : graph) (prop_name : term),
           forallb (fun p => graph_mem (p, SH "property", p) g)
                   (prop_exists_solutions g prop_name) = true).
Proof.
  intros b parse. split; [|split; [|split; [|split]]].
  1-4: destruct b; vm_compute; reflexivity.
  intros g prop_name. apply forallb_forall. intros p Hp.
  unfold prop_exists_solutions in Hp. apply nodup_In, filter_In in Hp.
  destruct Hp as [_ Hp]. repeat (apply andb_true_iff in Hp; destruct Hp as [Hp _]).
  exact Hp.
Qed.

(* ------------------------------------------------------------------ *)
(** ** Deprecations *)

Lemma add_edges_In (s p : term) (v : edges_value) (st : state) (t : triple) :
  In t (G (add_edges s p v st))
  <-> In t (G st) \/ In t (map (fun c => (s, p, c)) (edges_terms v)).
Proof.
  destruct v as [|c|cs]; simpl.
  - tauto.
  - rewrite graph_add_In. tauto.
  - apply for_each_G_add_In.
Qed.

Lemma handle_deprecation_statements (deprecated_term : term) (md : deprecation)
    (version message : pyval) (successor : term) (st : state) :
  md_version md = Some version ->
  md_mitigation_message md = Some message ->
  md_replace_with md = Some successor ->
  fst (handle_deprecation deprecated_term md st) = Returned
  /\ forall t, In t (G (snd (handle_deprecation deprecated_term md st)))
               <-> In t (G st)
                   \/ In t (deprecation_statements deprecated_term md
                                                   version message successor).
Proof.
  intros Hv Hm Hr. unfold handle_deprecation, deprecation_statements,
    andthen, pure, lookup_or_raise.
  rewrite Hv, Hm, Hr. cbn [fst snd]. split; [reflexivity|]. intro t.
  cbn [G G_add]. rewrite !graph_add_In.
  rewrite !block_cons, block_nil.
  destruct (md_subClassOf md) as [v|]; [|destruct (md_narrower md) as [v|]];
    rewrite ?add_edges_In; cbn [G G_add]; rewrite ?graph_add_In;
    rewrite !in_app_iff; simpl.
  all: tauto.
Qed.




Lemma triple_eq_inv (s p o s' p' o' : term) :
  (s, p, o) = (s', p', o') -> s = s' /\ p = p' /\ o = o'.
Proof. intro H. inversion H. auto. Qed.

(** Two closed terms that differ, told apart by the decision procedure. *)
Ltac closed_neq :=
  match goal with
  | H : ?x = ?y :> term |- _ =>
      let E := fresh "E" in
      assert (E : term_eqb x y = false) by (vm_compute; reflexivity);
      apply term_eqb_neq in E; exfalso; exact (E H)
  end.



Lemma handle_deprecations_statements (deprecations : list (term * deprecation))
    (st : state) :
  Forall (fun kv => complete_deprecation (snd kv)) deprecations ->
  fst (handle_deprecations deprecations st) = Returned
  /\ forall t, In t (G (snd (handle_deprecations deprecations st)))
       <-> In t (G st)
           \/ exists dt md version message successor,
                In (dt, md) deprecations
                /\ md_version md = Some version
                /\ md_mitigation_message md = Some message
                /\ md_replace_with md = Some successor
                /\ In t (deprecation_statements dt md version message successor).
Proof.
  revert st. induction deprecations as [|[dt md] rest IH]; intros st Hall.
  - simpl. split; [reflexivity|]. intro t. split; [auto|].
    intros [H|(? & ? & ? & ? & ? & [] & _)]. exact H.
  - inversion Hall as [|? ? Hmd Hrest]; subst. simpl in Hmd.
    destruct Hmd as (Hv & Hm & Hr).
    destruct (md_version md) as [version|] eqn:Ev; [|congruence].
    destruct (md_mitigation_message md) as [message|] eqn:Em; [|congruence].
    destruct (md_replace_with md) as [successor|] eqn:Er; [|congruence].
    destruct (handle_deprecation_statements dt md version message successor st
                Ev Em Er) as [Hret Hin].
    unfold handle_deprecations in *. rewrite for_each_proc_cons. cbn [fst snd].
    destruct (handle_deprecation dt md st) as [o st'] eqn:Hstep.
    cbn [fst snd] in Hret, Hin. subst o.
    destruct (IH st' Hrest) as [Hret' Hin']. split; [exact Hret'|].
    intro t. rewrite Hin', Hin. split.
    + intros [[H|H]|(dt' & md' & v & m & s & Hd & H)].
      * auto.
      * right. exists dt, md, version, message, successor.
        repeat split; auto. now left.
      * right. exists dt', md', v, m, s. destruct H as (?&?&?&?).
        repeat split; auto. now right.
    + intros [H|(dt' & md' & v & m & s & [Hd|Hd] & Hv' & Hm' & Hr' & H)].
      * auto.
      * inversion Hd; subst dt' md'.
        assert (v = version) by congruence.
        assert (m = message) by congruence.
        assert (s = successor) by congruence. subst. auto.
      * right. exists dt', md', v, m, s. auto.
Qed.




(* ------------------------------------------------------------------ *)
(** ** Composing steps *)

Section StepsLemmas.
Variable R : state -> state -> Prop.
Hypothesis R_refl : forall st, R st st.
Hypothesis R_trans : forall a b c, R a b -> R b c -> R a c.

Lemma steps_id : steps R (fun st => st).
Proof. intro st. apply R_refl. Qed.

Lemma steps_block (fs : list (state -> state)) :
  Forall (steps R) fs -> steps R (block fs).
Proof.
  induction fs as [|f fs IH]; intros Hall st.
  - apply R_refl.
  - inversion Hall; subst. rewrite block_cons.
    eapply R_trans; [apply H1 | apply IH; assumption].
Qed.

Lemma steps_for_each {X : Type} (xs : list X) (body : X -> state -> state) :
  (forall x, In x xs -> steps R (body x)) -> steps R (for_each xs body).
Proof.
  induction xs as [|x xs IH]; intros Hall st.
  - apply R_refl.
  - rewrite for_each_cons. eapply R_trans.
    + apply Hall. now left.
    + apply IH. intros y Hy. apply Hall. now right.
Qed.


Lemma steps_if (b : state -> bool) (f g : state -> state) :
  steps R f -> steps R g -> steps R (fun st => if b st then f st else g st).
Proof. intros Hf Hg st. destruct (b st); [apply Hf | apply Hg]. Qed.

Lemma proc_steps_pure (f : state -> state) : steps R f -> proc_steps R (pure f).
Proof. intros Hf st. apply Hf. Qed.

Lemma proc_steps_raise (e : exn) : proc_steps R (raise e).
Proof. intro st. apply R_refl. Qed.

Lemma proc_steps_andthen (p q : proc) :
  proc_steps R p -> proc_steps R q -> proc_steps R (p ;; q).
Proof.
  intros Hp Hq st. unfold andthen. specialize (Hp st).
  destruct (p st) as [[|e] st']; simpl in *.
  - eapply R_trans; [exact Hp | apply Hq].
  - exact Hp.
Qed.

Lemma proc_steps_for_each_proc {X : Type} (body : X -> proc) (xs : list X) :
  (forall x, In x xs -> proc_steps R (body x)) ->
  proc_steps R (for_each_proc body xs).
Proof.
  induction xs as [|x xs IH]; intro Hall.
  - intro st. apply R_refl.
  - simpl. apply proc_steps_andthen.
    + apply Hall. now left.
    + apply IH. intros y Hy. apply Hall. now right.
Qed.

Lemma proc_steps_with_BNode_proc (body : term -> proc) :
  steps R drawn -> (forall node, proc_steps R (body node)) ->
  proc_steps R (with_BNode_proc body).
Proof.
  intros Hd Hb st. unfold with_BNode_proc.
  eapply R_trans; [apply Hd | apply Hb].
Qed.

End StepsLemmas.

(* ------------------------------------------------------------------ *)
(** ** Counting statements *)






(* ------------------------------------------------------------------ *)
(** ** The two caches of the tag inference engine *)



Lemma append_inj_l (a b c : string) : (a ++ b = a ++ c -> b = c)%string.
Proof. induction a as [|ch a IH]; simpl; intro H; [exact H|]. inversion H. auto. Qed.

Lemma string_length_append (a b : string) :
  String.length (a ++ b) = String.length a + String.length b.
Proof. induction a as [|ch a IH]; simpl; [reflexivity | now rewrite IH]. Qed.

Lemma append_inj_r (a b c : string) : (a ++ c = b ++ c -> a = b)%string.
Proof.
  intro H.
  assert (Hlen : String.length a = String.length b).
  { apply (f_equal String.length) in H. rewrite !string_length_append in H. lia. }
  revert b H Hlen. induction a as [|ch a IH]; intros [|ch' b] H Hlen;
    simpl in *; try discriminate; [reflexivity|].
  inversion H. f_equal. apply IH; [assumption | lia].
Qed.


Lemma rule_step_refl (st : state) : rule_step st st.
Proof.
  split; [auto|]. split; [apply incl_refl | split; auto].
Qed.

Lemma rule_step_trans (a b c : state) :
  rule_step a b -> rule_step b c -> rule_step a c.
Proof.
  intros [Hab (Iab & Tab & Nab)] [Hbc (Ibc & Tbc & Nbc)].
  split; [auto|]. split; [eapply incl_tran; eauto | split; auto].
Qed.

Lemma same_rules_refl (st : state) : same_rules st st.
Proof. repeat split. Qed.

Lemma same_rules_trans (a b c : state) :
  same_rules a b -> same_rules b c -> same_rules a c.
Proof.
  intros (H1 & H2 & H3) (H4 & H5 & H6). repeat split; congruence.
Qed.

Lemma same_rules_rule_step (st st' : state) :
  same_rules st st' -> rule_step st st'.
Proof.
  intros (Hs & Ht & Hn). split.
  - intros [Htag Hcard]. split.
    + intro tag. specialize (Htag tag). now rewrite Hs, Ht.
    + intro n. specialize (Hcard n). now rewrite Hs, Hn.
  - unfold rules_extend. rewrite Hs, Ht, Hn.
    split; [apply incl_refl | split; auto].
Qed.



Lemma G_add_same_rules (t : triple) : steps same_rules (G_add t).
Proof. intro st. repeat split. Qed.

















Lemma G_add_rule_step (t : triple) : steps rule_step (G_add t).
Proof. intro st. apply same_rules_rule_step. apply G_add_same_rules. Qed.






Lemma G_adds_block_rule_step (ts : list triple) :
  steps rule_step (block (map G_add ts)).
Proof.
  apply (steps_block rule_step rule_step_refl rule_step_trans).
  apply Forall_forall. intros f Hf. apply in_map_iff in Hf.
  destruct Hf as [t [<- _]]. apply G_add_rule_step.
Qed.





(* ------------------------------------------------------------------ *)
(** ** Code that only touches [G] and the blank-node counter *)

Lemma class_defn_nested_ind (P : class_defn -> Prop) :
  (forall tags subclasses parents constraints others,
      Forall (fun nd => P (snd nd)) subclasses ->
      P (ClassDefn tags subclasses parents constraints others)) ->
  forall d, P d.
Proof.
  intro H. fix IH 1. intros [tags subclasses parents constraints others].
  apply H. induction subclasses as [|nd subclasses IHs].
  - constructor.
  - constructor; [apply IH | exact IHs].
Qed.

Section GOnly.
Variable R : state -> state -> Prop.
Hypothesis R_refl : forall st, R st st.
Hypothesis R_trans : forall a b c, R a b -> R b c -> R a c.
Hypothesis R_G_add : forall t, steps R (G_add t).
Hypothesis R_drawn : steps R drawn.
Hypothesis R_remove_rest : forall s, steps R (G_remove_sp s (RDF "rest")).




Lemma add_relationships_steps (item : term) (propdefs : list (term * propval)) :
  steps R (add_relationships item propdefs).
Proof.
  apply (steps_for_each R R_refl R_trans). intros [k v] _.
  destruct v as [t|ts|]; cbn [snd fst].
  - apply R_G_add.
  - apply (steps_for_each R R_refl R_trans). intros pv _. apply R_G_add.
  - apply (steps_id R R_refl).
Qed.

Lemma copy_property_steps (item : term) (kv : term * propval) :
  proc_steps R (copy_property item kv).
Proof.
  destruct kv as [k v]. unfold copy_property.
  destruct v as [t|ts|]; cbn [snd fst].
  - apply proc_steps_pure. apply R_G_add.
  - apply proc_steps_pure.
    apply (steps_for_each R R_refl R_trans). intros pv _. apply R_G_add.
  - apply (proc_steps_raise R R_refl).
Qed.



End GOnly.

(* ------------------------------------------------------------------ *)
(** ** define_classes and the rule graph *)

Lemma define_class_eq (name : string) (taglist : list term)
    (subclassdef : list (string * class_defn)) (parents : list term)
    (constraints : list (term * allowed)) (others : list (term * propval))
    (parent : term) (pun_classes : bool) :
  define_class name (ClassDefn taglist subclassdef parents constraints others)
               parent pun_classes
  = (pure (block
        [ G_add (BRICK name, A, OWL "Class");
          G_add (BRICK name, RDFS "subClassOf", parent);
          (fun st =>
             if negb (has_label (BRICK name) st)
             then G_add (BRICK name, RDFS "label",
                         Literal_str (replace_underscores
                                        (split_hash_last (py_str (BRICK name))))) st
             else st);
          (fun st => if pun_classes
                     then G_add (BRICK name, A, BRICK name) st else st);
          add_tags (BRICK name) taglist ]) ;;
     for_each_proc (fun nd => define_class (fst nd) (snd nd) (BRICK name) false)
                   subclassdef ;;
     pure (for_each parents (fun _parent =>
             G_add (BRICK name, RDFS "subClassOf", _parent))) ;;
     define_constraints constraints (BRICK name) ;;
     for_each_proc (copy_property (BRICK name)) others).
Proof. reflexivity. Qed.








Lemma andthen_returned (p q : proc) (st : state) :
  fst ((p ;; q) st) = Returned ->
  fst (p st) = Returned
  /\ fst (q (snd (p st))) = Returned
  /\ snd ((p ;; q) st) = snd (q (snd (p st))).
Proof.
  unfold andthen. destruct (p st) as [[|e] st']; cbn [fst snd].
  - auto.
  - discriminate.
Qed.

Lemma andthen_snd_returned (p q : proc) (st : state) :
  fst (p st) = Returned -> (p ;; q) st = q (snd (p st)).
Proof.
  unfold andthen. destruct (p st) as [[|e] st']; cbn [fst snd]; congruence.
Qed.

Lemma for_each_proc_post {X : Type} (body : X -> proc) (xs : list X)
    (I : state -> Prop) (Q : X -> state -> Prop) :
  (forall x st, I st -> I (snd (body x st))) ->
  (forall x st, In x xs -> I st -> fst (body x st) = Returned ->
                Q x (snd (body x st))) ->
  (forall x y st, I st -> Q x st -> Q x (snd (body y st))) ->
  forall st, I st -> fst (for_each_proc body xs st) = Returned ->
    forall x, In x xs -> Q x (snd (for_each_proc body xs st)).
Proof.
  intros HI HQ Hstable.
  assert (Hkeep : forall ys x st, I st -> Q x st ->
                    Q x (snd (for_each_proc body ys st))).
  { induction ys as [|y ys IH]; intros x st Hi Hq; [exact Hq|].
    rewrite for_each_proc_cons.
    pose proof (HI y st Hi) as Hi'. pose proof (Hstable x y st Hi Hq) as Hq'.
    destruct (body y st) as [[|e] st']; cbn [snd] in *; auto. }
  induction xs as [|x xs IH]; intros st Hi Hret y Hy; [destruct Hy|].
  rewrite for_each_proc_cons in *.
  pose proof (HI x st Hi) as Hi'.
  pose proof (HQ x st (or_introl eq_refl) Hi) as Hq.
  destruct (body x st) as [[|e] st'] eqn:Hb; cbn [fst snd] in *;
    [|discriminate].
  destruct Hy as [<-|Hy].
  - apply Hkeep; auto.
  - apply IH; auto. intros z s Hz. apply HQ. now right.
Qed.









(* ------------------------------------------------------------------ *)
(** ** Relationship shapes *)

Lemma rdf_list_incl (g g' : graph) (node : term) (items : list term) :
  incl g g' -> rdf_list g node items -> rdf_list g' node items.
Proof.
  intros Hincl H. induction H as [|node item next items Hf Hr _ IH].
  - constructor.
  - econstructor; eauto.
Qed.

Lemma class_fragments_spec (classes : list term) (st : state) :
  fst (class_fragments classes st)
  = drawn_nodes (next_bnode st) (List.length classes)
  /\ next_bnode (snd (class_fragments classes st))
     = next_bnode st + List.length classes
  /\ forall t, In t (G (snd (class_fragments classes st)))
       <-> In t (G st)
           \/ In t (map (fun nc => (fst nc, SH "class", snd nc))
                        (combine (drawn_nodes (next_bnode st) (List.length classes))
                                 classes)).
Proof.
  revert st. induction classes as [|cls rest IH]; intro st.
  - cbn. split; [reflexivity|]. split; [lia|]. intro t. tauto.
  - cbn [class_fragments List.length].
    specialize (IH (G_add (fresh_BNode st, SH "class", cls) (drawn st))).
    destruct (class_fragments rest
                (G_add (fresh_BNode st, SH "class", cls) (drawn st)))
      as [nodes st'].
    cbn [fst snd] in *. destruct IH as (Hn & Hc & Hin).
    cbn [G_add drawn next_bnode G] in Hn, Hc, Hin.
    unfold drawn_nodes in *. cbn [seq map combine].
    split; [rewrite Hn; reflexivity|]. split; [lia|].
    intro t. rewrite Hin, graph_add_In. cbn [In fst snd]. unfold fresh_BNode.
    tauto.
Qed.

(** What [Collection_extend] adds: statements with predicate [rdf:first]
    or [rdf:rest], nothing removed, and the cells of the items. *)
Lemma Collection_extend_spec (items : list term) :
  forall (end_ : term) (st : state),
    let st' := Collection_extend items end_ st in
    incl (G st) (G st')
    /\ (forall s p o, In (s, p, o) (G st') ->
          In (s, p, o) (G st) \/ p = RDF "first" \/ p = RDF "rest")
    /\ (graph_has_sp (G st) end_ (RDF "first") = false ->
        rdf_collection (G st') end_ items)
    /\ (graph_has_sp (G st) end_ (RDF "first") = true ->
        match items with
        | [] => In (end_, RDF "rest", RDF "nil") (G st')
        | _ => exists next, In (end_, RDF "rest", next) (G st')
                            /\ rdf_list (G st') next items
        end).
Proof.
  induction items as [|item rest IH]; intros end_ st st'.
  - unfold st'. cbn [Collection_extend G_add G rdf_collection].
    split; [apply graph_add_incl|]. split.
    + intros s p o H. apply graph_add_In in H. destruct H as [H|H]; [|auto].
      apply triple_eq_inv in H. destruct H as (_ & <- & _). auto.
    + split; intros _; apply graph_add_In; now left.
  - unfold st'. cbn [Collection_extend]. unfold Collection_item.
    destruct (graph_has_sp (G st) end_ (RDF "first")) eqn:Hfirst.
    + unfold with_BNode. rewrite !block_cons, block_nil.
      set (nxt := fresh_BNode st).
      set (st2 := G_add (nxt, RDF "first", item)
                        (G_add (end_, RDF "rest", nxt) (drawn st))).
      destruct (IH nxt st2) as (Hincl & Hup & _ & Hchain).
      assert (H2 : forall t, In t (G st2) <->
                     (nxt, RDF "first", item) = t
                     \/ (end_, RDF "rest", nxt) = t \/ In t (G st)).
      { intro t. unfold st2. cbn [G_add G drawn]. rewrite !graph_add_In. tauto. }
      assert (Hnf : graph_has_sp (G st2) nxt (RDF "first") = true).
      { apply graph_has_sp_true. exists item. apply H2. now left. }
      specialize (Hchain Hnf).
      split; [|split; [|split]].
      * intros t Ht. apply Hincl, H2. auto.
      * intros s p o H. apply Hup in H. destruct H as [H|H]; [|auto].
        apply H2 in H. destruct H as [H|[H|H]]; [| |auto];
          apply triple_eq_inv in H; destruct H as (_ & <- & _); auto.
      * discriminate.
      * intros _. exists nxt. split; [apply Hincl, H2; auto|].
        destruct rest as [|item' rest'].
        -- econstructor; [apply Hincl, H2; now left | exact Hchain | constructor].
        -- destruct Hchain as [next [Hr Hl]].
           econstructor; [apply Hincl, H2; now left | exact Hr | exact Hl].
    + rewrite !block_cons, block_nil.
      set (st1 := G_add (end_, RDF "first", item) st).
      destruct (IH end_ st1) as (Hincl & Hup & _ & Hchain).
      assert (H1 : forall t, In t (G st1) <->
                     (end_, RDF "first", item) = t \/ In t (G st)).
      { intro t. unfold st1. cbn [G_add G]. rewrite graph_add_In. tauto. }
      assert (Hnf : graph_has_sp (G st1) end_ (RDF "first") = true).
      { apply graph_has_sp_true. exists item. apply H1. now left. }
      specialize (Hchain Hnf).
      split; [|split; [|split]].
      * intros t Ht. apply Hincl, H1. auto.
      * intros s p o H. apply Hup in H. destruct H as [H|H]; [|auto].
        apply H1 in H. destruct H as [H|H]; [|auto].
        apply triple_eq_inv in H. destruct H as (_ & <- & _). auto.
      * intros _. cbn [rdf_collection].
        destruct rest as [|item' rest'].
        -- econstructor; [apply Hincl, H1; now left | exact Hchain | constructor].
        -- destruct Hchain as [next [Hr Hl]].
           econstructor; [apply Hincl, H1; now left | exact Hr | exact Hl].
      * discriminate.
Qed.

Lemma graph_remove_sp_absent (s p : term) (g : graph) :
  (forall o, ~ In (s, p, o) g) -> graph_remove_sp s p g = g.
Proof.
  intro Habs. unfold graph_remove_sp. induction g as [|[[s' p'] o'] g IH].
  - reflexivity.
  - cbn [filter fst snd].
    destruct (term_eqb s' s && term_eqb p' p) eqn:Heq.
    + apply andb_true_iff in Heq. destruct Heq as [Hs Hp].
      apply term_eqb_eq in Hs, Hp. subst. exfalso. apply (Habs o'). now left.
    + cbn [negb]. rewrite IH; [reflexivity|].
      intros o Ho. apply (Habs o). now right.
Qed.




Lemma Collection_extend_subjects (items : list term) :
  forall (end_ : term) (st : state),
    let st' := Collection_extend items end_ st in
    next_bnode st <= next_bnode st'
    /\ forall s p o, In (s, p, o) (G st') ->
         In (s, p, o) (G st) \/ s = end_
         \/ exists n, s = BNode (Fresh n) /\ next_bnode st <= n < next_bnode st'.
Proof.
  induction items as [|item rest IH]; intros end_ st st'.
  - unfold st'. cbn [Collection_extend G_add G next_bnode]. split; [lia|].
    intros s p o H. apply graph_add_In in H. destruct H as [H|H]; [|auto].
    apply triple_eq_inv in H. destruct H as (<- & _). auto.
  - unfold st'. cbn [Collection_extend]. unfold Collection_item.
    destruct (graph_has_sp (G st) end_ (RDF "first")).
    + unfold with_BNode. rewrite !block_cons, block_nil.
      set (nxt := fresh_BNode st).
      set (st2 := G_add (nxt, RDF "first", item)
                        (G_add (end_, RDF "rest", nxt) (drawn st))).
      destruct (IH nxt st2) as (Hle & Hsub).
      change (next_bnode st2) with (S (next_bnode st)) in Hle, Hsub.
      split; [lia|]. intros s p o H. apply Hsub in H.
      destruct H as [H|[H|[n [-> Hn]]]].
      * unfold st2 in H. cbn [G_add G drawn] in H. rewrite !graph_add_In in H.
        destruct H as [H|[H|H]]; [| |auto];
          apply triple_eq_inv in H; destruct H as (<- & _); [|auto].
        right. right. exists (next_bnode st). split; [reflexivity | lia].
      * subst s. right. right. exists (next_bnode st).
        split; [reflexivity | lia].
      * right. right. exists n. split; [reflexivity | lia].
    + rewrite !block_cons, block_nil.
      set (st1 := G_add (end_, RDF "first", item) st).
      destruct (IH end_ st1) as (Hle & Hsub).
      change (next_bnode st1) with (next_bnode st) in Hle, Hsub.
      split; [lia|]. intros s p o H. apply Hsub in H.
      destruct H as [H|[H|H]]; [|auto|auto].
      unfold st1 in H. cbn [G_add G] in H. rewrite graph_add_In in H.
      destruct H as [H|H]; [|auto].
      apply triple_eq_inv in H. destruct H as (<- & _). auto.
Qed.























(* ------------------------------------------------------------------ *)
(** ** Labels *)

Lemma same_labels_refl (g : graph) : same_labels g g.
Proof. intros s l. tauto. Qed.

Lemma same_labels_sym (g g' : graph) : same_labels g g' -> same_labels g' g.
Proof. intros H s l. symmetry. apply H. Qed.

Lemma same_labels_trans (a b c : graph) :
  same_labels a b -> same_labels b c -> same_labels a c.
Proof. intros H1 H2 s l. rewrite (H1 s l). apply H2. Qed.

Lemma graph_has_label_true (g : graph) (c : term) :
  graph_has_label g c = true <-> exists l, In (c, RDFS "label", l) g.
Proof.
  unfold graph_has_label. rewrite Nat.ltb_lt.
  destruct (graph_objects g c (RDFS "label")) as [|l ls] eqn:Hobj.
  - cbn [List.length]. split; [lia|]. intros [l Hl].
    apply graph_objects_In in Hl. rewrite Hobj in Hl. destruct Hl.
  - cbn [List.length]. split; [|lia]. intros _. exists l.
    apply graph_objects_In. rewrite Hobj. now left.
Qed.

Lemma graph_has_label_same (g g' : graph) (c : term) :
  same_labels g g' -> graph_has_label g c = graph_has_label g' c.
Proof.
  intro H.
  destruct (graph_has_label g c) eqn:E1, (graph_has_label g' c) eqn:E2;
    try reflexivity.
  - apply graph_has_label_true in E1. destruct E1 as [l Hl]. apply H in Hl.
    assert (graph_has_label g' c = true)
      by (apply graph_has_label_true; eauto). congruence.
  - apply graph_has_label_true in E2. destruct E2 as [l Hl]. apply H in Hl.
    assert (graph_has_label g c = true)
      by (apply graph_has_label_true; eauto). congruence.
Qed.

Lemma apply_label_event_same (e : label_event) (g g' : graph) :
  same_labels g g' ->
  same_labels (apply_label_event e g) (apply_label_event e g').
Proof.
  intros H. destruct e as [c|s0 l0]; cbn [apply_label_event].
  - rewrite (graph_has_label_same g g' c H).
    destruct (negb (graph_has_label g' c)); [|exact H].
    intros s l. rewrite !graph_add_In, (H s l). tauto.
  - intros s l. rewrite !graph_add_In, (H s l). tauto.
Qed.

Lemma apply_label_events_same (es : list label_event) (g g' : graph) :
  same_labels g g' ->
  same_labels (apply_label_events es g) (apply_label_events es g').
Proof.
  revert g g'. induction es as [|e es IH]; intros g g' H; [exact H|].
  cbn [apply_label_events fold_left]. apply IH. now apply apply_label_event_same.
Qed.

Lemma apply_label_events_app (es es' : list label_event) (g : graph) :
  apply_label_events (es ++ es')%list g
  = apply_label_events es' (apply_label_events es g).
Proof. unfold apply_label_events. apply fold_left_app. Qed.

Lemma apply_label_event_incl (e : label_event) (g : graph) :
  incl g (apply_label_event e g).
Proof.
  destruct e as [c|s l]; cbn [apply_label_event].
  - destruct (negb (graph_has_label g c)); [apply graph_add_incl | apply incl_refl].
  - apply graph_add_incl.
Qed.

Lemma apply_label_events_incl (es : list label_event) (g : graph) :
  incl g (apply_label_events es g).
Proof.
  revert g. induction es as [|e es IH]; intro g; [apply incl_refl|].
  cbn [apply_label_events fold_left].
  eapply incl_tran; [apply apply_label_event_incl | apply IH].
Qed.

Lemma label_event_settled_incl (g g' : graph) (e : label_event) :
  incl g g' -> label_event_settled g e -> label_event_settled g' e.
Proof.
  intros Hincl. destruct e as [c|s l]; cbn [label_event_settled].
  - rewrite !graph_has_label_true. intros [l Hl]. eauto.
  - apply Hincl.
Qed.

Lemma label_event_settled_same (g g' : graph) (e : label_event) :
  same_labels g g' -> label_event_settled g e -> label_event_settled g' e.
Proof.
  intros H. destruct e as [c|s l]; cbn [label_event_settled].
  - now rewrite (graph_has_label_same g g' c H).
  - apply H.
Qed.

Lemma apply_label_event_settles (e : label_event) (g : graph) :
  label_event_settled (apply_label_event e g) e.
Proof.
  destruct e as [c|s l]; cbn [apply_label_event label_event_settled].
  - destruct (graph_has_label g c) eqn:E; cbn [negb]; [exact E|].
    apply graph_has_label_true. eexists. apply graph_add_In. now left.
  - apply graph_add_In. now left.
Qed.

(** After the writes every one of them is settled... *)
Lemma apply_label_events_settle (es : list label_event) (g : graph) :
  Forall (label_event_settled (apply_label_events es g)) es.
Proof.
  revert g. induction es as [|e es IH]; intro g; constructor.
  - cbn [apply_label_events fold_left].
    eapply label_event_settled_incl;
      [apply apply_label_events_incl | apply apply_label_event_settles].
  - apply IH.
Qed.

(** ... and settled writes change nothing. *)
Lemma apply_label_events_settled (es : list label_event) (g : graph) :
  Forall (label_event_settled g) es -> apply_label_events es g = g.
Proof.
  induction es as [|e es IH]; intro H; [reflexivity|].
  inversion H as [|? ? He Hes]; subst. cbn [apply_label_events fold_left].
  assert (Hstep : apply_label_event e g = g).
  { destruct e as [c|s l]; cbn [apply_label_event label_event_settled] in *.
    - now rewrite He.
    - unfold graph_add. apply graph_mem_In in He. now rewrite He. }
  rewrite Hstep. now apply IH.
Qed.

(** The labels of a subject that no write names outright. *)
Lemma apply_label_events_of_class (es : list label_event) (g : graph)
    (c l : term) :
  (forall l', ~ In (LabelAdd c l') es) ->
  In (c, RDFS "label", l) (apply_label_events es g)
  <-> In (c, RDFS "label", l) g
      \/ (graph_has_label g c = false /\ In (LabelIfAbsent c) es
          /\ l = class_label c).
Proof.
  revert g. induction es as [|e es IH]; intros g Hclean.
  - cbn. split; [auto | intros [H|(_ & [] & _)]; exact H].
  - cbn [apply_label_events fold_left].
    fold (apply_label_events es (apply_label_event e g)).
    rewrite IH by (intros l' H; apply (Hclean l'); now right).
    destruct e as [c0|s0 l0]; cbn [apply_label_event].
    + destruct (graph_has_label g c0) eqn:E0; cbn [negb].
      * split.
        -- intros [H|(Hno & Hin & ->)]; [auto|]. right. repeat split; auto.
           now right.
        -- intros [H|(Hno & [Heq|Hin] & ->)]; [auto| |right; auto].
           inversion Heq; subst. congruence.
      * rewrite graph_add_In. split.
        -- intros [[H|H]|(Hno & Hin & ->)].
           ++ apply triple_eq_inv in H. destruct H as (-> & _ & <-).
              right. repeat split; auto. now left.
           ++ auto.
           ++ destruct (graph_has_label g c) eqn:Ec.
              ** apply graph_has_label_true in Ec. destruct Ec as [l1 Hl1].
                 assert (graph_has_label
                           (graph_add (c0, RDFS "label", class_label c0) g) c
                         = true).
                 { apply graph_has_label_true. exists l1.
                   apply graph_add_In. now right. }
                 congruence.
              ** right. repeat split; auto. now right.
        -- intros [H|(Hno & [Heq|Hin] & ->)]; [auto| |].
           ++ inversion Heq; subst. left. now left.
           ++ destruct (term_eq_dec c0 c) as [->|Hne].
              ** left. now left.
              ** right. repeat split; auto.
                 destruct (graph_has_label
                             (graph_add (c0, RDFS "label", class_label c0) g) c)
                   eqn:Ec; [|reflexivity].
                 apply graph_has_label_true in Ec. destruct Ec as [l1 Hl1].
                 apply graph_add_In in Hl1. destruct Hl1 as [H|H].
                 --- apply triple_eq_inv in H. destruct H as (H & _). congruence.
                 --- assert (graph_has_label g c = true)
                       by (apply graph_has_label_true; eauto). congruence.
    + assert (Hne : s0 <> c).
      { intros ->. apply (Hclean l0). now left. }
      assert (Hsame : graph_has_label (graph_add (s0, RDFS "label", l0) g) c
                      = graph_has_label g c).
      { destruct (graph_has_label g c) eqn:Ec.
        - apply graph_has_label_true in Ec. destruct Ec as [l1 Hl1].
          apply graph_has_label_true. exists l1. apply graph_add_In. now right.
        - destruct (graph_has_label (graph_add (s0, RDFS "label", l0) g) c)
            eqn:Ec'; [|reflexivity].
          apply graph_has_label_true in Ec'. destruct Ec' as [l1 Hl1].
          apply graph_add_In in Hl1. destruct Hl1 as [H|H].
          + apply triple_eq_inv in H. destruct H as (H & _). congruence.
          + assert (graph_has_label g c = true)
              by (apply graph_has_label_true; eauto). congruence. }
      rewrite Hsame, graph_add_In. split.
      * intros [[H|H]|(Hno & Hin & ->)].
        -- apply triple_eq_inv in H. destruct H as (H & _). congruence.
        -- auto.
        -- right. repeat split; auto. now right.
      * intros [H|(Hno & [Heq|Hin] & ->)]; [auto| |right; auto].
        discriminate Heq.
Qed.

Lemma performs_id : performs (fun st => st) [].
Proof. intros st g H. exact H. Qed.

Lemma performs_neutral (f : state -> state) :
  (forall st, same_labels (G st) (G (f st))) -> performs f [].
Proof.
  intros Hf st g H. cbn. eapply same_labels_trans; [exact H | apply Hf].
Qed.

Lemma performs_same_G (f : state -> state) :
  (forall st, G (f st) = G st) -> performs f [].
Proof.
  intro Hf. apply performs_neutral. intro st. rewrite Hf. apply same_labels_refl.
Qed.

Lemma performs_compose (f g : state -> state) (es es' : list label_event) :
  performs f es -> performs g es' ->
  performs (fun st => g (f st)) (es ++ es')%list.
Proof.
  intros Hf Hg st gr H. rewrite apply_label_events_app.
  apply Hg. now apply Hf.
Qed.

Lemma performs_block_cons (f : state -> state) (fs : list (state -> state))
    (es es' : list label_event) :
  performs f es -> performs (block fs) es' ->
  performs (block (f :: fs)) (es ++ es')%list.
Proof.
  intros Hf Hfs st g H. rewrite block_cons, apply_label_events_app.
  apply Hfs. now apply Hf.
Qed.

Lemma performs_block_nil : performs (block []) [].
Proof. apply performs_id. Qed.

Lemma performs_block_neutral (f : state -> state) (fs : list (state -> state))
    (es : list label_event) :
  performs f [] -> performs (block fs) es -> performs (block (f :: fs)) es.
Proof. intros Hf Hfs. now apply (performs_block_cons f fs [] es). Qed.

Lemma performs_for_each {X : Type} (xs : list X) (body : X -> state -> state)
    (ev : X -> list label_event) :
  (forall x, performs (body x) (ev x)) ->
  performs (for_each xs body) (flat_map ev xs).
Proof.
  intro Hall. induction xs as [|x xs IH].
  - apply performs_id.
  - intros st g H. rewrite for_each_cons. cbn [flat_map].
    rewrite apply_label_events_app. apply IH. now apply Hall.
Qed.

Lemma performs_for_each_neutral {X : Type} (xs : list X)
    (body : X -> state -> state) :
  (forall x, performs (body x) []) -> performs (for_each xs body) [].
Proof.
  intro Hall. induction xs as [|x xs IH].
  - apply performs_id.
  - intros st g H. rewrite for_each_cons. apply IH. now apply Hall.
Qed.

Lemma performs_G_add_other (s p o : term) :
  p <> RDFS "label" -> performs (G_add (s, p, o)) [].
Proof.
  intro Hp. apply performs_neutral. intros st s' l. cbn [G_add G].
  rewrite graph_add_In. split; [auto|]. intros [H|H]; [|exact H].
  apply triple_eq_inv in H. destruct H as (_ & H & _). contradiction.
Qed.

Lemma performs_G_add_label (s l : term) :
  performs (G_add (s, RDFS "label", l)) [LabelAdd s l].
Proof.
  intros st g H s' l'. cbn. rewrite !graph_add_In, (H s' l'). tauto.
Qed.

Lemma performs_label_if_absent (c : term) :
  performs (fun st => if negb (has_label c st)
                      then G_add (c, RDFS "label", class_label c) st
                      else st)
           [LabelIfAbsent c].
Proof.
  intros st g H. cbn [apply_label_events fold_left apply_label_event].
  change (has_label c st) with (graph_has_label (G st) c).
  rewrite (graph_has_label_same g (G st) c H).
  destruct (negb (graph_has_label (G st) c)); [|exact H].
  intros s l. cbn [G_add G]. rewrite !graph_add_In, (H s l). tauto.
Qed.

Lemma traces_pure (f : state -> state) (es : list label_event) :
  performs f es -> traces (pure f) es.
Proof.
  intros Hf st g H. exists es, []. rewrite app_nil_r.
  split; [reflexivity|]. split; [reflexivity|]. now apply Hf.
Qed.

Lemma traces_raise (e : exn) (es : list label_event) : traces (raise e) es.
Proof.
  intros st g H. exists [], es. split; [reflexivity|].
  split; [discriminate | exact H].
Qed.

Lemma traces_neutral (p : proc) :
  (forall st, same_labels (G st) (G (snd (p st)))) -> traces p [].
Proof.
  intros Hp st g H. exists [], []. split; [reflexivity|].
  split; [reflexivity|]. cbn. eapply same_labels_trans; [exact H | apply Hp].
Qed.

Lemma traces_andthen (p q : proc) (es es' : list label_event) :
  traces p es -> traces q es' -> traces (p ;; q) (es ++ es')%list.
Proof.
  intros Hp Hq st g H. destruct (Hp st g H) as (d1 & r1 & -> & Hr1 & H1).
  unfold andthen. destruct (p st) as [[|e] st1]; cbn [fst snd] in *.
  - rewrite (Hr1 eq_refl), app_nil_r in *.
    destruct (Hq st1 _ H1) as (d2 & r2 & -> & Hr2 & H2).
    exists (d1 ++ d2)%list, r2. split; [now rewrite app_assoc|].
    split; [exact Hr2|]. now rewrite apply_label_events_app.
  - exists d1, (r1 ++ es')%list. split; [now rewrite app_assoc|].
    split; [discriminate | exact H1].
Qed.

Lemma traces_for_each_proc {X : Type} (body : X -> proc) (xs : list X)
    (ev : X -> list label_event) :
  (forall x, In x xs -> traces (body x) (ev x)) ->
  traces (for_each_proc body xs) (flat_map ev xs).
Proof.
  induction xs as [|x xs IH]; intro Hall.
  - apply traces_pure, performs_id.
  - cbn [for_each_proc flat_map]. apply traces_andthen.
    + apply Hall. now left.
    + apply IH. intros y Hy. apply Hall. now right.
Qed.

Lemma traces_for_each_proc_neutral {X : Type} (body : X -> proc) (xs : list X) :
  (forall x, In x xs -> traces (body x) []) ->
  traces (for_each_proc body xs) [].
Proof.
  induction xs as [|x xs IH]; intro Hall.
  - apply traces_pure, performs_id.
  - cbn [for_each_proc]. apply (traces_andthen _ _ [] []).
    + apply Hall. now left.
    + apply IH. intros y Hy. apply Hall. now right.
Qed.

Lemma label_neutral_refl (st : state) : label_neutral st st.
Proof. apply same_labels_refl. Qed.

Lemma label_neutral_trans (a b c : state) :
  label_neutral a b -> label_neutral b c -> label_neutral a c.
Proof. apply same_labels_trans. Qed.

Ltac not_label := let E := fresh "E" in intro E; closed_neq.

Lemma G_add_label_neutral (s p o : term) :
  p <> RDFS "label" -> steps label_neutral (G_add (s, p, o)).
Proof.
  intros Hp st s' l. cbn [G_add G]. rewrite graph_add_In.
  split; [auto|]. intros [H|H]; [|exact H].
  apply triple_eq_inv in H. destruct H as (_ & H & _). contradiction.
Qed.

Lemma drawn_label_neutral : steps label_neutral drawn.
Proof. intro st. apply same_labels_refl. Qed.

Lemma graph_remove_sp_In (s p : term) (g : graph) (t : triple) :
  In t (graph_remove_sp s p g)
  <-> In t g /\ ~ (fst (fst t) = s /\ snd (fst t) = p).
Proof.
  unfold graph_remove_sp. rewrite filter_In, negb_true_iff, andb_false_iff.
  rewrite !term_eqb_neq. split.
  - intros [Hin Hne]. split; [exact Hin|]. intros [H1 H2]. destruct Hne; auto.
  - intros [Hin Hne]. split; [exact Hin|].
    destruct (term_eq_dec (fst (fst t)) s) as [Hs|Hs]; [|now left].
    right. intro Hp. apply Hne. auto.
Qed.

Lemma class_fragments_label_neutral (classes : list term) (st : state) :
  label_neutral st (snd (class_fragments classes st)).
Proof.
  destruct (class_fragments_spec classes st) as (_ & _ & Hin).
  intros s l. rewrite Hin. split; [auto|]. intros [H|H]; [exact H|].
  apply in_map_iff in H. destruct H as [nc [Heq _]].
  apply triple_eq_inv in Heq. destruct Heq as (_ & E & _). closed_neq.
Qed.

Lemma Collection_label_neutral (head : term) (items : list term) :
  steps label_neutral (Collection head items).
Proof.
  intro st. unfold Collection. rewrite !block_cons, block_nil.
  set (st1 := G_remove_sp head (RDF "rest") st).
  destruct (Collection_extend_spec items head st1) as (Hincl & Hup & _).
  assert (H1 : forall s l, In (s, RDFS "label", l) (G st1)
                           <-> In (s, RDFS "label", l) (G st)).
  { intros s l. unfold st1. cbn [G_remove_sp G]. rewrite graph_remove_sp_In.
    cbn [fst snd]. split; [tauto|]. intro H. split; [exact H|].
    intros [_ E]. closed_neq. }
  intros s l. split.
  - intro H. apply Hincl, H1, H.
  - intro H. apply Hup in H. destruct H as [H|[E|E]]; [now apply H1| |];
      closed_neq.
Qed.

Lemma define_constraint_label_neutral (classname property_name : term)
    (property_values : allowed) :
  proc_steps label_neutral
    (define_constraint classname property_name property_values).
Proof.
  unfold define_constraint.
  apply (proc_steps_with_BNode_proc label_neutral label_neutral_trans);
    [exact drawn_label_neutral|]. intro pnode.
  apply (proc_steps_with_BNode_proc label_neutral label_neutral_trans);
    [exact drawn_label_neutral|]. intro onode.
  apply (proc_steps_andthen label_neutral label_neutral_trans).
  - apply proc_steps_pure.
    apply (steps_block label_neutral label_neutral_refl label_neutral_trans).
    repeat (apply Forall_cons; [apply G_add_label_neutral; not_label|]).
    apply Forall_nil.
  - destruct property_values as [iri|classes|].
    + apply proc_steps_pure. apply G_add_label_neutral. not_label.
    + apply proc_steps_pure. intro st.
      pose proof (class_fragments_label_neutral classes
                    (G_add (pnode, SH "or", onode) st)) as Hf.
      destruct (class_fragments classes (G_add (pnode, SH "or", onode) st))
        as [nodes st'].
      cbn [snd] in Hf.
      eapply label_neutral_trans;
        [|eapply label_neutral_trans; [exact Hf | apply Collection_label_neutral]].
      apply G_add_label_neutral. not_label.
    + apply (proc_steps_raise label_neutral label_neutral_refl).
Qed.

Lemma define_constraints_traces (constraints : list (term * allowed))
    (classname : term) :
  traces (define_constraints constraints classname) [].
Proof.
  apply traces_neutral.
  apply (proc_steps_for_each_proc label_neutral label_neutral_refl
           label_neutral_trans).
  intros kv _. apply define_constraint_label_neutral.
Qed.

Lemma flat_map_singleton {X Y : Type} (f : X -> Y) (xs : list X) :
  flat_map (fun x => [f x]) xs = map f xs.
Proof. induction xs as [|x xs IH]; cbn; [reflexivity | now rewrite IH]. Qed.

Lemma copy_property_traces (item : term) (kv : term * propval) :
  traces (copy_property item kv) (property_label_events item kv).
Proof.
  destruct kv as [k v]. unfold copy_property, property_label_events.
  cbn [fst snd].
  destruct (term_eqb k (RDFS "label")) eqn:Hk.
  - apply term_eqb_eq in Hk. subst k. destruct v as [t|ts|].
    + apply traces_pure, performs_G_add_label.
    + apply traces_pure. rewrite <- flat_map_singleton.
      apply performs_for_each. intro l. apply performs_G_add_label.
    + apply traces_raise.
  - apply term_eqb_neq in Hk. destruct v as [t|ts|].
    + apply traces_pure. now apply performs_G_add_other.
    + apply traces_pure. apply performs_for_each_neutral.
      intro l. now apply performs_G_add_other.
    + apply traces_raise.
Qed.

Lemma performs_block_single (f : state -> state) (es : list label_event) :
  performs f es -> performs (block [f]) es.
Proof. intros Hf st g H. rewrite block_cons, block_nil. now apply Hf. Qed.

Lemma shacl_add_performs (t : triple) : performs (shacl_add t) [].
Proof. apply performs_same_G. reflexivity. Qed.

Lemma new_tag_condition_G (rule tag : term) (st : state) :
  G (new_tag_condition rule tag st) = G st.
Proof.
  cbv beta iota zeta delta [new_tag_condition with_BNode block fold_left
    shacl_add set_tag_shape drawn G].
  reflexivity.
Qed.

Lemma new_n_tags_shape_G (n : nat) (st : state) :
  G (new_n_tags_shape n st) = G st.
Proof.
  cbv beta iota zeta delta [new_n_tags_shape block fold_left
    shacl_add set_n_tags_shape G].
  reflexivity.
Qed.

Lemma tag_condition_step_performs (klass rule tag : term) :
  performs (tag_condition_step klass rule tag) [].
Proof.
  unfold tag_condition_step.
  repeat (apply performs_block_neutral;
          [apply performs_G_add_other; not_label|]).
  apply performs_block_neutral.
  { apply performs_same_G. intro st.
    destruct (tag_shape_lookup (shacl_tag_property_shapes st) tag);
      [reflexivity | apply new_tag_condition_G]. }
  apply performs_block_single. apply performs_same_G. intro st.
  unfold attach_tag_condition.
  destruct (tag_shape_lookup (shacl_tag_property_shapes st) tag); reflexivity.
Qed.

Lemma add_tags_performs (klass : term) (definition : list term) :
  performs (add_tags klass definition)
           (map (fun tag => LabelAdd tag (Literal_str (tag_local tag))) definition).
Proof.
  unfold add_tags. destruct definition as [|t0 rest].
  - apply performs_id.
  - set (definition := t0 :: rest).
    change (Nat.eqb (List.length definition) 0) with false. cbv iota.
    rewrite <- (app_nil_r (map _ definition)).
    apply performs_block_cons.
    { rewrite <- flat_map_singleton. apply performs_for_each. intro tag.
      apply performs_block_neutral; [apply performs_G_add_other; not_label|].
      apply performs_block_neutral; [apply performs_G_add_other; not_label|].
      apply performs_block_single. apply performs_G_add_label. }
    repeat (apply performs_block_neutral; [apply shacl_add_performs|]).
    apply performs_block_neutral.
    { apply performs_for_each_neutral. intro tag.
      apply tag_condition_step_performs. }
    apply performs_block_neutral.
    { apply performs_same_G. intro st.
      destruct (n_tags_lookup (has_exactly_n_tags_shapes st)
                              (List.length definition));
        [reflexivity | apply new_n_tags_shape_G]. }
    apply performs_block_single. apply performs_same_G. intro st.
    unfold bind_target.
    destruct (n_tags_lookup (has_exactly_n_tags_shapes st)
                            (List.length definition)); reflexivity.
Qed.

Lemma define_class_traces (d : class_defn) :
  forall name parent pun_classes,
    traces (define_class name d parent pun_classes) (class_label_events name d).
Proof.
  induction d as [tags subs parents cons others IH]
    using class_defn_nested_ind.
  intros name parent pun. rewrite define_class_eq.
  cbn [class_label_events].
  apply traces_andthen.
  { apply traces_pure.
    apply performs_block_neutral; [apply performs_G_add_other; not_label|].
    apply performs_block_neutral; [apply performs_G_add_other; not_label|].
    apply (performs_block_cons _ _ [LabelIfAbsent (BRICK name)]).
    { apply performs_label_if_absent. }
    apply performs_block_neutral.
    { destruct pun; [apply performs_G_add_other; not_label | apply performs_id]. }
    apply performs_block_single. apply add_tags_performs. }
  apply traces_andthen.
  { apply traces_for_each_proc. intros nd Hnd.
    rewrite Forall_forall in IH. apply (IH nd Hnd). }
  apply (traces_andthen _ _ []).
  { apply traces_pure. apply performs_for_each_neutral. intro p.
    apply performs_G_add_other. not_label. }
  apply (traces_andthen _ _ []).
  { apply define_constraints_traces. }
  apply traces_for_each_proc. intros kv _. apply copy_property_traces.
Qed.

Lemma define_classes_traces (definitions : list (string * class_defn))
    (parent : term) (pun_classes : bool) :
  traces (define_classes definitions parent pun_classes)
         (label_events definitions).
Proof.
  apply traces_for_each_proc. intros nd _. apply define_class_traces.
Qed.

Lemma class_has_label_event (d : class_defn) :
  forall name kd, In kd (defn_classes name d) ->
                  In (LabelIfAbsent (fst kd)) (class_label_events name d).
Proof.
  induction d as [tags subs parents cons others IH]
    using class_defn_nested_ind.
  intros name kd Hkd. cbn [defn_classes class_label_events] in *.
  destruct Hkd as [<-|Hkd].
  - apply in_or_app. left. now left.
  - apply in_or_app. right. apply in_or_app. left.
    apply in_flat_map in Hkd. destruct Hkd as [nd [Hnd Hkd]].
    apply in_flat_map. exists nd. split; [exact Hnd|].
    rewrite Forall_forall in IH. now apply (IH nd Hnd).
Qed.

Lemma classes_have_label_event (definitions : list (string * class_defn))
    (kd : term * class_defn) :
  In kd (classes_in definitions) ->
  In (LabelIfAbsent (fst kd)) (label_events definitions).
Proof.
  intro Hkd. apply in_flat_map in Hkd. destruct Hkd as [nd [Hnd Hkd]].
  apply in_flat_map. exists nd. split; [exact Hnd|].
  now apply class_has_label_event.
Qed.

(** C7 (as amended). For any run of [define_classes]: no label statement
    of the graph is removed; if the run returns, running it again on the same
    input adds no label statement at all; for a class that the definitions
    neither list as a tag nor pass an [RDFS.label] pair through for, the only
    label the run can add is the one derived from its name, and only if the
    class had no label; and such a class, if it had no label before a run that
    returns, has exactly that one label after the run and after a second
    run. *)
Theorem class_labels_first_writer_wins :
  forall (definitions : list (string * class_defn)) (parent : term)
         (pun_classes : bool) (st : state),
    let r1 := define_classes definitions parent pun_classes st in
    let r2 := define_classes definitions parent pun_classes (snd r1) in
    (forall s l, In (s, RDFS "label", l) (G st) ->
                 In (s, RDFS "label", l) (G (snd r1)))
    /\ (fst r1 = Returned ->
        forall s l, In (s, RDFS "label", l) (G (snd r2))
                    <-> In (s, RDFS "label", l) (G (snd r1)))
    /\ (forall c, ~ label_passed_to definitions c ->
        forall l, In (c, RDFS "label", l) (G (snd r1)) ->
                  In (c, RDFS "label", l) (G st)
                  \/ (has_label c st = false /\ l = class_label c))
    /\ (forall c d,
          In (c, d) (classes_in definitions) ->
          ~ label_passed_to definitions c ->
          fst r1 = Returned ->
          has_label c st = false ->
          (forall l, In (c, RDFS "label", l) (G (snd r1)) <-> l = class_label c)
          /\ (forall l, In (c, RDFS "label", l) (G (snd r2))
                        <-> l = class_label c)).
Proof.
  intros definitions parent pun st r1 r2.
  destruct (define_classes_traces definitions parent pun st (G st)
              (same_labels_refl _)) as (done & rest & Hev & Hret & Hsame).
  fold r1 in Hret, Hsame.
  assert (Ha : forall s l, In (s, RDFS "label", l) (G st) ->
                           In (s, RDFS "label", l) (G (snd r1))).
  { intros s l H. apply Hsame. now apply apply_label_events_incl. }
  assert (Hb : fst r1 = Returned ->
               forall s l, In (s, RDFS "label", l) (G (snd r2))
                           <-> In (s, RDFS "label", l) (G (snd r1))).
  { intros Hr. rewrite (Hret Hr), app_nil_r in Hev. subst done.
    assert (Hsettled : Forall (label_event_settled (G (snd r1)))
                              (label_events definitions)).
    { eapply Forall_impl; [|apply (apply_label_events_settle _ (G st))].
      intros e He. eapply label_event_settled_same; [exact Hsame | exact He]. }
    destruct (define_classes_traces definitions parent pun (snd r1) (G (snd r1))
                (same_labels_refl _)) as (done2 & rest2 & Hev2 & _ & Hsame2).
    fold r2 in Hsame2.
    rewrite apply_label_events_settled in Hsame2.
    - intros s l. symmetry. apply Hsame2.
    - rewrite Hev2 in Hsettled. apply Forall_app in Hsettled. tauto. }
  assert (Hclass : forall c, ~ label_passed_to definitions c ->
            forall l, In (c, RDFS "label", l) (G (snd r1))
                      <-> In (c, RDFS "label", l) (G st)
                          \/ (has_label c st = false
                              /\ In (LabelIfAbsent c) done /\ l = class_label c)).
  { intros c Hclean l. rewrite <- (Hsame c l).
    apply apply_label_events_of_class. intros l' Hin. apply Hclean.
    exists l'. rewrite Hev. apply in_or_app. now left. }
  split; [exact Ha|]. split; [exact Hb|]. split.
  - intros c Hclean l Hl. apply (Hclass c Hclean) in Hl. tauto.
  - intros c d Hcd Hclean Hr Hno.
    assert (H1 : forall l, In (c, RDFS "label", l) (G (snd r1))
                           <-> l = class_label c).
    { intro l. rewrite (Hclass c Hclean l). split.
      - intros [H|(_ & _ & H)]; [|exact H].
        assert (has_label c st = true) by (apply has_label_true; eauto).
        congruence.
      - intros ->. right. repeat split; [exact Hno|].
        rewrite (Hret Hr), app_nil_r in Hev. subst done.
        apply (classes_have_label_event definitions (c, d) Hcd). }
    split; [exact H1|]. intro l. rewrite (Hb Hr c l). apply H1.
Qed.

Lemma class_labels_first_writer_wins_witness :
  let r1 := define_classes Foo_definitions (BRICK "Entity") false initial_state in
  let r2 := define_classes Foo_definitions (BRICK "Entity") false (snd r1) in
  (forall l, In (BRICK "Foo", RDFS "label", l) (G (snd r1))
             <-> l = class_label (BRICK "Foo"))
  /\ (forall l, In (BRICK "Foo", RDFS "label", l) (G (snd r2))
                <-> l = class_label (BRICK "Foo")).
Proof.
  apply (proj2 (proj2 (proj2 (class_labels_first_writer_wins
           Foo_definitions (BRICK "Entity") false initial_state)))
           (BRICK "Foo") (ClassDefn [TAG "T1"] [] [] [] [])).
  - simpl. left. reflexivity.
  - intros [l H]. vm_compute in H. destruct H as [H|[H|[]]]; discriminate H.
  - vm_compute. reflexivity.
  - vm_compute. reflexivity.
Defined.

(** C7, the claim as written fails: the definition of Foo passes a label
    through, the run returns, and Foo ends it with two labels. *)
Lemma passed_label_gives_second_label :
  let r := define_classes labelled_Foo (BRICK "Entity") false initial_state in
  fst r = Returned
  /\ graph_objects (G (snd r)) (BRICK "Foo") (RDFS "label")
     = [Literal_str "Foo thing"; Literal_str "Foo"].
Proof. vm_compute. split; reflexivity. Qed.

(* ------------------------------------------------------------------ *)
(** ** Property paths *)

Lemma existsb_term_In (x : term) (l : list term) :
  existsb (term_eqb x) l = true <-> In x l.
Proof.
  rewrite existsb_exists. split.
  - intros [y [Hy E]]. apply term_eqb_eq in E. now subst.
  - intro H. exists x. split; [exact H | apply term_eqb_refl].
Qed.

Lemma existsb_term_not_In (x : term) (l : list term) :
  existsb (term_eqb x) l = false <-> ~ In x l.
Proof.
  rewrite <- existsb_term_In. destruct (existsb (term_eqb x) l); split;
    congruence.
Qed.

Lemma path_plus_trans (g : graph) (p a b c : term) :
  path_plus g p a b -> path_plus g p b c -> path_plus g p a c.
Proof.
  intros Hab Hbc. induction Hab as [s o H|s m o H _ IH].
  - eapply path_plus_step; eauto.
  - eapply path_plus_step; eauto.
Qed.

Lemma path_plus_same_edges (g g' : graph) (p s t : term) :
  (forall a b, In (a, p, b) g -> In (a, p, b) g') ->
  path_plus g p s t -> path_plus g' p s t.
Proof.
  intros Hsame H. induction H as [s o H|s m o H _ IH].
  - apply path_plus_one. auto.
  - eapply path_plus_step; eauto.
Qed.

Lemma path_round_spec (g : graph) (p target : term) (found : list term) :
  NoDup (path_round g p target found)
  /\ forall s, In s (path_round g p target found)
       <-> ~ In s found
           /\ exists o, In (s, p, o) g /\ (o = target \/ In o found).
Proof.
  induction g as [|[[s0 q0] o0] g [IHnd IH]].
  - cbn. split; [constructor|]. intro s. split; [intros [] |].
    intros [_ [o [[] _]]].
  - cbn [path_round].
    set (fresh := path_round g p target found) in *.
    destruct (term_eqb q0 p
              && (term_eqb o0 target || existsb (term_eqb o0) found)
              && negb (existsb (term_eqb s0) found)
              && negb (existsb (term_eqb s0) fresh)) eqn:Hc.
    + apply andb_true_iff in Hc. destruct Hc as [Hc Hnf].
      apply andb_true_iff in Hc. destruct Hc as [Hc Hnfound].
      apply andb_true_iff in Hc. destruct Hc as [Hq Ho].
      apply term_eqb_eq in Hq. subst q0.
      apply negb_true_iff in Hnf, Hnfound.
      apply existsb_term_not_In in Hnf, Hnfound.
      assert (Ho' : o0 = target \/ In o0 found).
      { apply orb_true_iff in Ho. destruct Ho as [Ho|Ho].
        - left. now apply term_eqb_eq.
        - right. now apply existsb_term_In. }
      split; [constructor; assumption|].
      intro s. cbn [In]. rewrite IH. split.
      * intros [<-|[Hn [o [Hin Hor]]]].
        -- split; [exact Hnfound|]. exists o0. split; [now left | exact Ho'].
        -- split; [exact Hn|]. exists o. split; [now right | exact Hor].
      * intros [Hn [o [[Heq|Hin] Hor]]].
        -- apply triple_eq_inv in Heq. destruct Heq as (-> & _ & _). now left.
        -- right. split; [exact Hn|]. exists o. auto.
    + split; [exact IHnd|]. intro s. rewrite IH. split.
      * intros [Hn [o [Hin Hor]]]. split; [exact Hn|]. exists o.
        split; [now right | exact Hor].
      * intros [Hn [o [[Heq|Hin] Hor]]]; [|split; [exact Hn|]; exists o; auto].
        apply triple_eq_inv in Heq. destruct Heq as (-> & -> & ->).
        destruct (in_dec term_eq_dec s fresh) as [Hf|Hf];
          [now apply IH in Hf|].
        exfalso.
        rewrite term_eqb_refl in Hc.
        apply existsb_term_not_In in Hn, Hf. rewrite Hn, Hf in Hc.
        destruct Hor as [->|Ho].
        -- rewrite term_eqb_refl in Hc. discriminate Hc.
        -- apply existsb_term_In in Ho. rewrite Ho, orb_true_r in Hc.
           discriminate Hc.
Qed.

Lemma path_saturate_sound (rounds : nat) (g : graph) (p target : term) :
  forall found,
    (forall s, In s found -> path_plus g p s target) ->
    forall s, In s (path_saturate rounds g p target found) ->
              path_plus g p s target.
Proof.
  induction rounds as [|rounds IH]; intros found Hfound s Hs.
  - apply Hfound, Hs.
  - cbn [path_saturate] in Hs.
    destruct (path_round_spec g p target found) as [_ Hspec].
    destruct (path_round g p target found) as [|f fresh] eqn:Hr.
    + apply Hfound, Hs.
    + apply (IH ((f :: fresh) ++ found)%list); [|exact Hs].
      intros x Hx. apply in_app_or in Hx. destruct Hx as [Hx|Hx]; [|auto].
      apply Hspec in Hx. destruct Hx as [_ [o [Hin [->|Ho]]]].
      * now apply path_plus_one.
      * eapply path_plus_step; eauto.
Qed.

Lemma path_saturate_closed (rounds : nat) (g : graph) (p target : term) :
  forall found,
    NoDup found ->
    incl found (map (fun t => fst (fst t)) g) ->
    List.length g < rounds + List.length found ->
    path_closed g p target (path_saturate rounds g p target found).
Proof.
  induction rounds as [|rounds IH]; intros found Hnd Hincl Hlen.
  - exfalso. pose proof (NoDup_incl_length Hnd Hincl) as H.
    rewrite length_map in H. rewrite Nat.add_0_l in Hlen.
    exact (Nat.lt_irrefl _ (Nat.le_lt_trans _ _ _ H Hlen)).
  - cbn [path_saturate].
    destruct (path_round_spec g p target found) as [Hfnd Hspec].
    destruct (path_round g p target found) as [|f fresh] eqn:Hr.
    + intros s o Hin Hor.
      destruct (in_dec term_eq_dec s found) as [Hs|Hs]; [exact Hs|].
      exfalso. apply (proj2 (Hspec s)). split; [exact Hs|]. eauto.
    + apply IH.
      * apply NoDup_app; [exact Hfnd | exact Hnd |].
        intros x Hx Hx'. apply Hspec in Hx. tauto.
      * intros x Hx. apply in_app_or in Hx. destruct Hx as [Hx|Hx]; [|auto].
        apply Hspec in Hx. destruct Hx as [_ [o [Hin _]]].
        apply in_map_iff. exists (x, p, o). auto.
      * rewrite length_app. cbn [List.length]. lia.
Qed.

Lemma path_closed_complete (g : graph) (p target : term) (found : list term)
    (s : term) :
  path_closed g p target found -> path_plus g p s target -> In s found.
Proof.
  intros Hc H. induction H as [s o H|s m o H _ IH].
  - eapply Hc; eauto.
  - eapply Hc; eauto.
Qed.

Lemma path_plus_subjects_spec (g : graph) (p target s : term) :
  In s (path_plus_subjects g p target) <-> path_plus g p s target.
Proof.
  unfold path_plus_subjects. split.
  - apply path_saturate_sound. intros x [].
  - apply path_closed_complete. apply path_saturate_closed.
    + constructor.
    + intros x [].
    + cbn [List.length]. lia.
Qed.

(* ------------------------------------------------------------------ *)
(** ** Units *)

Lemma quantities_with_reference_In (g : graph) (q qq : term) :
  In (q, qq) (quantities_with_reference g)
  <-> In (q, A, BRICK "Quantity") g /\ In (q, BRICK "hasQUDTReference", qq) g.
Proof.
  unfold quantities_with_reference. rewrite in_flat_map. split.
  - intros [x [Hx Hin]]. apply in_map_iff in Hin. destruct Hin as [y [E Hy]].
    inversion E; subst. apply graph_subjects_In in Hx.
    apply graph_objects_In in Hy. auto.
  - intros [H1 H2]. exists q. split; [now apply graph_subjects_In|].
    apply in_map_iff. exists qq. split; [reflexivity|].
    now apply graph_objects_In.
Qed.

Lemma referenced_quantity_res (g : graph) (q : term) :
  referenced_quantity g q
  <-> exists qq, In (q, qq) (quantities_with_reference g).
Proof.
  unfold referenced_quantity. split.
  - intros [Hq [qq Hr]]. exists qq. apply quantities_with_reference_In. auto.
  - intros [qq H]. apply quantities_with_reference_In in H. destruct H. eauto.
Qed.

Lemma optional_matches_inhabited (l : list term) :
  exists m, In m (optional_matches l).
Proof. destruct l as [|x l]; cbn; eauto. Qed.

(** The units among the rows of [get_units_brick]. *)
Lemma get_units_brick_units (g : graph) (q u : term) :
  (exists row, In row (get_units_brick g q) /\ fst (fst row) = u)
  <-> exists s, path_plus g (SKOS "broader") s q
                /\ In (s, QUDT "applicableUnit", u) g.
Proof.
  unfold get_units_brick. split.
  - intros [row [Hin E]]. apply nodup_In in Hin.
    apply in_flat_map in Hin. destruct Hin as [s [Hs Hin]].
    apply in_flat_map in Hin. destruct Hin as [unit [Hu Hin]].
    apply in_flat_map in Hin. destruct Hin as [sym [_ Hin]].
    apply in_map_iff in Hin. destruct Hin as [lab [E2 _]].
    subst row. cbn [fst] in E. subst unit. exists s. split.
    + now apply path_plus_subjects_spec.
    + now apply graph_objects_In.
  - intros [s [Hp Hin]].
    destruct (optional_matches_inhabited
                (filter is_literal (graph_objects g u (QUDT "symbol"))))
      as [sym Hsym].
    destruct (optional_matches_inhabited (graph_objects g u (RDFS "label")))
      as [lab Hlab].
    exists (u, sym, lab). split; [|reflexivity].
    apply nodup_In. apply in_flat_map. exists s.
    split; [now apply path_plus_subjects_spec|].
    apply in_flat_map. exists u. split; [now apply graph_objects_In|].
    apply in_flat_map. exists sym. split; [exact Hsym|].
    apply in_map_iff. exists lab. split; [reflexivity | exact Hlab].
Qed.

Lemma units_from_qudt_In (get_units : term -> list term)
    (res : list (term * term)) (st : state) (t : triple) :
  In t (G (units_from_qudt get_units res st))
  <-> In t (G st)
      \/ exists r unit, In r res /\ In unit (get_units (snd r))
                        /\ t = (fst r, QUDT "applicableUnit", unit).
Proof.
  unfold units_from_qudt. revert st.
  induction res as [|r res IH]; intro st.
  - rewrite for_each_nil. split; [auto|]. intros [H|[r [unit [[] _]]]]. exact H.
  - rewrite for_each_cons, IH.
    rewrite (for_each_G_add_In (get_units (snd r))
               (fun unit => (fst r, QUDT "applicableUnit", unit))).
    rewrite in_map_iff. split.
    + intros [[H|[unit [E Hin]]]|[r' [unit [Hr [Hu E]]]]].
      * now left.
      * right. exists r, unit. split; [now left|]. split; [exact Hin | now symmetry].
      * right. exists r', unit. split; [now right|]. auto.
    + intros [H|[r' [unit [[<-|Hr] [Hu E]]]]].
      * left. now left.
      * left. right. exists unit. split; [now symmetry | exact Hu].
      * right. exists r', unit. auto.
Qed.

Lemma units_step_In (r : term * term) (st : state) (t : triple) :
  In t (G (for_each (get_units_brick (G st) (fst r)) (fun row =>
             G_add (fst r, QUDT "applicableUnit", fst (fst row))) st))
  <-> In t (G st)
      \/ exists s u, t = (fst r, QUDT "applicableUnit", u)
           /\ path_plus (G st) (SKOS "broader") s (fst r)
           /\ In (s, QUDT "applicableUnit", u) (G st).
Proof.
  rewrite (for_each_G_add_In (get_units_brick (G st) (fst r))
             (fun row => (fst r, QUDT "applicableUnit", fst (fst row)))).
  rewrite in_map_iff. split.
  - intros [H|[row [E Hin]]]; [now left|]. right.
    destruct (proj1 (get_units_brick_units (G st) (fst r) (fst (fst row))))
      as [s [Hp Hs]]; [eauto|].
    exists s, (fst (fst row)). auto.
  - intros [H|[s [u [E [Hp Hs]]]]]; [now left|]. right.
    destruct (proj2 (get_units_brick_units (G st) (fst r) u))
      as [row [Hin Hu]]; [eauto|].
    exists row. subst u. auto.
Qed.

Lemma applicableUnit_not_broader : QUDT "applicableUnit" <> SKOS "broader".
Proof. intro H. closed_neq. Qed.

Lemma inherited_over_refl (g : graph) : inherited_over g g.
Proof. split; auto. Qed.

Lemma inherited_over_paths (g1 g : graph) (s q : term) :
  inherited_over g1 g ->
  path_plus g (SKOS "broader") s q <-> path_plus g1 (SKOS "broader") s q.
Proof.
  intros [Hsub Hsup]. split; apply path_plus_same_edges; intros a b Hin.
  - apply Hsup in Hin. destruct Hin as [Hin|[q' [s' [u [E _]]]]]; [exact Hin|].
    apply triple_eq_inv in E. destruct E as (_ & E & _).
    symmetry in E. destruct (applicableUnit_not_broader E).
  - auto.
Qed.

Lemma inherited_over_units (g1 g : graph) (q u : term) :
  inherited_over g1 g ->
  (exists s, path_plus g (SKOS "broader") s q
             /\ In (s, QUDT "applicableUnit", u) g)
  <-> exists s, path_plus g1 (SKOS "broader") s q
                /\ In (s, QUDT "applicableUnit", u) g1.
Proof.
  intro Hi. split.
  - intros [s [Hp Hin]]. apply (inherited_over_paths _ _ _ _ Hi) in Hp.
    destruct Hi as [_ Hsup]. apply Hsup in Hin.
    destruct Hin as [Hin|[q' [s' [u' [E [Hp' Hin]]]]]]; [eauto|].
    apply triple_eq_inv in E. destruct E as (-> & _ & ->).
    exists s'. split; [|exact Hin]. eapply path_plus_trans; eauto.
  - intros [s [Hp Hin]]. exists s. split.
    + now apply (inherited_over_paths _ _ _ _ Hi).
    + destruct Hi as [Hsub _]. auto.
Qed.

(** The second pass adds, for the quantities of [res] and no other, the
    units of the concepts below them. *)
Lemma units_from_narrower_In (g1 : graph) (res : list (term * term)) :
  forall st, inherited_over g1 (G st) ->
    inherited_over g1 (G (units_from_narrower res st))
    /\ forall t, In t (G (units_from_narrower res st))
         <-> In t (G st)
             \/ exists r s u, In r res
                  /\ t = (fst r, QUDT "applicableUnit", u)
                  /\ path_plus g1 (SKOS "broader") s (fst r)
                  /\ In (s, QUDT "applicableUnit", u) g1.
Proof.
  unfold units_from_narrower.
  induction res as [|r res IH]; intros st Hi.
  - rewrite for_each_nil. split; [exact Hi|]. intro t. split; [auto|].
    intros [H|[r [s [u [[] _]]]]]. exact H.
  - rewrite for_each_cons.
    set (st1 := for_each (get_units_brick (G st) (fst r)) (fun row =>
                  G_add (fst r, QUDT "applicableUnit", fst (fst row))) st).
    assert (Hstep : forall t, In t (G st1)
              <-> In t (G st)
                  \/ exists s u, t = (fst r, QUDT "applicableUnit", u)
                       /\ path_plus g1 (SKOS "broader") s (fst r)
                       /\ In (s, QUDT "applicableUnit", u) g1).
    { intro t. unfold st1. rewrite units_step_In. split.
      - intros [H|[s [u [E Hex]]]]; [now left|]. right.
        destruct (proj1 (inherited_over_units g1 (G st) (fst r) u Hi))
          as [s' [Hp Hs]]; [eauto|].
        exists s', u. auto.
      - intros [H|[s [u [E Hex]]]]; [now left|]. right.
        destruct (proj2 (inherited_over_units g1 (G st) (fst r) u Hi))
          as [s' [Hp Hs]]; [eauto|].
        exists s', u. auto. }
    assert (Hi1 : inherited_over g1 (G st1)).
    { destruct Hi as [Hsub Hsup]. split.
      - intros t Ht. apply Hstep. left. auto.
      - intros t Ht. apply Hstep in Ht. destruct Ht as [Ht|[s [u [E [Hp Hs]]]]].
        + auto.
        + right. exists (fst r), s, u. auto. }
    destruct (IH st1 Hi1) as [Hi2 Hall]. split; [exact Hi2|].
    intro t. rewrite Hall, Hstep. split.
    + intros [[H|[s [u [E [Hp Hs]]]]]|[r' [s [u [Hr Hrest]]]]].
      * now left.
      * right. exists r, s, u. split; [now left | auto].
      * right. exists r', s, u. split; [now right | auto].
    + intros [H|[r' [s [u [[<-|Hr] Hrest]]]]].
      * left. now left.
      * left. right. exists s, u. exact Hrest.
      * right. exists r', s, u. auto.
Qed.

Lemma propagate_units_passes (get_units : term -> list term) (st : state) :
  propagate_units get_units st
  = units_from_narrower (quantities_with_reference (G st))
      (units_from_qudt get_units (quantities_with_reference (G st)) st).
Proof. reflexivity. Qed.

Lemma units_from_qudt_declared (get_units : term -> list term) (st : state)
    (x u : term) :
  In (x, QUDT "applicableUnit", u)
     (G (units_from_qudt get_units (quantities_with_reference (G st)) st))
  <-> unit_declared get_units (G st) x u.
Proof.
  rewrite units_from_qudt_In. unfold unit_declared. split.
  - intros [H|[[q qq] [unit [Hr [Hu E]]]]]; [now left|]. right.
    cbn [fst snd] in *. apply triple_eq_inv in E. destruct E as (-> & _ & ->).
    exists qq. auto.
  - intros [H|[qq [Hr Hu]]]; [now left|]. right.
    exists (x, qq), u. auto.
Qed.

Lemma units_from_qudt_paths (get_units : term -> list term)
    (res : list (term * term)) (st : state) (s q : term) :
  path_plus (G (units_from_qudt get_units res st)) (SKOS "broader") s q
  <-> path_plus (G st) (SKOS "broader") s q.
Proof.
  split; apply path_plus_same_edges; intros a b Hin.
  - apply units_from_qudt_In in Hin.
    destruct Hin as [Hin|[r [unit [_ [_ E]]]]]; [exact Hin|].
    apply triple_eq_inv in E. destruct E as (_ & E & _).
    symmetry in E. destruct (applicableUnit_not_broader E).
  - apply units_from_qudt_In. now left.
Qed.

(** The applicable units after the two passes. *)
Lemma propagate_units_units (get_units : term -> list term) (st : state)
    (q u : term) :
  In (q, QUDT "applicableUnit", u) (G (propagate_units get_units st))
  <-> unit_declared get_units (G st) q u
      \/ (referenced_quantity (G st) q
          /\ exists s, path_plus (G st) (SKOS "broader") s q
                       /\ unit_declared get_units (G st) s u).
Proof.
  rewrite propagate_units_passes.
  set (res := quantities_with_reference (G st)).
  set (st1 := units_from_qudt get_units res st).
  destruct (units_from_narrower_In (G st1) res st1 (inherited_over_refl _))
    as [_ Hall].
  rewrite Hall. unfold st1 at 1, res at 1.
  rewrite units_from_qudt_declared. split.
  - intros [H|[[q' qq] [s [u' [Hr [E [Hp Hs]]]]]]]; [now left|]. right.
    cbn [fst] in *. apply triple_eq_inv in E. destruct E as (-> & _ & ->).
    split; [apply referenced_quantity_res; eauto|].
    exists s. split.
    + now apply (units_from_qudt_paths get_units res st).
    + now apply units_from_qudt_declared.
  - intros [H|[Hq [s [Hp Hs]]]]; [now left|]. right.
    apply referenced_quantity_res in Hq. destruct Hq as [qq Hq].
    exists (q, qq), s, u. split; [exact Hq|]. split; [reflexivity|]. split.
    + now apply (units_from_qudt_paths get_units res st).
    + now apply units_from_qudt_declared.
Qed.



(* ------------------------------------------------------------------ *)
(** ** Further properties of the unit passes *)




Lemma grows_G_refl (st : state) : grows_G st st.
Proof.
  split; [apply incl_refl|]. split; [apply same_rules_refl | reflexivity].
Qed.

Lemma grows_G_trans (a b c : state) : grows_G a b -> grows_G b c -> grows_G a c.
Proof.
  intros (Hi & Hr & Hn) (Hi' & Hr' & Hn'). split; [|split].
  - eapply incl_tran; eassumption.
  - eapply same_rules_trans; eassumption.
  - congruence.
Qed.

Lemma G_add_grows_G (t : triple) : steps grows_G (G_add t).
Proof.
  intro st. split; [apply graph_add_incl|].
  split; [apply G_add_same_rules | reflexivity].
Qed.

Lemma for_each_G_add_grows_G {X : Type} (xs : list X) (mk : X -> triple) :
  steps grows_G (for_each xs (fun x => G_add (mk x))).
Proof.
  apply (steps_for_each grows_G grows_G_refl grows_G_trans).
  intros x _. apply G_add_grows_G.
Qed.

Lemma units_from_qudt_grows_G (get_units : term -> list term)
    (res : list (term * term)) :
  steps grows_G (units_from_qudt get_units res).
Proof.
  apply (steps_for_each grows_G grows_G_refl grows_G_trans).
  intros r _.
  apply (for_each_G_add_grows_G (get_units (snd r))
           (fun unit => (fst r, QUDT "applicableUnit", unit))).
Qed.

Lemma units_from_narrower_grows_G (res : list (term * term)) :
  steps grows_G (units_from_narrower res).
Proof.
  apply (steps_for_each grows_G grows_G_refl grows_G_trans).
  intros r _ st.
  apply (for_each_G_add_grows_G (get_units_brick (G st) (fst r))
           (fun row => (fst r, QUDT "applicableUnit", fst (fst row)))).
Qed.

Lemma propagate_units_grows_G (get_units : term -> list term) :
  steps grows_G (propagate_units get_units).
Proof.
  intro st. rewrite propagate_units_passes.
  eapply grows_G_trans;
    [apply units_from_qudt_grows_G | apply units_from_narrower_grows_G].
Qed.

Lemma propagate_units_added (get_units : term -> list term) (st : state)
    (s p o : term) :
  In (s, p, o) (G (propagate_units get_units st)) ->
  In (s, p, o) (G st)
  \/ (p = QUDT "applicableUnit" /\ referenced_quantity (G st) s).
Proof.
  rewrite propagate_units_passes.
  set (res := quantities_with_reference (G st)).
  set (st1 := units_from_qudt get_units res st).
  destruct (units_from_narrower_In (G st1) res st1 (inherited_over_refl _))
    as [_ Hall].
  rewrite Hall. unfold st1 at 1. rewrite units_from_qudt_In.
  intros [[H|[[q qq] [unit [Hr [_ E]]]]]|[[q qq] [s' [u [Hr [E _]]]]]].
  - now left.
  - right. cbn [fst] in E. apply triple_eq_inv in E. destruct E as (-> & -> & _).
    split; [reflexivity|]. apply referenced_quantity_res. eauto.
  - right. cbn [fst] in E. apply triple_eq_inv in E. destruct E as (-> & -> & _).
    split; [reflexivity|]. apply referenced_quantity_res. eauto.
Qed.

(** X2. The unit passes only add statements, each a [qudt:applicableUnit]
    of a quantity that is typed brick:Quantity and has a QUDT reference; the
    rule graph, the caches and the blank-node counter stay as they are. *)
Theorem unit_passes_only_add_units (get_units : term -> list term)
    (st : state) :
  let st' := propagate_units get_units st in
  grows_G st st'
  /\ forall s p o, In (s, p, o) (G st') ->
       In (s, p, o) (G st)
       \/ (p = QUDT "applicableUnit" /\ referenced_quantity (G st) s).
Proof.
  split; [apply propagate_units_grows_G|].
  intros s p o. apply propagate_units_added.
Qed.

Lemma G_add_present (t : triple) (st : state) : In t (G st) -> G_add t st = st.
Proof.
  intro H. apply graph_mem_In in H. destruct st as [g sg c1 c2 n].
  unfold G_add, graph_add.
  cbn [G shaclGraph shacl_tag_property_shapes has_exactly_n_tags_shapes
       next_bnode] in *.
  rewrite H. reflexivity.
Qed.

Lemma for_each_G_add_present {X : Type} (xs : list X) (mk : X -> triple)
    (st : state) :
  (forall x, In x xs -> In (mk x) (G st)) ->
  for_each xs (fun x => G_add (mk x)) st = st.
Proof.
  induction xs as [|x xs IH]; intro H; [reflexivity|].
  rewrite for_each_cons, G_add_present; [|apply H; now left].
  apply IH. intros y Hy. apply H. now right.
Qed.

Lemma units_from_qudt_present (get_units : term -> list term)
    (res : list (term * term)) (st : state) :
  (forall r unit, In r res -> In unit (get_units (snd r)) ->
                  In (fst r, QUDT "applicableUnit", unit) (G st)) ->
  units_from_qudt get_units res st = st.
Proof.
  unfold units_from_qudt. induction res as [|r res IH]; intro H; [reflexivity|].
  rewrite for_each_cons.
  rewrite (for_each_G_add_present (get_units (snd r))
             (fun unit => (fst r, QUDT "applicableUnit", unit))).
  - apply IH. intros r' unit Hr. apply H. now right.
  - intros unit Hu. apply H; [now left | exact Hu].
Qed.

Lemma units_from_narrower_present (res : list (term * term)) (st : state) :
  (forall r row, In r res -> In row (get_units_brick (G st) (fst r)) ->
                 In (fst r, QUDT "applicableUnit", fst (fst row)) (G st)) ->
  units_from_narrower res st = st.
Proof.
  unfold units_from_narrower.
  induction res as [|r res IH]; intro H; [reflexivity|].
  rewrite for_each_cons. cbv beta.
  rewrite (for_each_G_add_present (get_units_brick (G st) (fst r))
             (fun row => (fst r, QUDT "applicableUnit", fst (fst row)))).
  - apply IH. intros r' row Hr. apply H. now right.
  - intros row Hrow. apply H; [now left | exact Hrow].
Qed.

Lemma propagate_units_keeps (get_units : term -> list term) (st : state)
    (s p o : term) :
  p <> QUDT "applicableUnit" ->
  In (s, p, o) (G (propagate_units get_units st)) <-> In (s, p, o) (G st).
Proof.
  intro Hp. split.
  - intro H. apply propagate_units_added in H. destruct H as [H|[E _]].
    + exact H.
    + destruct (Hp E).
  - apply (propagate_units_grows_G get_units st).
Qed.

Lemma propagate_units_res (get_units : term -> list term) (st : state)
    (r : term * term) :
  In r (quantities_with_reference (G (propagate_units get_units st)))
  <-> In r (quantities_with_reference (G st)).
Proof.
  destruct r as [q qq]. rewrite !quantities_with_reference_In.
  rewrite !propagate_units_keeps; [reflexivity | |]; intro E; closed_neq.
Qed.

Lemma propagate_units_paths (get_units : term -> list term) (st : state)
    (s q : term) :
  path_plus (G (propagate_units get_units st)) (SKOS "broader") s q
  <-> path_plus (G st) (SKOS "broader") s q.
Proof.
  assert (Hne : SKOS "broader" <> QUDT "applicableUnit")
    by (intro E; closed_neq).
  split; apply path_plus_same_edges; intros a b Hin.
  - now apply (propagate_units_keeps get_units st) in Hin.
  - now apply (propagate_units_keeps get_units st).
Qed.

(** X3. Running the unit passes a second time changes nothing: every
    statement they would add is there already. *)
Theorem unit_passes_are_idempotent (get_units : term -> list term)
    (st : state) :
  propagate_units get_units (propagate_units get_units st)
  = propagate_units get_units st.
Proof.
  set (st' := propagate_units get_units st).
  rewrite (propagate_units_passes get_units st').
  rewrite units_from_qudt_present.
  - apply units_from_narrower_present. intros [q qq] row Hr Hrow. cbn [fst] in *.
    apply propagate_units_res in Hr.
    destruct (proj1 (get_units_brick_units (G st') q (fst (fst row))))
      as [s [Hp Hs]]; [eauto|].
    apply propagate_units_paths in Hp.
    apply propagate_units_units in Hs. apply propagate_units_units. right.
    split; [apply referenced_quantity_res; eauto|].
    destruct Hs as [Hs|[_ [s' [Hp' Hs']]]].
    + exists s. auto.
    + exists s'. split; [eapply path_plus_trans; eassumption | exact Hs'].
  - intros [q qq] unit Hr Hu. cbn [fst snd] in *.
    apply propagate_units_res in Hr.
    apply propagate_units_units. left. right. exists qq. auto.
Qed.

(* ------------------------------------------------------------------ *)
(** ** Further properties of handle_deprecations *)

Lemma first_missing_key_complete (md : deprecation) :
  first_missing_key md = None <-> complete_deprecation md.
Proof.
  unfold first_missing_key, complete_deprecation.
  destruct (md_version md), (md_mitigation_message md), (md_replace_with md);
    split; try discriminate; try (intros _; repeat split; discriminate);
    intros (H1 & H2 & H3); congruence.
Qed.

Lemma handle_deprecation_outcome (dt : term) (md : deprecation) (st : state) :
  fst (handle_deprecation dt md st)
  = match first_missing_key md with
    | Some k => Raised (KeyError k)
    | None => Returned
    end.
Proof.
  unfold handle_deprecation, first_missing_key, andthen, pure, lookup_or_raise,
    raise.
  destruct (md_version md), (md_mitigation_message md), (md_replace_with md);
    reflexivity.
Qed.

Lemma handle_deprecation_grows_G (dt : term) (md : deprecation) :
  proc_steps grows_G (handle_deprecation dt md).
Proof.
  unfold handle_deprecation.
  repeat apply (proc_steps_andthen grows_G grows_G_trans).
  - apply proc_steps_pure. apply (steps_block grows_G grows_G_refl grows_G_trans).
    repeat (apply Forall_cons; [apply G_add_grows_G|]).
    apply Forall_cons; [|apply Forall_nil].
    destruct (md_subClassOf md) as [v|]; [|destruct (md_narrower md) as [v|]];
      try (destruct v as [|t|ts]; cbn [add_edges];
           [apply (steps_id grows_G grows_G_refl)
           |apply G_add_grows_G
           |apply (for_each_G_add_grows_G ts)]).
    apply (steps_id grows_G grows_G_refl).
  - destruct (md_version md); cbn [lookup_or_raise];
      [apply proc_steps_pure, G_add_grows_G
      |apply (proc_steps_raise grows_G grows_G_refl)].
  - destruct (md_mitigation_message md); cbn [lookup_or_raise];
      [apply proc_steps_pure, G_add_grows_G
      |apply (proc_steps_raise grows_G grows_G_refl)].
  - destruct (md_replace_with md); cbn [lookup_or_raise];
      [apply proc_steps_pure, G_add_grows_G
      |apply (proc_steps_raise grows_G grows_G_refl)].
Qed.

Lemma handle_deprecations_grows_G (deprecations : list (term * deprecation)) :
  proc_steps grows_G (handle_deprecations deprecations).
Proof.
  apply (proc_steps_for_each_proc grows_G grows_G_refl grows_G_trans).
  intros kv _. apply handle_deprecation_grows_G.
Qed.

(** The statements made before the first lookup are there however the
    call ends. *)
Lemma handle_deprecation_head (dt : term) (md : deprecation) (st : state) :
  let g := G (snd (handle_deprecation dt md st)) in
  In (dt, A, OWL "Class") g
  /\ In (dt, OWL "deprecated", Literal_True) g
  /\ In (dt, RDFS "label",
         Literal_str (replace_underscores (split_hash_last (py_str dt)))) g.
Proof.
  cbv zeta. unfold handle_deprecation.
  set (label := replace_underscores (split_hash_last (py_str dt))).
  set (edges := match md_subClassOf md, md_narrower md with
                | Some subclasses, _ => add_edges dt (RDFS "subClassOf") subclasses
                | None, Some subconcepts => add_edges dt (SKOS "narrower") subconcepts
                | None, None => fun st => st
                end).
  set (rest := lookup_or_raise "version" (md_version md) _ ;; _).
  assert (Hrest : proc_steps grows_G rest).
  { unfold rest. repeat apply (proc_steps_andthen grows_G grows_G_trans).
    - destruct (md_version md); cbn [lookup_or_raise];
        [apply proc_steps_pure, G_add_grows_G
        |apply (proc_steps_raise grows_G grows_G_refl)].
    - destruct (md_mitigation_message md); cbn [lookup_or_raise];
        [apply proc_steps_pure, G_add_grows_G
        |apply (proc_steps_raise grows_G grows_G_refl)].
    - destruct (md_replace_with md); cbn [lookup_or_raise];
        [apply proc_steps_pure, G_add_grows_G
        |apply (proc_steps_raise grows_G grows_G_refl)]. }
  assert (Hedges : steps grows_G edges).
  { unfold edges.
    destruct (md_subClassOf md) as [v|]; [|destruct (md_narrower md) as [v|]];
      try (destruct v as [|t|ts]; cbn [add_edges];
           [apply (steps_id grows_G grows_G_refl)
           |apply G_add_grows_G
           |apply (for_each_G_add_grows_G ts)]).
    apply (steps_id grows_G grows_G_refl). }
  rewrite andthen_snd_returned by reflexivity.
  unfold pure at 1. cbn [snd].
  rewrite !block_cons, block_nil.
  set (st3 := G_add (dt, RDFS "label", Literal_str label)
                (G_add (dt, OWL "deprecated", Literal_True)
                   (G_add (dt, A, OWL "Class") st))).
  assert (H3 : In (dt, A, OWL "Class") (G st3)
               /\ In (dt, OWL "deprecated", Literal_True) (G st3)
               /\ In (dt, RDFS "label", Literal_str label) (G st3)).
  { unfold st3, G_add.
    cbn [G shaclGraph shacl_tag_property_shapes has_exactly_n_tags_shapes
         next_bnode].
    rewrite !graph_add_In. auto 10. }
  destruct (Hedges st3) as [Hi _]. destruct (Hrest (edges st3)) as [Hi' _].
  destruct H3 as (H1 & H2 & H3). repeat split; apply Hi', Hi; assumption.
Qed.

(** X4. [handle_deprecations] returns exactly when every term's metadata
    has a version, a mitigation message and a successor. *)
Theorem deprecations_return_iff_complete
    (deprecations : list (term * deprecation)) (st : state) :
  fst (handle_deprecations deprecations st) = Returned
  <-> Forall (fun kv => complete_deprecation (snd kv)) deprecations.
Proof.
  unfold handle_deprecations. revert st.
  induction deprecations as [|[dt md] rest IH]; intro st.
  - split; [constructor | reflexivity].
  - rewrite for_each_proc_cons. cbv beta. cbn [fst snd].
    pose proof (handle_deprecation_outcome dt md st) as Ho.
    destruct (handle_deprecation dt md st) as [[|e] st'] eqn:Hd; cbn [fst] in *.
    + rewrite IH. split.
      * intro Hrest. constructor; [|exact Hrest]. cbn [snd].
        apply first_missing_key_complete.
        destruct (first_missing_key md); [discriminate Ho | reflexivity].
      * intro Hall. now inversion Hall.
    + split; [discriminate|]. intro Hall. inversion Hall as [|? ? Hmd _]; subst.
      cbn [snd] in Hmd. apply first_missing_key_complete in Hmd.
      rewrite Hmd in Ho. discriminate Ho.
Qed.

(** X5. At the first term whose metadata lacks a key, [handle_deprecations]
    raises [KeyError] for the key looked up first among the missing ones
    (version, then mitigation_message, then replace_with); the terms after
    it are not processed; nothing is removed from the graph, and the term
    already has its class declaration, its deprecated flag and its label. *)
Theorem deprecations_stop_at_first_missing_key
    (pre post : list (term * deprecation)) (dt : term) (md : deprecation)
    (k : string) (st : state) :
  Forall (fun kv => complete_deprecation (snd kv)) pre ->
  first_missing_key md = Some k ->
  let r := handle_deprecations (pre ++ (dt, md) :: post) st in
  fst r = Raised (KeyError k)
  /\ r = handle_deprecations (pre ++ [(dt, md)]) st
  /\ grows_G st (snd r)
  /\ In (dt, A, OWL "Class") (G (snd r))
  /\ In (dt, OWL "deprecated", Literal_True) (G (snd r))
  /\ In (dt, RDFS "label",
         Literal_str (replace_underscores (split_hash_last (py_str dt))))
        (G (snd r)).
Proof.
  intros Hpre Hk r.
  assert (Hr : r = handle_deprecations (pre ++ [(dt, md)]) st
               /\ r = handle_deprecation dt md
                        (snd (handle_deprecations pre st))).
  { unfold r, handle_deprecations. rewrite !for_each_proc_app.
    apply handle_deprecations_statements with (st := st) in Hpre.
    destruct Hpre as [Hret _]. unfold handle_deprecations in Hret.
    destruct (for_each_proc _ pre st) as [[|e] st1]; [|discriminate Hret].
    cbn [snd]. rewrite !for_each_proc_cons. cbv beta. cbn [fst snd].
    pose proof (handle_deprecation_outcome dt md st1) as Ho. rewrite Hk in Ho.
    destruct (handle_deprecation dt md st1) as [[|e] st2]; cbn [fst] in Ho;
      [discriminate Ho|]. split; reflexivity. }
  destruct Hr as [Hr1 Hr2]. split; [|split; [exact Hr1|split]].
  - rewrite Hr2, handle_deprecation_outcome, Hk. reflexivity.
  - apply handle_deprecations_grows_G.
  - rewrite Hr2. apply handle_deprecation_head.
Qed.

Lemma deprecations_stop_at_first_missing_key_witness :
  let r := handle_deprecations
             ([(BRICK "Old_Thing", legacy_deprecation)]
              ++ (BRICK "Older_Thing", unexplained_deprecation)
              :: [(BRICK "Oldest_Thing", legacy_deprecation)])
             initial_state in
  fst r = Raised (KeyError "mitigation_message")
  /\ r = handle_deprecations
           ([(BRICK "Old_Thing", legacy_deprecation)]
            ++ [(BRICK "Older_Thing", unexplained_deprecation)]) initial_state
  /\ grows_G initial_state (snd r)
  /\ In (BRICK "Older_Thing", A, OWL "Class") (G (snd r))
  /\ In (BRICK "Older_Thing", OWL "deprecated", Literal_True) (G (snd r))
  /\ In (BRICK "Older_Thing", RDFS "label",
         Literal_str (replace_underscores
                        (split_hash_last (py_str (BRICK "Older_Thing")))))
        (G (snd r)).
Proof.
  apply (deprecations_stop_at_first_missing_key
           [(BRICK "Old_Thing", legacy_deprecation)]
           [(BRICK "Oldest_Thing", legacy_deprecation)]
           (BRICK "Older_Thing") unexplained_deprecation
           "mitigation_message" initial_state).
  - constructor; [|constructor]. repeat split; discriminate.
  - reflexivity.
Defined.

(* ------------------------------------------------------------------ *)
(** ** Further properties of define_constraints *)





(* ------------------------------------------------------------------ *)
(** ** add_relationships *)

Lemma add_relationships_In (item : term) (propdefs : list (term * propval))
    (st : state) (t : triple) :
  In t (G (add_relationships item propdefs st))
  <-> In t (G st)
      \/ exists propname o,
           t = (item, propname, o)
           /\ (In (propname, PVTerm o) propdefs
               \/ exists os, In (propname, PVList os) propdefs /\ In o os).
Proof.
  unfold add_relationships. revert st.
  induction propdefs as [|[k v] rest IH]; intro st.
  - rewrite for_each_nil. split; [auto|].
    intros [H|(? & ? & _ & [[]|(? & [] & _)])]. exact H.
  - rewrite for_each_cons, IH. cbn [fst snd]. split.
    + intros [H|(pn & o & E & Hin)].
      * destruct v as [v|vs|].
        -- cbn [G_add G] in H. apply graph_add_In in H. destruct H as [<-|H];
             [|now left]. right. exists k, v. split; [reflexivity|].
           left. now left.
        -- apply (for_each_G_add_In vs (fun pv => (item, k, pv))) in H.
           destruct H as [H|H]; [now left|]. apply in_map_iff in H.
           destruct H as [o [<- Ho]]. right. exists k, o.
           split; [reflexivity|]. right. exists vs. split; [now left | exact Ho].
        -- now left.
      * right. exists pn, o. split; [exact E|].
        destruct Hin as [Hin|[os [Hin Ho]]]; [left; now right|].
        right. exists os. split; [now right | exact Ho].
    + assert (Hkeep : forall t, In t (G st) ->
                In t (G (match v with
                         | PVTerm propval => G_add (item, k, propval)
                         | PVList propval =>
                             for_each propval (fun pv => G_add (item, k, pv))
                         | PVDict => fun st => st
                         end st))).
      { intros t' Ht'. destruct v as [v|vs|].
        - cbn [G_add G]. apply graph_add_In. now right.
        - apply (for_each_G_add_In vs (fun pv => (item, k, pv))). now left.
        - exact Ht'. }
      intros [H|(pn & o & E & [[Hin|Hin]|[os [[Hin|Hin] Ho]]])].
      * left. now apply Hkeep.
      * inversion Hin; subst. left. cbn [G_add G]. apply graph_add_In. now left.
      * right. exists pn, o. auto.
      * inversion Hin; subst. left.
        apply (for_each_G_add_In os (fun pv => (item, pn, pv))). right.
        apply in_map_iff. eauto.
      * right. exists pn, o. split; [exact E|]. right. eauto.
Qed.

Lemma add_relationships_grows_G (item : term) (propdefs : list (term * propval)) :
  steps grows_G (add_relationships item propdefs).
Proof.
  apply (add_relationships_steps grows_G grows_G_refl grows_G_trans).
  apply G_add_grows_G.
Qed.

Lemma add_relationships_present (item : term) (propdefs : list (term * propval))
    (st : state) :
  (forall propname o,
     In (propname, PVTerm o) propdefs
     \/ (exists os, In (propname, PVList os) propdefs /\ In o os) ->
     In (item, propname, o) (G st)) ->
  add_relationships item propdefs st = st.
Proof.
  unfold add_relationships.
  induction propdefs as [|[k v] rest IH]; intro H; [reflexivity|].
  rewrite for_each_cons. cbn [fst snd].
  assert (Hv : match v with
               | PVTerm propval => G_add (item, k, propval)
               | PVList propval =>
                   for_each propval (fun pv => G_add (item, k, pv))
               | PVDict => fun st => st
               end st = st).
  { destruct v as [v|vs|].
    - apply G_add_present. apply H. left. now left.
    - apply (for_each_G_add_present vs (fun pv => (item, k, pv))).
      intros o Ho. apply H. right. exists vs. split; [now left | exact Ho].
    - reflexivity. }
  rewrite Hv. apply IH. intros pn o [Hin|[os [Hin Ho]]]; apply H.
  - left. now right.
  - right. exists os. split; [now right | exact Ho].
Qed.

(** X7. [add_relationships] asserts, for the given item, one statement for
    each key whose value is a term and one for each member of a value that
    is a list, and nothing for a key whose value is a dictionary; it changes
    nothing else, and asserting the same pairs again changes nothing. *)
Theorem add_relationships_statements (item : term)
    (propdefs : list (term * propval)) (st : state) :
  let st' := add_relationships item propdefs st in
  grows_G st st'
  /\ (forall t, In t (G st')
        <-> In t (G st)
            \/ exists propname o,
                 t = (item, propname, o)
                 /\ (In (propname, PVTerm o) propdefs
                     \/ exists os, In (propname, PVList os) propdefs
                                   /\ In o os))
  /\ add_relationships item propdefs st' = st'.
Proof.
  split; [apply add_relationships_grows_G|].
  split; [intro t; apply add_relationships_In|].
  apply add_relationships_present. intros pn o H.
  apply add_relationships_In. right. exists pn, o. auto.
Qed.

(* ------------------------------------------------------------------ *)
(** ** Disjoint point classes *)

Lemma BRICK_inj (a b : string) : BRICK a = BRICK b -> a = b.
Proof.
  unfold BRICK. intro H. inversion H. reflexivity.
Qed.

Lemma disjoint_classes_In (classes : list string) (st : state) (t : triple) :
  In t (G (disjoint_classes classes st))
  <-> In t (G st)
      \/ exists a b, In a classes /\ In b classes /\ a <> b
                     /\ t = (BRICK a, OWL "disjointWith", BRICK b).
Proof.
  unfold disjoint_classes.
  assert (Hgen : forall pcs st,
            In t (G (for_each pcs (fun pc =>
                    for_each (filter (fun x => negb (String.eqb x pc)) classes)
                      (fun o => G_add (BRICK pc, OWL "disjointWith", BRICK o)))
                    st))
            <-> In t (G st)
                \/ exists a b, In a pcs /\ In b classes /\ a <> b
                     /\ t = (BRICK a, OWL "disjointWith", BRICK b)).
  { induction pcs as [|pc pcs IH]; intro st0.
    - rewrite for_each_nil. split; [auto|]. intros [H|(? & ? & [] & _)]. exact H.
    - rewrite for_each_cons, IH.
      rewrite (for_each_G_add_In
                 (filter (fun x => negb (String.eqb x pc)) classes)
                 (fun o => (BRICK pc, OWL "disjointWith", BRICK o))).
      rewrite in_map_iff. split.
      + intros [[H|[o [E Ho]]]|(a & b & Ha & Hb & Hab & E)].
        * now left.
        * right. apply filter_In in Ho. destruct Ho as [Ho Hne].
          apply negb_true_iff, String.eqb_neq in Hne.
          exists pc, o. split; [now left|]. split; [exact Ho|].
          split; [congruence | now symmetry].
        * right. exists a, b. split; [now right | auto].
      + intros [H|(a & b & [<-|Ha] & Hb & Hab & E)].
        * left. now left.
        * left. right. exists b. split; [now symmetry|].
          apply filter_In. split; [exact Hb|].
          apply negb_true_iff, String.eqb_neq. congruence.
        * right. exists a, b. auto. }
  apply Hgen.
Qed.

(** X8. Making a list of classes disjoint adds exactly the
    [owl:disjointWith] statements between two different classes of the
    list, in both directions, and never one from a class to itself. *)
Theorem disjoint_classes_symmetric_irreflexive (classes : list string)
    (st : state) :
  let st' := disjoint_classes classes st in
  (forall t, In t (G st')
     <-> In t (G st)
         \/ exists a b, In a classes /\ In b classes /\ a <> b
                        /\ t = (BRICK a, OWL "disjointWith", BRICK b))
  /\ (forall a b, In a classes -> In b classes -> a <> b ->
        In (BRICK a, OWL "disjointWith", BRICK b) (G st')
        /\ In (BRICK b, OWL "disjointWith", BRICK a) (G st'))
  /\ (forall c, In (BRICK c, OWL "disjointWith", BRICK c) (G st') ->
                In (BRICK c, OWL "disjointWith", BRICK c) (G st)).
Proof.
  cbv zeta. split; [intro t; apply disjoint_classes_In|]. split.
  - intros a b Ha Hb Hab. split; apply disjoint_classes_In; right.
    + exists a, b. auto.
    + exists b, a. auto.
  - intros c H. apply disjoint_classes_In in H.
    destruct H as [H|(a & b & _ & _ & Hab & E)]; [exact H|].
    apply triple_eq_inv in E. destruct E as (Ea & _ & Eb).
    apply BRICK_inj in Ea, Eb. congruence.
Qed.

(* ------------------------------------------------------------------ *)
(** ** define_concept_hierarchy *)








(* ------------------------------------------------------------------ *)
(** ** Lists on drawn nodes *)

Lemma keeps_lists_refl (st : state) : keeps_lists st st.
Proof. intro H. split; [exact H|]. split; [apply incl_refl | lia]. Qed.

Lemma keeps_lists_trans (a b c : state) :
  keeps_lists a b -> keeps_lists b c -> keeps_lists a c.
Proof.
  intros Hab Hbc Ha. destruct (Hab Ha) as (Hb & Iab & Lab).
  destruct (Hbc Hb) as (Hc & Ibc & Lbc).
  split; [exact Hc|]. split; [eapply incl_tran; eassumption | lia].
Qed.

Lemma subjects_drawn_list_cells (st : state) :
  subjects_drawn st -> list_cells_drawn st.
Proof. intros H n p o Hin _. eapply H, Hin. Qed.

Lemma initial_state_list_cells_drawn : list_cells_drawn initial_state.
Proof. intros n p o H. destruct H. Qed.

Lemma G_add_keeps_lists_pred (s p o : term) :
  p <> RDF "first" -> p <> RDF "rest" -> steps keeps_lists (G_add (s, p, o)).
Proof.
  intros H1 H2 st Hd. split; [|split; [apply graph_add_incl | cbn; lia]].
  intros n p' o' H Hp. cbn [G_add G next_bnode] in *.
  apply graph_add_In in H. destruct H as [H|H]; [|now apply (Hd _ _ _ H)].
  apply triple_eq_inv in H. destruct H as (_ & <- & _). tauto.
Qed.

Lemma G_add_keeps_lists_subj (s p o : term) :
  is_drawn_node s = false -> steps keeps_lists (G_add (s, p, o)).
Proof.
  intros Hs st Hd. split; [|split; [apply graph_add_incl | cbn; lia]].
  intros n p' o' H Hp. cbn [G_add G next_bnode] in *.
  apply graph_add_In in H. destruct H as [H|H]; [|now apply (Hd _ _ _ H)].
  apply triple_eq_inv in H. destruct H as (-> & _). discriminate Hs.
Qed.

Lemma same_G_keeps_lists (st st' : state) :
  G st' = G st -> next_bnode st <= next_bnode st' -> keeps_lists st st'.
Proof.
  intros HG Hn Hd. split; [|split; [rewrite HG; apply incl_refl | exact Hn]].
  intros n p o H Hp. rewrite HG in H. pose proof (Hd _ _ _ H Hp). lia.
Qed.

Lemma drawn_keeps_lists : steps keeps_lists drawn.
Proof. intro st. apply same_G_keeps_lists; [reflexivity | cbn; lia]. Qed.





(* ------------------------------------------------------------------ *)
(** ** define_constraints, when it returns *)











(* ------------------------------------------------------------------ *)
(** ** define_classes keeps the graph *)









(* ------------------------------------------------------------------ *)
(** ** What define_classes declares *)

Lemma pass_through_made_incl (g g' : graph) (item : term) (kv : term * propval) :
  incl g g' -> pass_through_made g item kv -> pass_through_made g' item kv.
Proof.
  unfold pass_through_made. intros Hi H. destruct (snd kv) as [v|vs|]; auto.
Qed.




Lemma copy_property_made (item : term) (kv : term * propval) (st : state) :
  fst (copy_property item kv st) = Returned ->
  pass_through_made (G (snd (copy_property item kv st))) item kv.
Proof.
  unfold copy_property, pass_through_made. destruct (snd kv) as [v|vs|].
  - intros _. cbn [pure snd G_add G]. apply graph_add_In. now left.
  - intros _ v Hv. cbn [pure snd].
    apply (for_each_G_add_In vs (fun pv => (item, fst kv, pv))). right.
    apply in_map_iff. eauto.
  - discriminate.
Qed.




(* ------------------------------------------------------------------ *)
(** ** What define_relationships declares *)



Lemma add_relationships_made (item : term) (propdefs : list (term * propval))
    (st : state) (kv : term * propval) :
  In kv propdefs ->
  relationship_made (G (add_relationships item propdefs st)) item kv.
Proof.
  intro Hkv. unfold relationship_made. destruct kv as [k v]. cbn [fst snd].
  destruct v as [v|vs|]; [| |exact I].
  - apply add_relationships_In. right. exists k, v. auto.
  - intros v Hv. apply add_relationships_In. right. exists k, v.
    split; [reflexivity|]. right. eauto.
Qed.




(* ------------------------------------------------------------------ *)
(** ** define_entity_properties *)

Lemma entprop_defn_nested_ind (P : entprop_defn -> Prop) :
  (forall property_of sh_node label subproperties others,
      (forall ds, subproperties = Some ds ->
                  Forall (fun nd => P (snd nd)) ds) ->
      P (EntPropDefn property_of sh_node label subproperties others)) ->
  forall d, P d.
Proof.
  intro H. fix IH 1. intros [property_of sh_node label subproperties others].
  apply H. destruct subproperties as [ds|]; [|discriminate].
  assert (Hall : Forall (fun nd => P (snd nd)) ds).
  { induction ds as [|nd ds IHs]; constructor; [apply IH | exact IHs]. }
  intros ds' E. inversion E; subst. exact Hall.
Qed.

Lemma andthen_returns (p q : proc) (st : state) :
  fst ((p ;; q) st) = Returned
  <-> fst (p st) = Returned /\ fst (q (snd (p st))) = Returned.
Proof.
  unfold andthen. destruct (p st) as [[|e] st']; cbn [fst snd].
  - tauto.
  - split; [discriminate | intros [H _]; discriminate H].
Qed.

(** A loop returns exactly when each turn does, if that does not depend on
    the state. *)
Lemma for_each_proc_returns {X : Type} (body : X -> proc) (P : X -> Prop)
    (xs : list X) :
  (forall x, In x xs -> forall st, fst (body x st) = Returned <-> P x) ->
  forall st, fst (for_each_proc body xs st) = Returned <-> Forall P xs.
Proof.
  induction xs as [|x xs IH]; intros Hbody st.
  - split; [constructor | reflexivity].
  - cbn [for_each_proc]. rewrite andthen_returns.
    rewrite (Hbody x (or_introl eq_refl)).
    rewrite IH by (intros y Hy; apply Hbody; now right).
    split; [intros [Hx Hall]; now constructor|].
    intro Hall. inversion Hall; subst. auto.
Qed.

Lemma fold_right_and_Forall {X : Type} (P : X -> Prop) (xs : list X) :
  fold_right (fun x acc => P x /\ acc) True xs <-> Forall P xs.
Proof.
  induction xs as [|x xs IH]; cbn [fold_right].
  - split; [constructor | exact (fun _ => I)].
  - rewrite IH. split; [intros [Hx Hall]; now constructor|].
    intro Hall. inversion Hall; subst. auto.
Qed.

Lemma copy_property_returns (item : term) (kv : term * propval) (st : state) :
  fst (copy_property item kv st) = Returned <-> snd kv <> PVDict.
Proof.
  unfold copy_property. destruct (snd kv) as [v|vs|]; cbn [pure raise fst];
    split; congruence.
Qed.

Lemma define_entity_property_eq (entprop : term) (shapes : shapes_value)
    (sh_node label : term) (subproperties : option (list (term * entprop_defn)))
    (others : list (term * propval)) (superprop : option term) :
  define_entity_property entprop
    (EntPropDefn (Some shapes) (Some sh_node) (Some label) subproperties others)
    superprop
  = (pure (block
       [ G_add (entprop, A, BRICK "EntityProperty");
         match superprop with
         | Some sp => G_add (entprop, RDFS "subPropertyOf", sp)
         | None => fun st => st
         end ]) ;;
     match subproperties with
     | Some subproperties =>
         for_each_proc (fun nd =>
           define_entity_property (fst nd) (snd nd) (Some entprop))
           subproperties
     | None => pure (fun st => st)
     end ;;
     pure (block
       [ G_add (entity_property_shape entprop, A, SH "PropertyShape");
         G_add (entity_property_shape entprop, SH "path", entprop);
         G_add (entity_property_shape entprop, SH "node", sh_node);
         G_add (entity_property_shape entprop, RDFS "label",
                Literal_str ("has " ++ py_str label ++ " property"));
         match shapes with
         | ShapeList shapes =>
             for_each shapes (fun shape =>
               G_add (shape, SH "property", entity_property_shape entprop))
         | ShapeOne shape =>
             G_add (shape, SH "property", entity_property_shape entprop)
         end ]) ;;
     for_each_proc (copy_property entprop)
                   ((RDFS "label", PVTerm label) :: others)).
Proof. reflexivity. Qed.

Lemma define_entity_property_returns (d : entprop_defn) :
  forall entprop superprop st,
    fst (define_entity_property entprop d superprop st) = Returned
    <-> entprop_complete d.
Proof.
  induction d as [property_of sh_node label subs others IH]
    using entprop_defn_nested_ind.
  intros entprop superprop st.
  destruct property_of as [shapes|];
    [|split; [discriminate | intros []]].
  destruct sh_node as [node|]; [|split; [discriminate | intros []]].
  destruct label as [label|]; [|split; [discriminate | intros []]].
  rewrite define_entity_property_eq. cbn [entprop_complete].
  rewrite !andthen_returns.
  rewrite (for_each_proc_returns (copy_property entprop)
             (fun kv => snd kv <> PVDict));
    [|intros kv _ s; apply copy_property_returns].
  assert (Hsubs : forall s,
            fst (match subs with
                 | Some subproperties =>
                     for_each_proc (fun nd =>
                       define_entity_property (fst nd) (snd nd) (Some entprop))
                       subproperties
                 | None => pure (fun st => st)
                 end s) = Returned
            <-> match subs with
                | Some ds =>
                    fold_right (fun nd acc => entprop_complete (snd nd) /\ acc)
                               True ds
                | None => True
                end).
  { intro s. destruct subs as [ds|]; [|split; [exact (fun _ => I) | reflexivity]].
    rewrite (fold_right_and_Forall (fun nd => entprop_complete (snd nd))).
    apply for_each_proc_returns. intros nd Hnd s'.
    pose proof (IH ds eq_refl) as Hall. rewrite Forall_forall in Hall.
    apply (Hall nd Hnd). }
  rewrite Hsubs. split.
  - intros (_ & Hs & _ & Ho). split; [exact Hs|].
    inversion Ho; subst. assumption.
  - intros [Hs Ho]. split; [reflexivity|]. split; [exact Hs|].
    split; [reflexivity|]. constructor; [discriminate | exact Ho].
Qed.

(** X13. [define_entity_properties] returns exactly when every definition,
    and every subproperty definition nested in one, has "property_of",
    SH.node and RDFS.label, and none of their remaining pairs has a
    dictionary for its value. *)
Theorem entity_properties_return_iff_complete
    (definitions : list (term * entprop_defn)) (superprop : option term)
    (st : state) :
  fst (define_entity_properties definitions superprop st) = Returned
  <-> Forall (fun nd => entprop_complete (snd nd)) definitions.
Proof.
  unfold define_entity_properties. apply for_each_proc_returns.
  intros nd _ s. apply define_entity_property_returns.
Qed.

Lemma define_entity_property_grows_G (d : entprop_defn) :
  forall entprop superprop,
    proc_steps grows_G (define_entity_property entprop d superprop).
Proof.
  induction d as [property_of sh_node label subs others IH]
    using entprop_defn_nested_ind.
  intros entprop superprop.
  destruct property_of as [shapes|];
    [|apply (proc_steps_raise grows_G grows_G_refl)].
  destruct sh_node as [node|]; [|apply (proc_steps_raise grows_G grows_G_refl)].
  destruct label as [label|]; [|apply (proc_steps_raise grows_G grows_G_refl)].
  rewrite define_entity_property_eq.
  apply (proc_steps_andthen grows_G grows_G_trans);
    [|apply (proc_steps_andthen grows_G grows_G_trans);
      [|apply (proc_steps_andthen grows_G grows_G_trans)]].
  - apply proc_steps_pure. apply (steps_block grows_G grows_G_refl grows_G_trans).
    apply Forall_cons; [apply G_add_grows_G|].
    apply Forall_cons; [|apply Forall_nil].
    destruct superprop; [apply G_add_grows_G | apply (steps_id grows_G grows_G_refl)].
  - destruct subs as [ds|].
    + apply (proc_steps_for_each_proc grows_G grows_G_refl grows_G_trans).
      intros nd Hnd. pose proof (IH ds eq_refl) as Hall.
      rewrite Forall_forall in Hall. apply (Hall nd Hnd).
    + apply proc_steps_pure. apply (steps_id grows_G grows_G_refl).
  - apply proc_steps_pure. apply (steps_block grows_G grows_G_refl grows_G_trans).
    repeat (apply Forall_cons; [apply G_add_grows_G|]).
    apply Forall_cons; [|apply Forall_nil].
    destruct shapes as [shape|shapes];
      [apply G_add_grows_G | apply (for_each_G_add_grows_G shapes)].
  - apply (proc_steps_for_each_proc grows_G grows_G_refl grows_G_trans).
    intros kv _. apply (copy_property_steps grows_G grows_G_refl grows_G_trans).
    apply G_add_grows_G.
Qed.

Lemma entity_property_declared_incl (g g' : graph)
    (x : term * option term * entprop_defn) :
  incl g g' -> entity_property_declared g x -> entity_property_declared g' x.
Proof.
  intro Hi. unfold entity_property_declared.
  destruct (snd x) as [[shapes|] [node|] [label|] subs others]; auto.
  intros (H1 & H2 & H3 & H4 & H5 & H6 & H7 & H8 & H9).
  repeat (split; [auto|]).
  intros kv Hkv. eapply pass_through_made_incl; eauto.
Qed.

(** A loop that may raise, whose turns only add to [G], keeps what each
    turn establishes. *)
Lemma for_each_proc_grows_post {X : Type} (body : X -> proc) (xs : list X)
    (Q : X -> graph -> Prop) :
  (forall x, proc_steps grows_G (body x)) ->
  (forall x g g', incl g g' -> Q x g -> Q x g') ->
  (forall x st, In x xs -> fst (body x st) = Returned ->
                Q x (G (snd (body x st)))) ->
  forall st, fst (for_each_proc body xs st) = Returned ->
    forall x, In x xs -> Q x (G (snd (for_each_proc body xs st))).
Proof.
  intros Hgrow Hmono Hbody st Hret x Hx.
  apply (for_each_proc_post body xs (fun _ => True) (fun x s => Q x (G s)));
    auto.
  intros y z s _ Hq. destruct (Hgrow z s) as [Hi _]. eauto.
Qed.

Lemma define_entity_property_declares (d : entprop_defn) :
  forall entprop superprop st,
    fst (define_entity_property entprop d superprop st) = Returned ->
    forall x, In x (entprop_links entprop d superprop) ->
      entity_property_declared
        (G (snd (define_entity_property entprop d superprop st))) x.
Proof.
  induction d as [property_of sh_node label subs others IH]
    using entprop_defn_nested_ind.
  intros entprop superprop st.
  destruct property_of as [shapes|]; [|discriminate].
  destruct sh_node as [node|]; [|discriminate].
  destruct label as [label|]; [|discriminate].
  rewrite define_entity_property_eq.
  set (p1 := pure _).
  set (p2 := match subs with Some _ => _ | None => _ end).
  set (p3 := pure (block _)).
  set (p4 := for_each_proc _ _).
  intro Hret.
  apply andthen_returned in Hret. destruct Hret as (R1 & Hret & E1).
  apply andthen_returned in Hret. destruct Hret as (R2 & Hret & E2).
  apply andthen_returned in Hret. destruct Hret as (R3 & R4 & E3).
  rewrite E1, E2, E3.
  set (st1 := snd (p1 st)) in *. set (st2 := snd (p2 st1)) in *.
  set (st3 := snd (p3 st2)) in *. set (st4 := snd (p4 st3)).
  set (pshape := entity_property_shape entprop).
  assert (K2 : grows_G st1 st2).
  { unfold st2, p2. destruct subs as [ds|].
    - apply (proc_steps_for_each_proc grows_G grows_G_refl grows_G_trans).
      intros nd _. apply define_entity_property_grows_G.
    - apply grows_G_refl. }
  destruct K2 as [I2 _].
  assert (K3 : grows_G st2 st3).
  { unfold st3, p3. cbn [pure snd].
    apply (steps_block grows_G grows_G_refl grows_G_trans).
    repeat (apply Forall_cons; [apply G_add_grows_G|]).
    apply Forall_cons; [|apply Forall_nil].
    destruct shapes as [shape|shapes'];
      [apply G_add_grows_G | apply (for_each_G_add_grows_G shapes')]. }
  destruct K3 as [I3 _].
  assert (K4 : grows_G st3 st4).
  { unfold st4, p4.
    apply (proc_steps_for_each_proc grows_G grows_G_refl grows_G_trans).
    intros kv _. apply (copy_property_steps grows_G grows_G_refl grows_G_trans).
    apply G_add_grows_G. }
  destruct K4 as [I4 _].
  intros x Hx. cbn [entprop_links] in Hx. destruct Hx as [<-|Hx].
  - unfold entity_property_declared. cbn [fst snd]. fold pshape.
    assert (F1 : In (entprop, A, BRICK "EntityProperty") (G st1)
                 /\ forall sp, superprop = Some sp ->
                      In (entprop, RDFS "subPropertyOf", sp) (G st1)).
    { unfold st1, p1. cbn [pure snd]. rewrite !block_cons, block_nil. split.
      - destruct superprop; cbn [G_add G]; rewrite ?graph_add_In; auto.
      - intros sp ->. cbn [G_add G]. apply graph_add_In. now left. }
    destruct F1 as [Fa Fb].
    assert (F3 : In (pshape, A, SH "PropertyShape") (G st3)
                 /\ In (pshape, SH "path", entprop) (G st3)
                 /\ In (pshape, SH "node", node) (G st3)
                 /\ In (pshape, RDFS "label",
                        Literal_str ("has " ++ py_str label ++ " property"))
                       (G st3)
                 /\ forall shape, In shape (shapes_list shapes) ->
                      In (shape, SH "property", pshape) (G st3)).
    { unfold st3, p3. cbn [pure snd]. fold pshape.
      rewrite !block_cons, block_nil.
      set (s4 := G_add (pshape, RDFS "label", _) _).
      assert (H4 : In (pshape, A, SH "PropertyShape") (G s4)
                   /\ In (pshape, SH "path", entprop) (G s4)
                   /\ In (pshape, SH "node", node) (G s4)
                   /\ In (pshape, RDFS "label",
                          Literal_str ("has " ++ py_str label ++ " property"))
                         (G s4)).
      { unfold s4. cbn [G_add G]. rewrite !graph_add_In. auto 10. }
      destruct H4 as (Ha & Hb & Hc & Hd).
      destruct shapes as [shape|shapes']; cbn [shapes_list].
      - assert (Hk : forall t, In t (G s4) ->
                  In t (G (G_add (shape, SH "property", pshape) s4))).
        { intros t Ht. cbn [G_add G]. apply graph_add_In. now right. }
        split; [apply Hk, Ha|]. split; [apply Hk, Hb|].
        split; [apply Hk, Hc|]. split; [apply Hk, Hd|].
        intros sh Hsh. destruct Hsh as [<-|[]].
        cbn [G_add G]. apply graph_add_In. now left.
      - assert (Hk : forall t, In t (G s4) ->
                  In t (G (for_each shapes'
                             (fun shape => G_add (shape, SH "property", pshape))
                             s4))).
        { intros t Ht.
          apply (for_each_G_add_In shapes'
                   (fun shape => (shape, SH "property", pshape))). now left. }
        split; [apply Hk, Ha|]. split; [apply Hk, Hb|].
        split; [apply Hk, Hc|]. split; [apply Hk, Hd|].
        intros sh Hsh.
        apply (for_each_G_add_In shapes'
                 (fun shape => (shape, SH "property", pshape))).
        right. apply in_map_iff. eauto. }
    destruct F3 as (Fc & Fd & Fe & Ff & Fg).
    assert (F4 : forall kv, In kv ((RDFS "label", PVTerm label) :: others) ->
                   pass_through_made (G st4) entprop kv).
    { intros kv Hkv. unfold st4, p4.
      apply (for_each_proc_grows_post (copy_property entprop)
               ((RDFS "label", PVTerm label) :: others)
               (fun kv g => pass_through_made g entprop kv)); auto.
      - intros kv'.
        apply (copy_property_steps grows_G grows_G_refl grows_G_trans).
        apply G_add_grows_G.
      - intros kv' g g' Hi Hq. eapply pass_through_made_incl; eauto.
      - intros kv' s _ Hr. now apply copy_property_made. }
    split; [apply I4, I3, I2, Fa|].
    split; [intros sp Hsp; apply I4, I3, I2, (Fb sp Hsp)|].
    split; [apply I4, Fc|]. split; [apply I4, Fd|]. split; [apply I4, Fe|].
    split; [apply I4, Ff|].
    split; [intros sh Hsh; apply I4, (Fg sh Hsh)|].
    split; [apply (F4 (RDFS "label", PVTerm label)); now left|].
    intros kv Hkv. apply F4. now right.
  - destruct subs as [ds|]; [|destruct Hx].
    apply in_flat_map in Hx. destruct Hx as [nd [Hnd Hx]].
    apply (entity_property_declared_incl (G st2));
      [intros t Ht; apply I4, I3, Ht|].
    pose proof (IH ds eq_refl) as Hall. rewrite Forall_forall in Hall.
    unfold st2, p2.
    refine (for_each_proc_grows_post
              (fun nd => define_entity_property (fst nd) (snd nd) (Some entprop))
              ds
              (fun nd g => forall x,
                 In x (entprop_links (fst nd) (snd nd) (Some entprop)) ->
                 entity_property_declared g x)
              _ _ _ st1 R2 nd Hnd x Hx).
    + intros nd'. apply define_entity_property_grows_G.
    + intros nd' g g' Hi Hq y Hy.
      eapply entity_property_declared_incl; eauto.
    + intros nd' s Hnd' Hr y Hy. now apply (Hall nd' Hnd').
Qed.

(** X14. [define_entity_properties] only adds to [G]; when it returns, every
    entity property of the definitions, nested ones included, is a
    brick:EntityProperty and a subproperty of the property it is defined
    under, has the property shape bsh:has<name>Shape on its path, with its
    node shape and the label "has <label> property"; every shape under
    "property_of" has that property shape as [sh:property]; and the label
    and the remaining pairs are asserted for the property. *)
Theorem entity_properties_are_declared
    (definitions : list (term * entprop_defn)) (superprop : option term)
    (st : state) :
  let r := define_entity_properties definitions superprop st in
  grows_G st (snd r)
  /\ (fst r = Returned ->
      forall x, In x (entity_properties_under definitions superprop) ->
                entity_property_declared (G (snd r)) x).
Proof.
  cbv zeta. unfold define_entity_properties. split.
  - apply (proc_steps_for_each_proc grows_G grows_G_refl grows_G_trans).
    intros nd _. apply define_entity_property_grows_G.
  - intros Hret x Hx. apply in_flat_map in Hx. destruct Hx as [nd [Hnd Hx]].
    refine (for_each_proc_grows_post
              (fun nd => define_entity_property (fst nd) (snd nd) superprop)
              definitions
              (fun nd g => forall x,
                 In x (entprop_links (fst nd) (snd nd) superprop) ->
                 entity_property_declared g x)
              _ _ _ st Hret nd Hnd x Hx).
    + intros nd'. apply define_entity_property_grows_G.
    + intros nd' g g' Hi Hq y Hy.
      eapply entity_property_declared_incl; eauto.
    + intros nd' s _ Hr y Hy. now apply (define_entity_property_declares (snd nd')).
Qed.

Lemma entity_properties_are_declared_witness :
  fst (define_entity_properties area_properties None initial_state) = Returned
  /\ forall x, In x (entity_properties_under area_properties None) ->
       entity_property_declared
         (G (snd (define_entity_properties area_properties None initial_state)))
         x.
Proof.
  split; [vm_compute; reflexivity|].
  apply (proj2 (entity_properties_are_declared area_properties None
                  initial_state)).
  vm_compute. reflexivity.
Defined.

(* ------------------------------------------------------------------ *)
(** ** The text of a Limit's definition *)

Lemma split_on_cons (sep : ascii) (s : string) :
  exists w ws, split_on sep s = w :: ws.
Proof.
  induction s as [|c s [w [ws IH]]]; cbn [split_on]; [eauto|].
  destruct (Ascii.eqb c sep); [eauto|]. rewrite IH. eauto.
Qed.

Lemma split_on_app (sep : ascii) (s t : string) :
  split_on sep (s ++ String sep t) = (split_on sep s ++ split_on sep t)%list.
Proof.
  induction s as [|c s IH]; cbn [append split_on].
  - rewrite Ascii.eqb_refl. reflexivity.
  - rewrite IH. destruct (Ascii.eqb c sep); [reflexivity|].
    destruct (split_on_cons sep s) as [w [ws E]]. rewrite E. reflexivity.
Qed.

Lemma join_split_on (sep : ascii) (s : string) :
  join (String sep EmptyString) (split_on sep s) = s.
Proof.
  induction s as [|c s IH]; cbn [split_on]; [reflexivity|].
  destruct (split_on_cons sep s) as [w [ws E]]. rewrite E in *.
  destruct (Ascii.eqb c sep) eqn:Hc.
  - apply Ascii.eqb_eq in Hc. subst c.
    change (join (String sep "") ("" :: w :: ws))
      with (String sep (join (String sep "") (w :: ws))).
    now rewrite IH.
  - destruct ws as [|w' ws].
    + cbn [join] in *. now rewrite IH.
    + change (join (String sep "") (String c w :: w' :: ws))
        with (String c (join (String sep "") (w :: w' :: ws))).
      now rewrite IH.
Qed.

Lemma split_on_words_app (sep : ascii) (s : string) (w : string) :
  split_on sep w = [w] ->
  last (split_on sep (s ++ String sep w)) EmptyString = w.
Proof. intro Hw. rewrite split_on_app, Hw. apply last_last. Qed.

(** X15. The setpoint named in the definition of a Limit is a name whose
    last word is "Setpoint", whatever the name of the parameter. *)
Theorem limit_setpoint_names_a_setpoint (local : string) :
  last (split_on underscore_char (limit_setpoint local)) EmptyString
  = "Setpoint".
Proof.
  unfold limit_setpoint.
  set (setpoint := if existsb (String.eqb local) _ then _ else _).
  destruct (String.eqb (last (split_on underscore_char setpoint) "") "Setpoint")
    eqn:E; cbn [negb].
  - now apply String.eqb_eq in E.
  - change (setpoint ++ "_Setpoint")
      with (setpoint ++ String underscore_char "Setpoint").
    apply split_on_words_app. reflexivity.
Qed.

Lemma append_Limit_not_Limit (middle : string) :
  String.eqb (middle ++ "_Limit") "Limit" = false.
Proof.
  apply String.eqb_neq. intro H. apply (f_equal String.length) in H.
  rewrite string_length_append in H. cbn [String.length] in H. lia.
Qed.

Lemma split_on_Limit (middle : string) :
  split_on underscore_char (middle ++ "_Limit")
  = (split_on underscore_char middle ++ ["Limit"])%list.
Proof.
  change (middle ++ "_Limit") with (middle ++ String underscore_char "Limit").
  rewrite split_on_app. reflexivity.
Qed.

Lemma named_setpoint_final (middle : string) :
  (if negb (String.eqb (last (split_on underscore_char middle) EmptyString)
                       "Setpoint")
   then middle ++ "_Setpoint" else middle)
  = named_setpoint middle.
Proof.
  unfold named_setpoint.
  destruct (String.eqb (last (split_on underscore_char middle) "") "Setpoint");
    reflexivity.
Qed.

Lemma limit_setpoint_prefixed (prefix middle : string) :
  prefix = "Min" \/ prefix = "Max" ->
  limit_setpoint (prefix ++ "_" ++ middle ++ "_Limit") = named_setpoint middle.
Proof.
  intro Hp. unfold limit_setpoint.
  assert (Hwords : split_on underscore_char (prefix ++ "_" ++ middle ++ "_Limit")
                   = prefix :: (split_on underscore_char middle ++ ["Limit"])%list).
  { change (prefix ++ "_" ++ middle ++ "_Limit")
      with (prefix ++ String underscore_char (middle ++ "_Limit")).
    rewrite split_on_app, split_on_Limit.
    destruct Hp as [-> | ->]; reflexivity. }
  assert (Hspecial : existsb (String.eqb (prefix ++ "_" ++ middle ++ "_Limit"))
                       ["Max_Limit"; "Min_Limit"; "Limit"] = false).
  { destruct Hp as [-> | ->]; cbn [existsb append String.eqb];
      rewrite ?append_Limit_not_Limit; reflexivity. }
  rewrite Hspecial, Hwords.
  assert (Hprefix : limit_prefix
                      (prefix :: (split_on underscore_char middle ++ ["Limit"])%list)
                    = Some prefix).
  { destruct Hp as [-> | ->]; reflexivity. }
  rewrite Hprefix. cbn [tl]. rewrite removelast_last.
  change "_" with (String underscore_char "").
  rewrite join_split_on. apply named_setpoint_final.
Qed.

(** X16. For a parameter named Max_<words>_Limit the definition speaks of an
    upper bound, for Min_<words>_Limit of a lower bound, and in both cases
    the setpoint it names is <words> when their last word is "Setpoint" and
    <words>_Setpoint otherwise. *)
Theorem limit_text_of_prefixed_name (middle : string) :
  limit_setpoint ("Max_" ++ middle ++ "_Limit") = named_setpoint middle
  /\ limit_direction ("Max_" ++ middle ++ "_Limit") = "an upper"
  /\ limit_setpoint ("Min_" ++ middle ++ "_Limit") = named_setpoint middle
  /\ limit_direction ("Min_" ++ middle ++ "_Limit") = "a lower".
Proof.
  split; [|split; [|split]].
  - apply (limit_setpoint_prefixed "Max" middle). now right.
  - reflexivity.
  - apply (limit_setpoint_prefixed "Min" middle). now left.
  - reflexivity.
Qed.

(** X17. For a parameter named <words>_Limit whose first word is neither
    "Min" nor "Max" the definition speaks of a lower or upper bound, and the
    setpoint it names is <words> when their last word is "Setpoint" and
    <words>_Setpoint otherwise. *)
Theorem limit_text_of_unprefixed_name (middle : string) :
  limit_prefix (split_on underscore_char middle) = None ->
  limit_setpoint (middle ++ "_Limit") = named_setpoint middle
  /\ limit_direction (middle ++ "_Limit") = "a lower or upper".
Proof.
  intro Hp. unfold limit_setpoint, limit_direction. rewrite split_on_Limit.
  destruct (split_on_cons underscore_char middle) as [w [ws E]].
  rewrite E in *. cbn [app hd].
  unfold limit_prefix in *. cbn [hd] in *.
  destruct (String.eqb w "Min") eqn:Hmin; [discriminate Hp|].
  destruct (String.eqb w "Max") eqn:Hmax; [discriminate Hp|].
  split; [|reflexivity].
  assert (Hspecial : existsb (String.eqb (middle ++ "_Limit"))
                       ["Max_Limit"; "Min_Limit"; "Limit"] = false).
  { cbn [existsb]. rewrite append_Limit_not_Limit, !orb_false_r.
    apply orb_false_iff. split; apply String.eqb_neq; intro H.
    - change "Max_Limit" with ("Max" ++ "_Limit") in H.
      apply append_inj_r in H. subst middle. cbn in E. inversion E; subst.
      discriminate Hmax.
    - change "Min_Limit" with ("Min" ++ "_Limit") in H.
      apply append_inj_r in H. subst middle. cbn in E. inversion E; subst.
      discriminate Hmin. }
  rewrite Hspecial.
  change (w :: (ws ++ ["Limit"])%list) with ((w :: ws) ++ ["Limit"])%list.
  rewrite removelast_last, <- E.
  change "_" with (String underscore_char "").
  rewrite join_split_on. apply named_setpoint_final.
Qed.

Lemma limit_text_of_unprefixed_name_witness :
  limit_setpoint ("Air_Flow_Setpoint" ++ "_Limit")
  = named_setpoint "Air_Flow_Setpoint"
  /\ limit_direction ("Air_Flow_Setpoint" ++ "_Limit") = "a lower or upper".
Proof.
  apply (limit_text_of_unprefixed_name "Air_Flow_Setpoint"). reflexivity.
Defined.

Lemma split_hash_scan_hash_free (s : string) :
  hash_free s -> split_hash_scan s = (false, s).
Proof.
  unfold hash_free. induction s as [|c s IH]; intro H; [reflexivity|].
  cbn [split_hash_scan]. rewrite IH.
  - destruct (Ascii.eqb c hash_char) eqn:Hc; [|reflexivity].
    apply Ascii.eqb_eq in Hc. exfalso. apply (H c); [now left | exact Hc].
  - intros c' Hc'. apply H. now right.
Qed.

Lemma split_hash_last_after_hash (s t : string) :
  hash_free t -> split_hash_last (s ++ String hash_char t) = t.
Proof.
  intro Ht. unfold split_hash_last.
  assert (H : split_hash_scan (s ++ String hash_char t) = (true, t)).
  { induction s as [|c s IH]; cbn [append split_hash_scan].
    - rewrite (split_hash_scan_hash_free t Ht), Ascii.eqb_refl. reflexivity.
    - rewrite IH. reflexivity. }
  now rewrite H.
Qed.

Lemma split_hash_last_BRICK (name : string) :
  hash_free name -> split_hash_last (py_str (BRICK name)) = name.
Proof.
  intro H. unfold BRICK. cbn [py_str].
  change (BRICK_ns ++ name)
    with ("https://brickschema.org/schema/Brick" ++ String hash_char name).
  now apply split_hash_last_after_hash.
Qed.

Lemma hash_free_app (a b : string) :
  hash_free a -> hash_free b -> hash_free (a ++ b).
Proof.
  unfold hash_free. intros Ha Hb. induction a as [|c a IH]; [exact Hb|].
  cbn [append list_ascii_of_string]. intros c' [<-|Hc'].
  - apply Ha. now left.
  - apply IH; [|exact Hc']. intros c'' Hc''. apply Ha. now right.
Qed.

Lemma hash_free_closed (s : string) :
  forallb (fun c => negb (Ascii.eqb c hash_char)) (list_ascii_of_string s) = true ->
  hash_free s.
Proof.
  intros H c Hc E. rewrite forallb_forall in H. specialize (H c Hc).
  apply negb_true_iff, Ascii.eqb_neq in H. exact (H E).
Qed.

(** X18. For a class brick:Max_<words>_Limit whose words have no "#", the
    definition text is the template with "an upper" for the direction and
    with the named setpoint; likewise "a lower" for brick:Min_<words>_Limit. *)
Theorem limit_def_of_prefixed_class (middle : string) :
  hash_free middle ->
  limit_def (BRICK ("Max_" ++ middle ++ "_Limit"))
  = "A parameter that places an upper bound on the range of permitted values of a "
    ++ named_setpoint middle ++ "."
  /\ limit_def (BRICK ("Min_" ++ middle ++ "_Limit"))
     = "A parameter that places a lower bound on the range of permitted values of a "
       ++ named_setpoint middle ++ ".".
Proof.
  intro Hm.
  assert (Hmax : hash_free ("Max_" ++ middle ++ "_Limit")).
  { apply hash_free_app; [now apply hash_free_closed|].
    apply hash_free_app; [exact Hm | now apply hash_free_closed]. }
  assert (Hmin : hash_free ("Min_" ++ middle ++ "_Limit")).
  { apply hash_free_app; [now apply hash_free_closed|].
    apply hash_free_app; [exact Hm | now apply hash_free_closed]. }
  unfold limit_def.
  rewrite (split_hash_last_BRICK _ Hmax), (split_hash_last_BRICK _ Hmin).
  destruct (limit_setpoint_prefixed "Max" middle (or_intror eq_refl)).
  destruct (limit_setpoint_prefixed "Min" middle (or_introl eq_refl)).
  change ("Max" ++ "_" ++ middle ++ "_Limit")
    with ("Max_" ++ middle ++ "_Limit").
  change ("Min" ++ "_" ++ middle ++ "_Limit")
    with ("Min_" ++ middle ++ "_Limit").
  split; reflexivity.
Qed.

Lemma limit_def_of_prefixed_class_witness :
  limit_def (BRICK ("Max_" ++ "Air_Flow_Setpoint" ++ "_Limit"))
  = "A parameter that places an upper bound on the range of permitted values of a "
    ++ named_setpoint "Air_Flow_Setpoint" ++ "."
  /\ limit_def (BRICK ("Min_" ++ "Air_Flow_Setpoint" ++ "_Limit"))
     = "A parameter that places a lower bound on the range of permitted values of a "
       ++ named_setpoint "Air_Flow_Setpoint" ++ ".".
Proof.
  apply (limit_def_of_prefixed_class "Air_Flow_Setpoint").
  apply hash_free_closed. reflexivity.
Defined.

(* ------------------------------------------------------------------ *)
(** ** The property shape of a sub-property requirement *)

Lemma Collection_on_new_node (head : term) (items : list term) (st : state) :
  list_cells_drawn st ->
  (forall p o, In (head, p, o) (G st) -> p <> RDF "first" /\ p <> RDF "rest") ->
  (forall n, head = BNode (Fresh n) -> n < next_bnode st) ->
  let st' := Collection head items st in
  list_cells_drawn st'
  /\ incl (G st) (G st')
  /\ next_bnode st <= next_bnode st'
  /\ rdf_collection (G st') head items.
Proof.
  intros Hd Hnone Hold st'. unfold st', Collection.
  rewrite !block_cons, block_nil.
  set (st5 := G_remove_sp head (RDF "rest") st).
  assert (H5 : G st5 = G st).
  { unfold st5. cbn [G_remove_sp G]. apply graph_remove_sp_absent.
    intros o Ho. apply Hnone in Ho. destruct Ho as [_ Ho]. now apply Ho. }
  assert (Hnofirst : graph_has_sp (G st5) head (RDF "first") = false).
  { destruct (graph_has_sp (G st5) head (RDF "first")) eqn:Hh; [|reflexivity].
    apply graph_has_sp_true in Hh. destruct Hh as [o Ho]. rewrite H5 in Ho.
    apply Hnone in Ho. destruct Ho as [Ho _]. now destruct Ho. }
  destruct (Collection_extend_spec items head st5) as (Hincl & Hup & Hlist & _).
  destruct (Collection_extend_subjects items head st5) as (Hle & Hsub).
  change (next_bnode st5) with (next_bnode st) in Hle, Hsub.
  rewrite H5 in Hincl, Hup, Hsub.
  split; [|split; [|split]].
  - intros n p o H Hp. destruct (Hsub _ _ _ H) as [Hs|[Hs|[m [Hm Hr]]]].
    + pose proof (Hd _ _ _ Hs Hp). lia.
    + symmetry in Hs. apply Hold in Hs. lia.
    + inversion Hm; subst. lia.
  - exact Hincl.
  - exact Hle.
  - apply Hlist, Hnofirst.
Qed.

Lemma andthen_pure (f : state -> state) (q : proc) (st : state) :
  (pure f ;; q) st = q (f st).
Proof. reflexivity. Qed.

Lemma G_add_keeps_lists_old (s p o : term) (st : state) :
  (forall n, s = BNode (Fresh n) -> n < next_bnode st) ->
  keeps_lists st (G_add (s, p, o) st).
Proof.
  intros Hs Hd. split; [|split; [apply graph_add_incl | cbn; lia]].
  intros n p' o' H Hp. cbn [G_add G next_bnode] in *.
  apply graph_add_In in H. destruct H as [H|H]; [|now apply (Hd _ _ _ H)].
  apply triple_eq_inv in H. destruct H as (H & _). now apply Hs.
Qed.

Lemma define_property_shape_eq (parse : string -> graph)
    (shape_name prop_name : term) (optional : option bool)
    (import_from : option string) (datatype : option term)
    (values : option (list pyval)) (others : list (term * propval))
    (st : state) :
  define_property_shape parse shape_name prop_name
    (PropDefn optional import_from datatype values others) st
  = match datatype, values with
    | Some _, Some (_ :: _) =>
        raise (AssertionError "Predicate values must be an rdflib term")
    | _, _ => pure (add_relationships (fresh_BNode st) others)
    end
      (block
         [ G_add (shape_name, SH "property", fresh_BNode st);
           G_add (fresh_BNode st, A, SH "PropertyShape");
           G_add (fresh_BNode st, SH "path", prop_name);
           match import_from with
           | Some fname =>
               for_each (filter (fun t => term_eqb (fst (fst t)) prop_name)
                                (parse fname))
                        (fun t => G_add (prop_name, snd (fst t), snd t))
           | None => fun st => st
           end;
           match optional with
           | Some true => fun st => st
           | Some false => G_add (fresh_BNode st, SH "minCount", Literal_nat 1)
           | None => G_add (fresh_BNode st, SH "minCount", Literal_nat 1)
           end;
           match datatype, values with
           | Some dtype, _ =>
               block [ G_add (prop_name, A, OWL "DatatypeProperty");
                       if term_eqb dtype (BSH "NumericValue")
                       then G_add (fresh_BNode st, SH "or", BSH "NumericValue")
                       else G_add (fresh_BNode st, SH "datatype", dtype) ]
           | None, Some vals =>
               with_BNode (fun enumeration =>
                 block [ G_add (fresh_BNode st, SH "in", enumeration);
                         G_add (fresh_BNode st, SH "minCount", Literal_nat 1);
                         Collection enumeration (map Literal_of vals);
                         G_add (prop_name, A, OWL "ObjectProperty") ])
           | None, None => G_add (prop_name, A, OWL "ObjectProperty")
           end ]
         (drawn st)).
Proof. reflexivity. Qed.

Lemma define_property_shape_lowers (parse : string -> graph)
    (shape_name prop_name : term) (d : prop_defn) (st : state) :
  list_cells_drawn st ->
  is_drawn_node prop_name = false ->
  let r := define_property_shape parse shape_name prop_name d st in
  incl (G st) (G (snd r))
  /\ property_shape_lowered parse (G (snd r)) shape_name prop_name
       (fresh_BNode st) d
  /\ (fst r = Returned <-> ~ datatype_and_values d)
  /\ (fst r = Returned ->
      match d with
      | PropDefn _ _ _ _ others =>
          forall kv, In kv others ->
                     relationship_made (G (snd r)) (fresh_BNode st) kv
      end).
Proof.
  intros Hd Hpn r. destruct d as [optional import_from datatype values others].
  unfold r. rewrite define_property_shape_eq.
  set (ps := fresh_BNode st).
  rewrite !block_cons, block_nil.
  set (s1 := G_add (shape_name, SH "property", ps) (drawn st)).
  set (s2 := G_add (ps, A, SH "PropertyShape") s1).
  set (s3 := G_add (ps, SH "path", prop_name) s2).
  set (s4 := match import_from with Some _ => _ | None => _ end s3).
  set (s5 := match optional with Some _ => _ | None => _ end s4).
  set (s6 := match datatype with Some _ => _ | None => _ end s5).
  (* the states on the way *)
  assert (K3 : keeps_lists st s3).
  { apply (keeps_lists_trans _ (drawn st)); [apply drawn_keeps_lists|].
    apply (keeps_lists_trans _ s1);
      [apply G_add_keeps_lists_pred; intro E; closed_neq|].
    apply (keeps_lists_trans _ s2);
      apply G_add_keeps_lists_pred; intro E; closed_neq. }
  destruct (K3 Hd) as (Hd3 & I3 & L3).
  assert (F3 : In (shape_name, SH "property", ps) (G s3)
               /\ In (ps, A, SH "PropertyShape") (G s3)
               /\ In (ps, SH "path", prop_name) (G s3)).
  { unfold s3, s2, s1. cbn [G_add G]. rewrite !graph_add_In. auto 10. }
  assert (K4 : keeps_lists s3 s4).
  { unfold s4. destruct import_from as [fname|]; [|apply keeps_lists_refl].
    apply (steps_for_each keeps_lists keeps_lists_refl keeps_lists_trans).
    intros t _. now apply G_add_keeps_lists_subj. }
  destruct (K4 Hd3) as (Hd4 & I4 & L4).
  assert (F4 : forall fname p o, import_from = Some fname ->
                 In (prop_name, p, o) (parse fname) ->
                 In (prop_name, p, o) (G s4)).
  { intros fname p o -> Hin. unfold s4.
    apply (for_each_G_add_In
             (filter (fun t => term_eqb (fst (fst t)) prop_name) (parse fname))
             (fun t => (prop_name, snd (fst t), snd t))).
    right. apply in_map_iff. exists (prop_name, p, o). split; [reflexivity|].
    apply filter_In. split; [exact Hin|]. cbn [fst]. apply term_eqb_refl. }
  assert (K5 : keeps_lists s4 s5).
  { unfold s5. destruct optional as [[|]|];
      [apply keeps_lists_refl
      |apply G_add_keeps_lists_pred; intro E; closed_neq
      |apply G_add_keeps_lists_pred; intro E; closed_neq]. }
  destruct (K5 Hd4) as (Hd5 & I5 & L5).
  assert (F5 : optional <> Some true ->
               In (ps, SH "minCount", Literal_nat 1) (G s5)).
  { intro Ho. unfold s5. destruct optional as [[|]|]; [congruence| |];
      cbn [G_add G]; apply graph_add_In; now left. }
  assert (F6 : incl (G s5) (G s6)
               /\ match datatype, values with
                  | Some dtype, _ =>
                      In (prop_name, A, OWL "DatatypeProperty") (G s6)
                      /\ (if term_eqb dtype (BSH "NumericValue")
                          then In (ps, SH "or", BSH "NumericValue") (G s6)
                          else In (ps, SH "datatype", dtype) (G s6))
                  | None, Some vals =>
                      In (ps, SH "minCount", Literal_nat 1) (G s6)
                      /\ In (prop_name, A, OWL "ObjectProperty") (G s6)
                      /\ exists enumeration,
                           In (ps, SH "in", enumeration) (G s6)
                           /\ rdf_collection (G s6) enumeration
                                             (map Literal_of vals)
                  | None, None => In (prop_name, A, OWL "ObjectProperty") (G s6)
                  end).
  { unfold s6. destruct datatype as [dtype|]; [|destruct values as [vals|]].
    - rewrite !block_cons, block_nil.
      destruct (term_eqb dtype (BSH "NumericValue")); cbn [G_add G];
        (split; [intros t Ht; rewrite !graph_add_In; auto|]);
        rewrite !graph_add_In; auto.
    - unfold with_BNode. rewrite !block_cons, block_nil.
      set (enumeration := fresh_BNode s5).
      set (sa := G_add (ps, SH "minCount", Literal_nat 1)
                   (G_add (ps, SH "in", enumeration) (drawn s5))).
      assert (Ka : keeps_lists s5 sa).
      { apply (keeps_lists_trans _ (drawn s5)); [apply drawn_keeps_lists|].
        apply (keeps_lists_trans _ (G_add (ps, SH "in", enumeration) (drawn s5)));
          apply G_add_keeps_lists_pred; intro E; closed_neq. }
      destruct (Ka Hd5) as (Hda & Ia & La).
      assert (Ha : forall t, In t (G sa) <->
                     (ps, SH "minCount", Literal_nat 1) = t
                     \/ (ps, SH "in", enumeration) = t \/ In t (G s5)).
      { intro t. unfold sa. cbn [G_add G drawn]. rewrite !graph_add_In.
        reflexivity. }
      assert (Hnone : forall p o, In (enumeration, p, o) (G sa) ->
                        p <> RDF "first" /\ p <> RDF "rest").
      { intros p o H. apply Ha in H. destruct H as [H|[H|H]].
        1-2: apply triple_eq_inv in H; destruct H as (_ & <- & _);
          split; intro E; closed_neq.
        split; intro E; subst p.
        - pose proof (Hd5 _ _ _ H (or_introl eq_refl)). lia.
        - pose proof (Hd5 _ _ _ H (or_intror eq_refl)). lia. }
      assert (Hold : forall n, enumeration = BNode (Fresh n) ->
                               n < next_bnode sa).
      { intros n E. inversion E; subst.
        change (next_bnode sa) with (S (next_bnode s5)). lia. }
      destruct (Collection_on_new_node enumeration (map Literal_of vals) sa
                  Hda Hnone Hold) as (_ & Ic & _ & Hlist).
      set (sc := Collection enumeration (map Literal_of vals) sa) in *.
      assert (Ie : incl (G sc) (G (G_add (prop_name, A, OWL "ObjectProperty") sc)))
        by apply graph_add_incl.
      split; [intros t Ht; apply Ie, Ic, Ia, Ht|].
      split; [apply Ie, Ic, Ha; auto|].
      split; [cbn [G_add G]; apply graph_add_In; now left|].
      exists enumeration. split; [apply Ie, Ic, Ha; auto|].
      destruct (map Literal_of vals) as [|v vs] eqn:Ev;
        cbn [rdf_collection] in *; [apply Ie, Hlist|].
      eapply rdf_list_incl; [exact Ie | exact Hlist].
    - cbn [G_add G]. split; [apply graph_add_incl|].
      apply graph_add_In. now left. }
  destruct F6 as [I6 F6]. destruct F3 as (Fa & Fb & Fc).
  (* the pass-through pairs *)
  set (q := match datatype with Some _ => _ | None => _ end).
  assert (Hq : incl (G s6) (G (snd (q s6)))
               /\ (fst (q s6) = Returned
                   <-> ~ datatype_and_values
                         (PropDefn optional import_from datatype values others))
               /\ (fst (q s6) = Returned ->
                   forall kv, In kv others ->
                     relationship_made (G (snd (q s6))) ps kv)).
  { unfold q, datatype_and_values.
    destruct datatype as [dtype|]; [destruct values as [[|v vs]|]|].
    2:{ cbn [raise fst snd]. split; [apply incl_refl|].
        split; [split; [discriminate | intro H; destruct (H I)]|discriminate]. }
    all: cbn [pure fst snd];
      (split; [apply add_relationships_grows_G|]);
      (split; [split; [intros _ []; fail | reflexivity]|]);
      intros _ kv Hkv; now apply add_relationships_made. }
  destruct Hq as (Iq & Rq & Mq).
  split; [intros t Ht; apply Iq, I6, I5, I4, I3, Ht|].
  split; [|split; [exact Rq | exact Mq]].
  unfold property_shape_lowered.
  split; [apply Iq, I6, I5, I4, Fa|]. split; [apply Iq, I6, I5, I4, Fb|].
  split; [apply Iq, I6, I5, I4, Fc|].
  split; [intro Ho; apply Iq, I6, (F5 Ho)|].
  split; [intros fname p o Hf Hin; apply Iq, I6, I5, (F4 fname p o Hf Hin)|].
  destruct datatype as [dtype|]; [|destruct values as [vals|]].
  - destruct F6 as [F6a F6b]. split; [apply Iq, F6a|].
    destruct (term_eqb dtype (BSH "NumericValue")); apply Iq, F6b.
  - destruct F6 as (F6a & F6b & enumeration & F6c & F6d).
    split; [apply Iq, F6a|]. split; [apply Iq, F6b|].
    exists enumeration. split; [apply Iq, F6c|].
    destruct (map Literal_of vals) as [|v vs];
      cbn [rdf_collection] in *; [apply Iq, F6d|].
    eapply rdf_list_incl; [exact Iq | exact F6d].
  - apply Iq, F6.
Qed.

(** X19. From a graph whose drawn blank nodes start no list yet, lowering
    one sub-property requirement to a new property shape removes nothing,
    and afterwards (also if the call raises) the shape has the new blank
    node as [sh:property], typed [sh:PropertyShape] with the property as
    [sh:path]; the statements of the imported file about the property are
    copied; [sh:minCount 1] is there unless "optional" is true, and also when
    values are enumerated without a datatype, whatever "optional" says; a
    datatype makes the property an [owl:DatatypeProperty] with
    [sh:or bsh:NumericValue] or [sh:datatype]; enumerated values make it an
    [owl:ObjectProperty] with [sh:in] the RDF list of the values as literals;
    with neither it is an [owl:ObjectProperty].  When the call returns, the
    remaining pairs are asserted for the new node. *)
Theorem property_shape_is_lowered (parse : string -> graph)
    (shape_name prop_name : term) (d : prop_defn) (st : state) :
  list_cells_drawn st ->
  is_drawn_node prop_name = false ->
  let r := define_property_shape parse shape_name prop_name d st in
  incl (G st) (G (snd r))
  /\ property_shape_lowered parse (G (snd r)) shape_name prop_name
       (fresh_BNode st) d
  /\ (fst r = Returned ->
      match d with
      | PropDefn _ _ _ _ others =>
          forall kv, In kv others ->
                     relationship_made (G (snd r)) (fresh_BNode st) kv
      end).
Proof.
  intros Hd Hpn r.
  destruct (define_property_shape_lowers parse shape_name prop_name d st Hd Hpn)
    as (H1 & H2 & _ & H4).
  split; [exact H1|]. split; [exact H2 | exact H4].
Qed.

Lemma property_shape_is_lowered_witness :
  let r := define_property_shape (fun _ => []) (BSH "StateShape")
             (BRICK "value") optional_enumeration initial_state in
  incl (G initial_state) (G (snd r))
  /\ property_shape_lowered (fun _ => []) (G (snd r)) (BSH "StateShape")
       (BRICK "value") (fresh_BNode initial_state) optional_enumeration
  /\ (fst r = Returned ->
      forall kv, In kv [] ->
                 relationship_made (G (snd r)) (fresh_BNode initial_state) kv).
Proof.
  apply (property_shape_is_lowered (fun _ => []) (BSH "StateShape")
           (BRICK "value") optional_enumeration initial_state).
  - exact initial_state_list_cells_drawn.
  - reflexivity.
Defined.


